(** * escript-utils: bounding boxes, overlap metrics, region reassignment
      and duplicate-line detection

    Shallow embedding of the geometric core of [remove-duplicates.py] and
    [reassign.py].

    Conventions of the embedding.
    - Python integers are [Z].
    - Python's true division [/] on integers is the exact rational
      quotient in [Q]; numeric equality [==] on its results is [Qeq].
      Python returns the binary64 nearest to that quotient.  The
      rounding is monotone and leaves 0, 1 and the quotients of equal
      integers as they are, so bounds and orderings proved of the exact
      quotient hold of the float; it can bring a positive quotient to
      0.0 or one below 1 to 1.0 once the areas exceed 2^53, and the
      properties that tell a quotient from 0 or from 1 are stated for
      areas up to 2^53, with the distance the quotient keeps.
    - An exception is a value of [exn]; a computation that may raise has
      type [res A].
    - A dict is an insertion-ordered association list ([odict]): the loops
      of the scripts depend on the order of [items()].
    - The line dicts handed to [detect_reassignment] are mutated in place;
      they live in a [heap], and the list of lines is a list of
      references into it. *)

From Stdlib Require Import ZArith QArith Lia.
From stdpp Require Import strings pretty functions.
From stdpp Require Import base list gmap.

Local Open Scope Z_scope.

(** ** Python run-time: exceptions, true division, ordered dicts *)

Module Py.

Inductive exn : Type :=
| IndexError
| TypeError
| ValueError
| ZeroDivisionError.

Inductive res (A : Type) : Type :=
| Ok (a : A)
| Raise (e : exn).
Arguments Ok {A} a.
Arguments Raise {A} e.

#[export] Instance res_ret : MRet res := fun A a => Ok a.
#[export] Instance res_bind : MBind res := fun A B f m =>
  match m with
  | Ok a => f a
  | Raise e => Raise e
  end.

(** [n / d] on two integers: the exact quotient, of which Python returns
    the nearest binary64. *)
Definition truediv (n d : Z) : res Q :=
  if d =? 0 then Raise ZeroDivisionError
  else Ok (inject_Z n / inject_Z d)%Q.

(** [a < b] on two rationals, as a boolean. *)
Definition Qltb (a b : Q) : bool :=
  Qnum a * Z.pos (Qden b) <? Qnum b * Z.pos (Qden a).

(** Insertion-ordered dict with integer keys. *)
Definition odict (V : Type) : Type := list (Z * V).

(** [d[k] = v]: an existing key keeps its position and takes the new
    value, a new key goes last. *)
Fixpoint setitem {V : Type} (k : Z) (v : V) (d : odict V) : odict V :=
  match d with
  | [] => [(k, v)]
  | (k', v') :: d' =>
      if decide (k = k') then (k, v) :: d' else (k', v') :: setitem k v d'
  end.

(** [itertools.combinations(l, 2)]: pairs of positions [i < j], in
    lexicographic order of the positions. *)
Fixpoint combinations2 {A : Type} (l : list A) : list (A * A) :=
  match l with
  | [] => []
  | x :: l' => (pair x <$> l') ++ combinations2 l'
  end.

(** A [for] loop whose body may raise. *)
Fixpoint for_each {S A : Type} (body : S → A → res S) (s : S) (l : list A)
  : res S :=
  match l with
  | [] => Ok s
  | x :: l' => s' ← body s x; for_each body s' l'
  end.

End Py.
Import Py.

(** ** Masks and bounding boxes ([extract_bbox], identical in both scripts) *)

Module Geometry.

(** One coordinate of a point as delivered: a bare number, or a dict
    [{"parsedValue": n}]. *)
Inductive coord : Type :=
| Num (z : Z)
| Parsed (z : Z).

Definition point : Type := coord * coord.
Definition polygon : Type := list point.

(** A bounding box of integers, [(x_min, y_min, x_max, y_max)]. *)
Definition bbox : Type := Z * Z * Z * Z.

Definition x_min (b : bbox) : Z := b.1.1.1.
Definition y_min (b : bbox) : Z := b.1.1.2.
Definition x_max (b : bbox) : Z := b.1.2.
Definition y_max (b : bbox) : Z := b.2.

(** The tuple [extract_bbox] returns, before anything is known of the type
    of its components. *)
Definition vbox : Type := coord * coord * coord * coord.

Definition box_val (b : bbox) : vbox :=
  (Num (x_min b), Num (y_min b), Num (x_max b), Num (y_max b)).

(** [c["parsedValue"]]: subscripting a bare number is a [TypeError]. *)
Definition parsedValue (c : coord) : res Z :=
  match c with
  | Parsed z => Ok z
  | Num _ => Raise TypeError
  end.

(** A number used in arithmetic or compared with a number; a dict in its
    place is a [TypeError]. *)
Definition as_int (c : coord) : res Z :=
  match c with
  | Num z => Ok z
  | Parsed _ => Raise TypeError
  end.

(** [a < b] and [a > b] on two delivered values. *)
Definition lt_val (a b : coord) : res bool :=
  x ← as_int a; y ← as_int b; Ok (x <? y).

Definition gt_val (a b : coord) : res bool :=
  x ← as_int a; y ← as_int b; Ok (x >? y).

(** [[f(pt) for pt in mask]] where [f] may raise. *)
Fixpoint comprehension {A B : Type} (f : A → res B) (l : list A)
  : res (list B) :=
  match l with
  | [] => Ok []
  | x :: l' => y ← f x; ys ← comprehension f l'; Ok (y :: ys)
  end.

(** [min(xs)] and [max(xs)] on a list of integers: the first of the
    smallest (largest) wins, which for integers is just the value. *)
Definition min_int (x : Z) (xs : list Z) : Z := foldl Z.min x xs.
Definition max_int (x : Z) (xs : list Z) : Z := foldl Z.max x xs.

(** [min(xs)] and [max(xs)] on delivered values: every later item is
    compared with the running result, [item < current] for [min] and
    [item > current] for [max]. *)
Fixpoint min_from (cur : coord) (l : list coord) : res coord :=
  match l with
  | [] => Ok cur
  | x :: l' => b ← lt_val x cur; min_from (if b : bool then x else cur) l'
  end.

Fixpoint max_from (cur : coord) (l : list coord) : res coord :=
  match l with
  | [] => Ok cur
  | x :: l' => b ← gt_val x cur; max_from (if b : bool then x else cur) l'
  end.

Definition py_min (l : list coord) : res coord :=
  match l with
  | [] => Raise ValueError
  | x :: l' => min_from x l'
  end.

Definition py_max (l : list coord) : res coord :=
  match l with
  | [] => Raise ValueError
  | x :: l' => max_from x l'
  end.

Definition extract_bbox (mask : polygon) : res vbox :=
  match mask with
  | [] => Raise IndexError
  | (Parsed _, _) :: _ =>
      xs ← comprehension (fun pt : point => parsedValue pt.1) mask;
      ys ← comprehension (fun pt : point => parsedValue pt.2) mask;
      match xs, ys with
      | x :: xs', y :: ys' =>
          Ok (Num (min_int x xs'), Num (min_int y ys'),
              Num (max_int x xs'), Num (max_int y ys'))
      | _, _ => Raise ValueError
      end
  | (Num _, _) :: _ =>
      let xs := map fst mask in
      let ys := map snd mask in
      a ← py_min xs; b ← py_min ys; c ← py_max xs; d ← py_max ys;
      Ok (a, b, c, d)
  end.

(** The components of a box as integers, as the [max]/[min] calls that
    open both metrics need them. *)
Definition ints (b : vbox) : res bbox :=
  let '(a, b, c, d) := b in
  a' ← as_int a; b' ← as_int b; c' ← as_int c; d' ← as_int d;
  Ok (a', b', c', d').

(** A metric on integer boxes applied to two delivered boxes. *)
Definition on_boxes (f : bbox → bbox → res Q) (va vb : vbox) : res Q :=
  a ← ints va; b ← ints vb; f a b.

(** The number a coordinate stands for, in either representation. *)
Definition value (c : coord) : Z :=
  match c with
  | Num z => z
  | Parsed z => z
  end.

Definition is_num (c : coord) : bool :=
  match c with Num _ => true | Parsed _ => false end.

Definition is_parsed (c : coord) : bool := negb (is_num c).

(** A polygon whose points all use one representation. *)
Definition uniform (m : polygon) : bool :=
  forallb (fun pt : point => is_num pt.1 && is_num pt.2) m
  || forallb (fun pt : point => is_parsed pt.1 && is_parsed pt.2) m.

(** The bounding box as the data model defines it: component-wise minimum
    and maximum over the points of the polygon. *)
Definition bounds (m : polygon) : bbox :=
  match m with
  | [] => (0, 0, 0, 0)
  | pt :: m' =>
      let xs := map (fun p : point => value p.1) m' in
      let ys := map (fun p : point => value p.2) m' in
      (min_int (value pt.1) xs, min_int (value pt.2) ys,
       max_int (value pt.1) xs, max_int (value pt.2) ys)
  end.

End Geometry.
Import Geometry.

(** ** The two overlap metrics *)

Module Metrics.

(** [iou] of [remove-duplicates.py]. *)
Definition iou (boxA boxB : bbox) : res Q :=
  let xA := Z.max (x_min boxA) (x_min boxB) in
  let yA := Z.max (y_min boxA) (y_min boxB) in
  let xB := Z.min (x_max boxA) (x_max boxB) in
  let yB := Z.min (y_max boxA) (y_max boxB) in
  let inter_width := Z.max 0 (xB - xA) in
  let inter_height := Z.max 0 (yB - yA) in
  let inter_area := inter_width * inter_height in
  if inter_area =? 0 then Ok 0%Q
  else
    let areaA := (x_max boxA - x_min boxA) * (y_max boxA - y_min boxA) in
    let areaB := (x_max boxB - x_min boxB) * (y_max boxB - y_min boxB) in
    let union_area := areaA + areaB - inter_area in
    truediv inter_area union_area.

(** [rel_intersection] of [reassign.py]. *)
Definition rel_intersection (box_a box_b : bbox) : res Q :=
  let x_a := Z.max (x_min box_a) (x_min box_b) in
  let y_a := Z.max (y_min box_a) (y_min box_b) in
  let x_b := Z.min (x_max box_a) (x_max box_b) in
  let y_b := Z.min (y_max box_a) (y_max box_b) in
  let width_a := Z.abs (x_min box_a - x_max box_a) in
  let height_a := Z.abs (y_min box_a - y_max box_a) in
  if (width_a =? 0) || (height_a =? 0) then Ok 0%Q
  else
    let inter_width := Z.max 0 (x_b - x_a) in
    let inter_height := Z.max 0 (y_b - y_a) in
    truediv (inter_width * inter_height) (width_a * height_a).

(** The spec's wording of the same two quantities, on the rationals:
    width and height of the intersection rectangle clamped at zero, the
    area of a box as width times height. *)
Definition inter_area (A B : bbox) : Z :=
  Z.max 0 (Z.min (x_max A) (x_max B) - Z.max (x_min A) (x_min B)) *
  Z.max 0 (Z.min (y_max A) (y_max B) - Z.max (y_min A) (y_min B)).

Definition area (A : bbox) : Z :=
  (x_max A - x_min A) * (y_max A - y_min A).

Definition degenerate (A : bbox) : Prop :=
  x_min A = x_max A ∨ y_min A = y_max A.

Definition ordered (A : bbox) : Prop :=
  x_min A ≤ x_max A ∧ y_min A ≤ y_max A.

Definition relative_overlap_spec (A B : bbox) : Q :=
  (inject_Z (inter_area A B) / inject_Z (area A))%Q.

End Metrics.
Import Metrics.

(** ** Pages: lines and regions as the service delivers them *)

Module Page.

(** A line dict: its ["pk"], its ["mask"] ([None] for a null one), its
    ["region"] ([None] for a null or absent one), and the other keys,
    which the scripts never read.  The key ["mask"] is present in every
    dict modelled here: [d.get("mask")] reads an absent key as a null
    one, while [d["mask"]] raises a [KeyError] on it. *)
Record Line : Type := {
  pk : Z;
  mask : option polygon;
  region : option Z;
  others : list (string * string)
}.

(** A region dict: its ["pk"] and its ["box"]. *)
Record Region : Type := {
  rpk : Z;
  box : option polygon
}.

(** Truth value of [d.get("mask")]: a null or empty mask is false. *)
Definition truthy (m : option polygon) : bool :=
  match m with
  | Some (_ :: _) => true
  | _ => false
  end.

(** [extract_bbox(d["mask"])]: subscripting a null mask is a
    [TypeError]. *)
Definition extract_bbox_of (m : option polygon) : res vbox :=
  match m with
  | Some p => extract_bbox p
  | None => Raise TypeError
  end.

(** [{d[key]: extract_bbox(d[geom]) for d in ds if d.get(geom)}] *)
Definition bbox_dict {D : Type} (key : D → Z) (geom : D → option polygon)
    (ds : list D) : res (odict vbox) :=
  for_each
    (fun acc d =>
       if truthy (geom d)
       then b ← extract_bbox_of (geom d); Ok (setitem (key d) b acc)
       else Ok acc)
    [] ds.

End Page.
Import Page.

(** ** remove-duplicates.py *)

Module RemoveDuplicates.

(** [tuple(sorted((id1, id2)))] *)
Definition pair_key (id1 id2 : Z) : Z * Z :=
  if id2 <? id1 then (id2, id1) else (id1, id2).

(** One turn of the loop over the pairs; the state is
    [(to_delete, checked_pairs)]. *)
Definition visit_pair (st : gset Z * gset (Z * Z))
    (p : (Z * vbox) * (Z * vbox)) : res (gset Z * gset (Z * Z)) :=
  let '(to_delete, checked_pairs) := st in
  let '((id1, box1), (id2, box2)) := p in
  if decide (pair_key id1 id2 ∈ checked_pairs) then Ok st
  else
    let checked_pairs := {[pair_key id1 id2]} ∪ checked_pairs in
    score ← on_boxes iou box1 box2;
    if Qltb (1 # 2) score then
      smaller ← lt_val box1.1.1.1 box2.1.1.1;
      let delete_id := if smaller : bool then id1 else id2 in
      Ok ({[delete_id]} ∪ to_delete, checked_pairs)
    else Ok (to_delete, checked_pairs).

(** The returned list is [list(to_delete)]; the order in which Python
    lists a set is not modelled, only its members are. *)
Definition detect_duplicates_to_delete (lines : list Line) : res (list Z) :=
  bboxes ← bbox_dict pk mask lines;
  st ← for_each visit_pair (∅, ∅) (combinations2 bboxes);
  Ok (elements st.1).

End RemoveDuplicates.
Import RemoveDuplicates.

(** ** reassign.py *)

Module Reassign.

(** The line dicts are objects shared with the caller: a heap maps a
    reference to the dict it denotes, and [lines] is a list of
    references. *)
Abbreviation heap := (nat → Line).

(** [line["region"] = r] *)
Definition set_region (l : Line) (r : Z) : Line :=
  {| pk := pk l; mask := mask l; region := Some r; others := others l |}.

(** One turn of the inner loop; the state is
    [(best_idx, best_intersection)]. *)
Definition scan_step (line : Line) (st : Z * Q) (item : Z * vbox)
  : res (Z * Q) :=
  let '(best_idx, best_intersection) := st in
  let '(idx, zone) := item in
  line_box ← extract_bbox_of (mask line);
  current_intersection ← on_boxes rel_intersection line_box zone;
  if Qltb best_intersection current_intersection
     && Qltb 0 current_intersection
  then Ok (idx, current_intersection)
  else Ok st.

Definition scan (line : Line) (region_bboxes : odict vbox) : res (Z * Q) :=
  for_each (scan_step line) (-1, 0%Q) region_bboxes.

(** One turn of the outer loop; the state is the heap and
    [require_updates]. *)
Definition visit_line (region_bboxes : odict vbox)
    (st : heap * list nat) (ref : nat) : res (heap * list nat) :=
  let '(h, require_updates) := st in
  let line := h ref in
  best ← scan line region_bboxes;
  let best_idx := best.1 in
  if bool_decide (best_idx ≠ (-1))
     && bool_decide (Some best_idx ≠ region line)
  then Ok (<[ref := set_region line best_idx]> h, require_updates ++ [ref])
  else Ok st.

Definition detect_reassignment (lines : list nat) (regions : list Region)
    (h : heap) : res (heap * list nat) :=
  region_bboxes ← bbox_dict rpk box regions;
  for_each (visit_line region_bboxes) (h, []) lines.

End Reassign.
Import Reassign.

(** ** Notions used to state the properties *)

Module Notions.

(** A mask that, when present and non-empty, is in one representation. *)
Definition well_formed (m : option polygon) : Prop :=
  ∀ p, m = Some p → uniform p = true.

(** The bounding box of a line or region with a non-empty mask. *)
Definition box_of (m : option polygon) : bbox :=
  match m with
  | Some p => bounds p
  | None => (0, 0, 0, 0)
  end.

(** The lines that take part in duplicate detection. *)
Definition masked (lines : list Line) : list Line :=
  filter (fun l => truthy (mask l)) lines.

(** What the dict of boxes holds for a line or region with a usable
    mask. *)
Definition entry {D : Type} (key : D → Z) (geom : D → option polygon)
    (d : D) : Z * vbox :=
  (key d, box_val (box_of (geom d))).

(** Two lines are in conflict when the [iou] of their boxes exceeds one
    half. *)
Definition conflict (a b : Line) : Prop :=
  ∃ q, iou (box_of (mask a)) (box_of (mask b)) = Ok q ∧ (1 # 2 < q)%Q.

(** The member of an enumerated pair that the comparison of [x_min]
    picks: the first when its [x_min] is strictly smaller, else the
    second. *)
Definition nominee (a b : Line) : Z :=
  if x_min (box_of (mask a)) <? x_min (box_of (mask b)) then pk a else pk b.

(** The other member of the pair. *)
Definition survivor (a b : Line) : Line :=
  if x_min (box_of (mask a)) <? x_min (box_of (mask b)) then b else a.

(** The key under which the loop records an enumerated pair. *)
Definition pair_id (p : Line * Line) : Z * Z := pair_key (pk p.1) (pk p.2).

(** The set the loop over the pairs [ps] adds to [to_delete]. *)
Definition nominated (ps : list (Line * Line)) (x : Z) : Prop :=
  ∃ a b, (a, b) ∈ ps ∧ conflict a b ∧ x = nominee a b.

(** Position [i] holds the first of the lines of [ls] whose box has the
    greatest [x_min]. *)
Definition first_rightmost (ls : list Line) (i : nat) (m : Line) : Prop :=
  ls !! i = Some m ∧
  (∀ l, l ∈ ls → x_min (box_of (mask l)) ≤ x_min (box_of (mask m))) ∧
  (∀ j l, (j < i)%nat → ls !! j = Some l →
          x_min (box_of (mask l)) < x_min (box_of (mask m))).

(** The regions that are candidates for assignment. *)
Definition candidates (regions : list Region) : list Region :=
  filter (fun r => truthy (box r)) regions.

(** The relative overlap of a line's box with a region's box, as a
    number. *)
Definition overlap (lb : bbox) (r : Region) : Q :=
  match rel_intersection lb (box_of (box r)) with
  | Ok q => q
  | Raise _ => 0%Q
  end.

(** Position [i] of [cands] holds the region that wins the scan for a line
    of box [lb]: its overlap is positive, no candidate has a greater one,
    and every candidate before it has a strictly smaller one. *)
Definition best_region (lb : bbox) (cands : list Region) (i : nat)
    (r : Region) : Prop :=
  cands !! i = Some r ∧
  (0 < overlap lb r)%Q ∧
  (∀ r', r' ∈ cands → (overlap lb r' <= overlap lb r)%Q) ∧
  (∀ j r', (j < i)%nat → cands !! j = Some r' →
           (overlap lb r' < overlap lb r)%Q).

(** No candidate overlaps the line. *)
Definition no_overlap (lb : bbox) (cands : list Region) : Prop :=
  ∀ r, r ∈ cands → (overlap lb r <= 0)%Q.

(** The test that decides whether a line is rewritten and reported. *)
Definition update_due (best_idx : Z) (line : Line) : bool :=
  bool_decide (best_idx ≠ (-1)) && bool_decide (Some best_idx ≠ region line).

(** A line usable by [detect_reassignment]: its mask is present, non-empty
    and in one representation. *)
Definition usable (line : Line) : Prop :=
  truthy (mask line) = true ∧ well_formed (mask line).

(** What holds of the heap [h] and the list [out] of the outer loop once
    the references [visited] have been processed, [h0] being the heap at
    the call. *)
Definition loop_inv (regs : odict vbox) (h0 : heap) (visited : list nat)
    (st : heap * list nat) : Prop :=
  NoDup st.2 ∧
  (∀ ref, ref ∈ st.2 → ref ∈ visited) ∧
  (∀ ref, ref ∈ st.2 →
     ∃ best, scan (h0 ref) regs = Ok best ∧
             update_due best.1 (h0 ref) = true ∧
             st.1 ref = set_region (h0 ref) best.1) ∧
  (∀ ref, ref ∉ st.2 → st.1 ref = h0 ref) ∧
  (∀ ref, ref ∈ visited →
     ∃ best, scan (h0 ref) regs = Ok best ∧
             (update_due best.1 (h0 ref) = true → ref ∈ st.2)).

End Notions.
Import Notions.

(** ** Further notions on polygons and boxes *)

Module Shapes.

(** The abscissa and the ordinate a point stands for. *)
Definition px (p : point) : Z := value p.1.
Definition py (p : point) : Z := value p.2.

(** The same polygon with every coordinate delivered as
    [{"parsedValue": n}], and with every coordinate delivered bare. *)
Definition wrapped (m : polygon) : polygon :=
  map (fun p : point => (Parsed (px p), Parsed (py p))) m.

Definition unwrapped (m : polygon) : polygon :=
  map (fun p : point => (Num (px p), Num (py p))) m.

(** Two boxes that share no area: one lies beyond an edge of the other. *)
Definition apart (A B : bbox) : Prop :=
  x_max A ≤ x_min B ∨ x_max B ≤ x_min A ∨
  y_max A ≤ y_min B ∨ y_max B ≤ y_min A.

(** Box [A] lies within box [B]. *)
Definition inside (A B : bbox) : Prop :=
  x_min B ≤ x_min A ∧ x_max A ≤ x_max B ∧
  y_min B ≤ y_min A ∧ y_max A ≤ y_max B.

(** A box of positive width and height. *)
Definition proper (A : bbox) : Prop :=
  x_min A < x_max A ∧ y_min A < y_max A.

(** The area of the union of two boxes, as [iou] computes it. *)
Definition union_area (A B : bbox) : Z :=
  area A + area B - inter_area A B.

(** The area of its first box as [rel_intersection] computes it,
    [width_a * height_a]. *)
Definition extent (A : bbox) : Z :=
  Z.abs (x_min A - x_max A) * Z.abs (y_min A - y_max A).

(** [2^53]: the integers up to it are binary64 numbers. *)
Definition exact_bound : Z := 2 ^ 53.

(** [2^-53]: the least quotient of two positive integers up to [2^53],
    and the distance from 1 of the greatest such quotient below 1.  It
    is a binary64 number, and so is [1 - 2^-53]: a quotient that is at
    least [gap] is not rounded to 0.0, one that is at most [1 - gap] is
    not rounded to 1.0. *)
Definition gap : Q := 1 # 2 ^ 53.

(** The overlaps of a line's box with the candidate regions keep their
    distance: one that is positive is at least [gap], and two that
    differ differ by at least [gap].  Rounded to binary64 they compare
    with 0 and with each other as the exact quotients do. *)
Definition separated (lb : bbox) (cands : list Region) : Prop :=
  ∀ r r', r ∈ cands → r' ∈ cands →
    ((0 < overlap lb r)%Q → (gap <= overlap lb r)%Q) ∧
    ((overlap lb r < overlap lb r')%Q →
     (overlap lb r + gap <= overlap lb r')%Q).

End Shapes.
Import Shapes.

(** ** Notions on pages after a run *)

Module Outcomes.

(** The lines of a page once the lines whose identifier is in [ids] have
    been deleted. *)
Definition remaining (ids : list Z) (lines : list Line) : list Line :=
  filter (fun l => pk l ∉ ids) lines.

(** The key under which the loop records a pair of entries of the dict of
    boxes. *)
Definition item_key (p : (Z * vbox) * (Z * vbox)) : Z * Z :=
  pair_key p.1.1 p.2.1.

(** Two line dicts that agree on ["pk"] and ["mask"]. *)
Definition same_shape (a b : Line) : Prop :=
  pk a = pk b ∧ mask a = mask b.

(** The line dicts a list of references denotes in a heap. *)
Definition deref (h : heap) (refs : list nat) : list Line := h <$> refs.

End Outcomes.
Import Outcomes.

(** ** The scripts around the two engines: requests, console, main loops

    The service is a parameter: [server past r] is its answer to the
    request [r] after the requests [past].  What a script does to the
    outside is recorded, in order, in a log of events. *)

Module Http.

Inductive verb : Type := GET | POST | PUT.

(** The [json=] argument of a request. *)
Inductive payload : Type :=
| NoBody
| DeleteLines (line_ids : list Z)
| UpdateLines (lines : list Line).

Record request : Type := {
  method : verb;
  url : string;
  headers : list (string * string);
  json : payload
}.

(** What [response.json()] holds that the scripts read: the ["pk"] of the
    entries of ["results"], ["next"], ["lines"] and ["regions"], an absent
    list being empty. *)
Record document : Type := {
  results : list Z;
  next : option string;
  lines : list Line;
  regions : list Region
}.

(** A response; [body] is [None] when the content is not JSON. *)
Record response : Type := {
  status_code : Z;
  text : string;
  body : option document
}.

Inductive reply : Type :=
| Response (r : response)
| Unreachable.

Inductive event : Type :=
| Sent (r : request)
| Printed (s : string)
| Described (s : string)
| Advanced (n : Z).

(** What ends a script early. *)
Inductive failure : Type :=
| ConnectionError
| HTTPError (status : Z)
| JSONDecodeError
| Engine (e : exn).

(** What stops a run: an exception, or a [while] loop that the fuel given
    to it did not see to its end. *)
Inductive halt : Type :=
| Raised (f : failure)
| OutOfFuel.

Inductive outcome (A : Type) : Type :=
| Returned (a : A)
| Halted (h : halt).
Arguments Returned {A} a.
Arguments Halted {A} h.

(** A script: from the log so far to an outcome and the log after. *)
Definition io (A : Type) : Type := list event → outcome A * list event.

#[export] Instance io_ret : MRet io := fun A a log => (Returned a, log).
#[export] Instance io_bind : MBind io := fun A B k m log =>
  match m log with
  | (Returned a, log') => k a log'
  | (Halted h, log') => (Halted h, log')
  end.

Definition raise {A : Type} (f : failure) : io A :=
  fun log => (Halted (Raised f), log).
Definition out_of_fuel {A : Type} : io A := fun log => (Halted OutOfFuel, log).

(** The result of an engine, its exception passed on. *)
Definition engine {A : Type} (r : res A) : io A :=
  match r with
  | Ok a => mret a
  | Raise e => raise (Engine e)
  end.

(** A [for] loop with a running state. *)
Fixpoint for_io {S A : Type} (body : S → A → io S) (s : S) (l : list A)
  : io S :=
  match l with
  | [] => mret s
  | x :: l' => s' ← body s x; for_io body s' l'
  end.

(** The requests among the events of a log. *)
Definition requests (log : list event) : list request :=
  omap (fun e => match e with Sent r => Some r | _ => None end) log.

(** [400 <= status_code < 600], the test of [raise_for_status]. *)
Definition is_error (status : Z) : bool :=
  (400 <=? status) && (status <? 600).

(** [response.ok] *)
Definition ok (r : response) : bool := negb (is_error (status_code r)).

(** [if url:] on a string or [None]. *)
Definition truthy_url (u : option string) : bool :=
  match u with
  | Some (String _ _) => true
  | _ => false
  end.

Definition API_BASE : string := "https://escriptorium.inria.fr/api".

Definition newline : string := String (Ascii.ascii_of_nat 10) EmptyString.

Section Scripts.

Context (server : list request → request → reply).

Definition send (r : request) : io response := fun log =>
  match server (requests log) r with
  | Response resp => (Returned resp, log ++ [Sent r])
  | Unreachable => (Halted (Raised ConnectionError), log ++ [Sent r])
  end.

Definition print (s : string) : io unit := fun log =>
  (Returned tt, log ++ [Printed s]).

Definition set_description (s : string) : io unit := fun log =>
  (Returned tt, log ++ [Described s]).

Definition update (n : Z) : io unit := fun log =>
  (Returned tt, log ++ [Advanced n]).

Definition raise_for_status (r : response) : io unit :=
  if is_error (status_code r) then raise (HTTPError (status_code r))
  else mret tt.

Definition response_json (r : response) : io document :=
  match body r with
  | Some d => mret d
  | None => raise JSONDecodeError
  end.

Definition authorization (token : string) : string * string :=
  ("Authorization"%string, "Token " +:+ token).

Definition parts_url (document_id : Z) : string :=
  API_BASE +:+ "/documents/" +:+ pretty document_id +:+ "/parts/".

Definition part_url (document_id part_id : Z) : string :=
  API_BASE +:+ "/documents/" +:+ pretty document_id +:+ "/parts/"
  +:+ pretty part_id.

Definition bulk_delete_url (document_id part_id : Z) : string :=
  part_url document_id part_id +:+ "/lines/bulk_delete/".

Definition bulk_update_url (document_id part_id : Z) : string :=
  part_url document_id part_id +:+ "/lines/bulk_update/".

Definition recalculate_url (document_id part_id : Z) : string :=
  part_url document_id part_id +:+ "/recalculate_ordering/".

Definition page_request (hdrs : list (string * string)) (u : string)
  : request :=
  {| method := GET; url := u; headers := hdrs; json := NoBody |}.

(** The [while url:] loop of [get_all_parts], met with [url] and
    [part_ids] as they are at the top of a turn. *)
Fixpoint follow (fuel : nat) (hdrs : list (string * string))
    (url : option string) (part_ids : list Z) : io (list Z) :=
  match url with
  | Some (String c u) =>
      match fuel with
      | O => out_of_fuel
      | S fuel' =>
          response ← send (page_request hdrs (String c u));
          _ ← raise_for_status response;
          data ← response_json response;
          follow fuel' hdrs (next data) (part_ids ++ results data)
      end
  | _ => mret part_ids
  end.

(** [get_all_parts] of [remove-duplicates.py] and [reassign.py],
    [get_all_part_ids] of [reorder.py]. *)
Definition get_all_parts (fuel : nat) (document_id : Z) (token : string)
  : io (list Z) :=
  follow fuel [authorization token] (Some (parts_url document_id)) [].

Definition part_request (document_id part_id : Z) (token : string)
  : request :=
  page_request [authorization token] (part_url document_id part_id).

Definition get_part (document_id part_id : Z) (token : string)
  : io document :=
  response ← send (part_request document_id part_id token);
  _ ← raise_for_status response;
  response_json response.

(** [get_lines] of [remove-duplicates.py]. *)
Definition get_lines (document_id part_id : Z) (token : string)
  : io (list Line) :=
  data ← get_part document_id part_id token;
  mret ([] ++ lines data).

(** [get_lines_and_regions] of [reassign.py]. *)
Definition get_lines_and_regions (document_id part_id : Z) (token : string)
  : io (list Line * list Region) :=
  data ← get_part document_id part_id token;
  mret (lines data, regions data).

Definition delete_request (document_id part_id : Z) (line_ids : list Z)
    (token : string) : request :=
  {| method := POST; url := bulk_delete_url document_id part_id;
     headers := [authorization token;
                 ("Content-Type"%string, "application/json"%string)];
     json := DeleteLines line_ids |}.

Definition update_request (document_id part_id : Z) (token : string)
    (ls : list Line) : request :=
  {| method := PUT; url := bulk_update_url document_id part_id;
     headers := [authorization token]; json := UpdateLines ls |}.

Definition recalculate_request (document_id part_id : Z) (token : string)
  : request :=
  {| method := POST; url := recalculate_url document_id part_id;
     headers := [authorization token]; json := NoBody |}.

Definition bulk_delete_lines (document_id part_id : Z) (line_ids : list Z)
    (token : string) : io unit :=
  response ← send (delete_request document_id part_id line_ids token);
  if ok response then
    print ("✓ Deleted " +:+ pretty (length line_ids) +:+ " lines in part "
           +:+ pretty part_id)
  else
    print ("✗ Failed to delete lines in part " +:+ pretty part_id +:+ ": "
           +:+ pretty (status_code response) +:+ " - " +:+ text response).

Definition recalculate_ordering (document_id part_id : Z) (token : string)
  : io response :=
  response ← send (recalculate_request document_id part_id token);
  _ ← (if ok response then mret tt
       else print ("✗ Failed to recalculate for part " +:+ pretty part_id
                   +:+ ": " +:+ pretty (status_code response)));
  mret response.

Definition bulk_update (document_id part_id : Z) (token : string)
    (ls : list Line) : io response :=
  response ← send (update_request document_id part_id token ls);
  _ ← (if ok response then mret tt
       else print ("✗ Failed to bulk update for part " +:+ pretty part_id
                   +:+ ": " +:+ pretty (status_code response)));
  mret response.

(** One turn of the loop of [main] in [remove-duplicates.py]. *)
Definition dedup_part (document_id : Z) (token : string) (_ : unit)
    (part_id : Z) : io unit :=
  ls ← get_lines document_id part_id token;
  to_delete ← engine (detect_duplicates_to_delete ls);
  match to_delete with
  | _ :: _ =>
      _ ← print (newline +:+ "Part " +:+ pretty part_id +:+ ": "
                 +:+ pretty (length to_delete)
                 +:+ " lines to delete due to duplication.");
      _ ← bulk_delete_lines document_id part_id to_delete token;
      _ ← recalculate_ordering document_id part_id token;
      mret tt
  | [] =>
      print ("Part " +:+ pretty part_id +:+ " has no duplicates to delete.")
  end.

(** [main] of [remove-duplicates.py]. *)
Definition dedup_main (fuel : nat) (document_id : Z) (token : string)
  : io unit :=
  _ ← print ("Checking document " +:+ pretty document_id
             +:+ " for duplicate lines...");
  part_ids ← get_all_parts fuel document_id token;
  for_io (dedup_part document_id token) tt part_ids.

(** The line dicts of a response as fresh objects: reference [i] denotes
    the [i]-th line. *)
Definition load (ls : list Line) : heap :=
  fun ref =>
    default {| pk := 0; mask := None; region := None; others := [] |}
            (ls !! ref).

(** One turn of the loop of [main] in [reassign.py]; the state is
    [total_reassigned]. *)
Definition reassign_part (document_id : Z) (token : string)
    (total_reassigned : Z) (part_id : Z) : io Z :=
  lr ← get_lines_and_regions document_id part_id token;
  st ← engine (detect_reassignment (seq 0 (length lr.1)) lr.2 (load lr.1));
  let to_reassign := st.1 <$> st.2 in
  total ←
    match to_reassign with
    | _ :: _ =>
        let total := total_reassigned + Z.of_nat (length to_reassign) in
        _ ← set_description
              ("Reassigned: " +:+ pretty total +:+ " [+"
               +:+ pretty (length to_reassign) +:+ " in "
               +:+ pretty part_id +:+ "]");
        _ ← bulk_update document_id part_id token to_reassign;
        _ ← recalculate_ordering document_id part_id token;
        mret total
    | [] => mret total_reassigned
    end;
  _ ← update 1;
  mret total.

(** [main] of [reassign.py]; the bar is the one made by
    [tqdm.tqdm(total=len(part_ids))], of which the calls the script makes
    on it are recorded. *)
Definition reassign_main (fuel : nat) (document_id : Z) (token : string)
  : io unit :=
  _ ← print ("Checking document " +:+ pretty document_id
             +:+ " for lines to reassign...");
  part_ids ← get_all_parts fuel document_id token;
  _ ← for_io (reassign_part document_id token) 0 part_ids;
  mret tt.

(** [recalculate_all_parts] of [reorder.py]; [tqdm.tqdm(part_ids)] is
    iterated as [part_ids]. *)
Definition recalculate_all_parts (fuel : nat) (document_id : Z)
    (token : string) : io unit :=
  _ ← print ("Fetching parts for document " +:+ pretty document_id
             +:+ "...");
  part_ids ← get_all_parts fuel document_id token;
  _ ← print ("Found " +:+ pretty (length part_ids)
             +:+ " parts. Recalculating ordering...");
  for_io (fun (_ : unit) part_id =>
            _ ← recalculate_ordering document_id part_id token; mret tt)
         tt part_ids.

End Scripts.

(** *** What a script adds to the log *)

(** [m] appends to the log, and [P past o new] relates the requests
    before the run, its outcome and the requests it added. *)
Definition emits {A : Type} (m : io A)
    (P : list request → outcome A → list request → Prop) : Prop :=
  ∀ log o log', m log = (o, log') →
    ∃ evs, log' = log ++ evs ∧ P (requests log) o (requests evs).

(** A script that sends nothing. *)
Definition quiet {A : Type} (m : io A) : Prop :=
  emits m (fun _ _ rs => rs = []).

(** A request whose answer, whatever it is, is only looked at to print a
    message: exactly that request is sent, and the script goes on unless
    the connection fails. *)
Definition sends_one {A : Type} (r : request) (m : io A) : Prop :=
  emits m (fun _ o rs =>
             rs = [r] ∧ ((∃ a, o = Returned a)
                         ∨ o = Halted (Raised ConnectionError))).

(** What follows the read of a part in a turn of a loop: nothing when
    [none] holds, else the write [r] and the recalculation [r'], the
    second sent whatever the first was answered; only the connection
    failing stops the turn. *)
Definition written {A : Type} (none : Prop) (r r' : request)
    (o : outcome A) (rs : list request) : Prop :=
  (none ∧ rs = [] ∧ ∃ a, o = Returned a) ∨
  (¬ none ∧
   ((rs = [r] ∧ o = Halted (Raised ConnectionError)) ∨
    (rs = [r; r'] ∧ ((∃ a, o = Returned a)
                     ∨ o = Halted (Raised ConnectionError))))).

(** *** Shapes of request logs *)

(** A request for a page of the list of parts. *)
Definition page_get (token : string) (r : request) : Prop :=
  ∃ u, r = page_request [authorization token] u.

(** The requests of a loop over the parts [ids] whose turns all come to
    their end: [turn past part_id rs] says that [rs] are the requests of
    the turn for [part_id], made after the requests [past]. *)
Inductive turns (turn : list request → Z → list request → Prop)
  : list request → list Z → list request → Prop :=
| turns_nil past : turns turn past [] []
| turns_cons past part_id ids rs1 rs2 :
    turn past part_id rs1 →
    turns turn (past ++ rs1) ids rs2 →
    turns turn past (part_id :: ids) (rs1 ++ rs2).

(** The requests of a turn of [main] of [remove-duplicates.py] that an
    exception leaves: the read of the part alone, or, the connection
    failing on the bulk delete or on the recalculation, the requests up
    to that one. *)
Definition dedup_stop (document_id : Z) (token : string) (part_id : Z)
    (h : halt) (rs : list request) : Prop :=
  (h ≠ OutOfFuel ∧ rs = [part_request document_id part_id token]) ∨
  (h = Raised ConnectionError ∧
   ∃ line_ids, line_ids ≠ [] ∧
     (rs = [part_request document_id part_id token;
            delete_request document_id part_id line_ids token] ∨
      rs = [part_request document_id part_id token;
            delete_request document_id part_id line_ids token;
            recalculate_request document_id part_id token])).

(** The same for [main] of [reassign.py]. *)
Definition reassign_stop (document_id : Z) (token : string) (part_id : Z)
    (h : halt) (rs : list request) : Prop :=
  (h ≠ OutOfFuel ∧ rs = [part_request document_id part_id token]) ∨
  (h = Raised ConnectionError ∧
   ∃ ls, ls ≠ [] ∧ Forall (fun l => region l ≠ None) ls ∧
     (rs = [part_request document_id part_id token;
            update_request document_id part_id token ls] ∨
      rs = [part_request document_id part_id token;
            update_request document_id part_id token ls;
            recalculate_request document_id part_id token])).

(** *** Notions that mention the service *)

Section Served.

Context (server : list request → request → reply).

(** A run that stops on an [HTTPError] stops right after a [GET] that the
    service answered with that status. *)
Definition from_read {A : Type} (past : list request) (o : outcome A)
    (rs : list request) : Prop :=
  ∀ s, o = Halted (Raised (HTTPError s)) →
    ∃ rs0 r resp,
      rs = rs0 ++ [r] ∧ method r = GET ∧
      server (past ++ rs0) r = Response resp ∧ status_code resp = s.

(** The service answers the read of a part, made after [past], with the
    JSON document [d] and no error status. *)
Definition part_read (past : list request) (document_id part_id : Z)
    (token : string) (d : document) : Prop :=
  ∃ resp,
    server past (part_request document_id part_id token) = Response resp ∧
    is_error (status_code resp) = false ∧ body resp = Some d.

(** The requests of a turn of [main] of [remove-duplicates.py] that comes
    to its end: the read of the part, and, when
    [detect_duplicates_to_delete] returns identifiers for the lines read,
    the bulk delete of these identifiers, listed in some order, and the
    recalculation. *)
Definition dedup_turn (document_id : Z) (token : string)
    (past : list request) (part_id : Z) (rs : list request) : Prop :=
  ∃ d out line_ids,
    part_read past document_id part_id token d ∧
    detect_duplicates_to_delete (lines d) = Ok out ∧
    line_ids ≡ₚ out ∧
    rs = part_request document_id part_id token ::
         match line_ids with
         | [] => []
         | _ :: _ => [delete_request document_id part_id line_ids token;
                      recalculate_request document_id part_id token]
         end.

(** The requests of a turn of [main] of [reassign.py] that comes to its
    end: the read of the part, and, when [detect_reassignment] returns
    lines, the bulk update of these lines as it has rewritten them, each
    with a region, and the recalculation. *)
Definition reassign_turn (document_id : Z) (token : string)
    (past : list request) (part_id : Z) (rs : list request) : Prop :=
  ∃ d h' out,
    part_read past document_id part_id token d ∧
    detect_reassignment (seq 0 (length (lines d))) (regions d)
      (load (lines d)) = Ok (h', out) ∧
    Forall (fun l => region l ≠ None) (h' <$> out) ∧
    rs = part_request document_id part_id token ::
         match h' <$> out with
         | [] => []
         | ls => [update_request document_id part_id token ls;
                  recalculate_request document_id part_id token]
         end.

(** The service, asked after [past] for the page at [url] and then for
    the pages that the ["next"] links lead to, answers each time with a
    JSON document and no error status, until a page has no ["next"]; the
    identifiers on these pages are [ids], in this order. *)
Inductive paged (hdrs : list (string * string))
  : list request → option string → list Z → Prop :=
| paged_last past url :
    truthy_url url = false → paged hdrs past url []
| paged_next past u resp d ids :
    truthy_url (Some u) = true →
    server past (page_request hdrs u) = Response resp →
    is_error (status_code resp) = false →
    body resp = Some d →
    paged hdrs (past ++ [page_request hdrs u]) (next d) ids →
    paged hdrs past (Some u) (results d ++ ids).

End Served.

End Http.


(** ** Sample pages *)

Module Samples.

Definition rect (x0 y0 x1 y1 : Z) : polygon :=
  [(Num x0, Num y0); (Num x1, Num y0); (Num x1, Num y1); (Num x0, Num y1)].

Definition mk_line (id : Z) (m : option polygon) (r : option Z) : Line :=
  {| pk := id; mask := m; region := r; others := [] |}.

Definition mk_region (id : Z) (m : option polygon) : Region :=
  {| rpk := id; box := m |}.

(** Three lines, each overlapping the two others by more than a half. *)
Definition line_a : Line := mk_line 1 (Some (rect 0 0 10 10)) None.
Definition line_b : Line := mk_line 2 (Some (rect 1 0 11 10)) None.
Definition line_c : Line := mk_line 3 (Some (rect 2 0 12 10)) None.

Definition three_lines : list Line := [line_a; line_b; line_c].

Definition heap_of (ls : list Line) : heap :=
  fun ref => nth ref ls (mk_line 0 None None).

(** Two regions far apart, a line inside the first that is not assigned
    yet, and a line inside the second that is. *)
Definition region_R1 : Region := mk_region 10 (Some (rect 0 0 10 10)).
Definition region_R2 : Region := mk_region 20 (Some (rect 20 20 30 30)).

Definition page_heap : heap :=
  heap_of [ mk_line 1 (Some (rect 1 1 5 5)) None;
            mk_line 2 (Some (rect 21 22 25 26)) (Some 20) ].

(** The same first line next to a line whose mask is empty. *)
Definition heap_with_empty_mask : heap :=
  heap_of [ mk_line 1 (Some (rect 1 1 5 5)) None;
            mk_line 2 (Some []) None ].

(** A region whose identifier is the value [detect_reassignment] starts
    [best_idx] with. *)
Definition region_minus_one : Region :=
  mk_region (-1) (Some (rect 0 0 10 10)).

End Samples.
Import Samples.

(** ** Sample services *)

Module Services.

Import Http.

Definition json_response (d : document) : reply :=
  Response {| status_code := 200; text := ""; body := Some d |}.

Definition error_response (status : Z) : reply :=
  Response {| status_code := status; text := "no"; body := None |}.

(** Document 7 has the parts 3 and 4, listed on two pages. *)
Definition second_page : string := "https://escriptorium.inria.fr/page2".

Definition listing (u : string) : reply :=
  if decide (u = parts_url 7) then
    json_response {| results := [3]; next := Some second_page;
                     lines := []; regions := [] |}
  else if decide (u = second_page) then
    json_response {| results := [4]; next := None;
                     lines := []; regions := [] |}
  else error_response 404.

(** Part 3 holds the three overlapping lines, part 4 two lines of which the
    first is to be assigned to a region. *)
Definition part_three : document :=
  {| results := []; next := None; lines := three_lines;
     regions := [region_R1; region_R2] |}.

Definition part_four : document :=
  {| results := []; next := None;
     lines := [ mk_line 1 (Some (rect 1 1 5 5)) None;
                mk_line 2 (Some (rect 21 22 25 26)) (Some 20) ];
     regions := [region_R1; region_R2] |}.

(** A service that answers every read and refuses every write. *)
Definition read_only_service (past : list request) (r : request) : reply :=
  match method r with
  | GET =>
      if decide (url r = part_url 7 3) then json_response part_three
      else if decide (url r = part_url 7 4) then json_response part_four
      else listing (url r)
  | _ => error_response 500
  end.

(** A service that lists the parts and answers nothing else. *)
Definition listing_service (past : list request) (r : request) : reply :=
  match method r with
  | GET => listing (url r)
  | _ => error_response 500
  end.

End Services.

(** * Properties *)

(** ** The error monad *)

Lemma bind_Ok {A B : Type} (m : res A) (f : A → res B) (b : B) :
  m ≫= f = Ok b ↔ ∃ a, m = Ok a ∧ f a = Ok b.
Proof.
  destruct m as [a|e]; simpl.
  - split; [eauto | intros (a' & [= <-] & H); exact H].
  - split; [discriminate | intros (a' & [=] & _)].
Qed.

Lemma Qltb_lt (a b : Q) : Qltb a b = true ↔ (a < b)%Q.
Proof. unfold Qltb, Qlt. apply Z.ltb_lt. Qed.

Lemma Qltb_ge (a b : Q) : Qltb a b = false ↔ (b <= a)%Q.
Proof. unfold Qltb, Qle. apply Z.ltb_ge. Qed.

Lemma truediv_Ok (n d : Z) :
  d ≠ 0 → truediv n d = Ok (inject_Z n / inject_Z d)%Q.
Proof. intros Hd. unfold truediv. by destruct (Z.eqb_spec d 0). Qed.

(** ** The metrics *)

Ltac box_unfold :=
  cbv [degenerate ordered x_min y_min x_max y_max fst snd] in *.

Section MetricFacts.

Implicit Types A B : bbox.

Lemma inter_area_nonneg A B : 0 ≤ inter_area A B.
Proof. unfold inter_area. apply Z.mul_nonneg_nonneg; lia. Qed.

Lemma inter_area_comm A B : inter_area A B = inter_area B A.
Proof.
  unfold inter_area.
  by rewrite (Z.min_comm (x_max A)), (Z.max_comm (x_min A)),
    (Z.min_comm (y_max A)), (Z.max_comm (y_min A)).
Qed.

(** A non-empty intersection lies inside both boxes, whatever the order
    of their corners. *)
Lemma inter_area_pos_le A B :
  inter_area A B ≠ 0 → 0 < inter_area A B ≤ area A.
Proof.
  unfold inter_area, area.
  set (w := Z.min (x_max A) (x_max B) - Z.max (x_min A) (x_min B)).
  set (h := Z.min (y_max A) (y_max B) - Z.max (y_min A) (y_min B)).
  intros H.
  assert (0 < w) as Hw.
  { destruct (Z.max_spec 0 w) as [[? _]|[_ E]]; [done|].
    rewrite E, Z.mul_0_l in H. done. }
  assert (0 < h) as Hh.
  { destruct (Z.max_spec 0 h) as [[? _]|[_ E]]; [done|].
    rewrite E, Z.mul_0_r in H. done. }
  rewrite !Z.max_r by lia. split; [lia|].
  apply Z.mul_le_mono_nonneg; lia.
Qed.

Lemma iou_unfold A B :
  iou A B =
  if inter_area A B =? 0 then Ok 0%Q
  else truediv (inter_area A B) (area A + area B - inter_area A B).
Proof. reflexivity. Qed.

(** [iou] never divides by zero. *)
Lemma iou_value A B :
  iou A B =
  Ok (if inter_area A B =? 0 then 0%Q
      else (inject_Z (inter_area A B)
            / inject_Z (area A + area B - inter_area A B))%Q).
Proof.
  rewrite iou_unfold. destruct (Z.eqb_spec (inter_area A B) 0) as [|Hne]; [done|].
  apply truediv_Ok.
  pose proof (inter_area_pos_le A B Hne).
  pose proof (inter_area_pos_le B A) as HB.
  rewrite (inter_area_comm B A) in HB. specialize (HB Hne). lia.
Qed.

End MetricFacts.

Section MetricClaims.

Implicit Types A B : bbox.

(** C6. [iou] is symmetric: on any two boxes (in particular on boxes with
    x_min ≤ x_max and y_min ≤ y_max) [iou(A, B)] and [iou(B, A)] return
    the same number, and neither call raises. *)
Theorem iou_symmetric A B : ∃ q, iou A B = Ok q ∧ iou B A = Ok q.
Proof.
  eexists. split; [apply iou_value|].
  rewrite iou_value, (inter_area_comm B A), (Z.add_comm (area B)). done.
Qed.

Lemma inter_area_self A :
  x_min A < x_max A → y_min A < y_max A → inter_area A A = area A.
Proof.
  intros Hx Hy. unfold inter_area, area.
  rewrite !Z.min_id, !Z.max_id.
  rewrite (Z.max_r 0 (x_max A - x_min A)), (Z.max_r 0 (y_max A - y_min A)) by lia.
  done.
Qed.

(** C7. For a box of positive width and positive height,
    [iou(A, A) == 1.0]. *)
Theorem iou_self A :
  x_min A < x_max A → y_min A < y_max A →
  ∃ q, iou A A = Ok q ∧ (q == 1)%Q.
Proof.
  intros Hx Hy. eexists. split; [apply iou_value|].
  rewrite inter_area_self by done.
  assert (0 < area A) as Hpos by (unfold area; apply Z.mul_pos_pos; lia).
  destruct (Z.eqb_spec (area A) 0) as [|_]; [lia|].
  replace (area A + area A - area A) with (area A) by lia.
  apply Qmult_inv_r. intros E.
  change 0%Q with (inject_Z 0) in E. rewrite inject_Z_injective in E. lia.
Qed.

Lemma iou_self_witness :
  ∃ q, iou (0, 0, 10, 10) (0, 0, 10, 10) = Ok q ∧ (q == 1)%Q.
Proof. apply (iou_self (0, 0, 10, 10)); box_unfold; lia. Defined.

Lemma degenerate_abs A :
  degenerate A ↔
  (Z.abs (x_min A - x_max A) =? 0) || (Z.abs (y_min A - y_max A) =? 0) = true.
Proof.
  unfold degenerate. rewrite orb_true_iff, !Z.eqb_eq. lia.
Qed.

Lemma inter_area_le_ordered A B :
  ordered A → inter_area A B ≤ area A.
Proof.
  intros [Hx Hy].
  destruct (decide (inter_area A B = 0)) as [E|Hne].
  - rewrite E. unfold area. apply Z.mul_nonneg_nonneg; lia.
  - by apply inter_area_pos_le.
Qed.

(** C8. [rel_intersection] returns 0 whenever its first box has zero width
    or zero height, whatever the second box; otherwise, for boxes with
    x_min ≤ x_max and y_min ≤ y_max, it returns the clamped intersection
    area divided by the area of the first box, a value between 0 and 1. *)
Theorem rel_intersection_spec A B :
  (degenerate A → rel_intersection A B = Ok 0%Q) ∧
  (¬ degenerate A → ordered A → ordered B →
   ∃ q, rel_intersection A B = Ok q ∧
        (q == relative_overlap_spec A B)%Q ∧ (0 <= q <= 1)%Q).
Proof.
  split.
  - intros Hd. apply degenerate_abs in Hd.
    unfold rel_intersection. by rewrite Hd.
  - intros Hnd HA HB.
    assert (0 < area A) as Hpos.
    { unfold area. destruct HA. unfold degenerate in Hnd.
      apply Z.mul_pos_pos; lia. }
    assert (Z.abs (x_min A - x_max A) * Z.abs (y_min A - y_max A) = area A)
      as Habs
      by (unfold area; destruct HA;
          rewrite (Z.abs_neq (x_min A - x_max A)),
            (Z.abs_neq (y_min A - y_max A)) by lia; ring).
    exists (relative_overlap_spec A B). split; [|split; [done|]].
    + unfold rel_intersection.
      destruct (_ || _) eqn:Hd; [by apply degenerate_abs in Hd|].
      rewrite Habs. fold (inter_area A B). apply truediv_Ok. lia.
    + pose proof (inter_area_nonneg A B) as H0.
      pose proof (inter_area_le_ordered A B HA) as H1.
      assert (0 < inject_Z (area A))%Q as HposQ
        by (change 0%Q with (inject_Z 0); by rewrite <- Zlt_Qlt).
      unfold relative_overlap_spec. split.
      * apply Qle_shift_div_l; [done|]. rewrite Qmult_0_l.
        change 0%Q with (inject_Z 0). by rewrite <- Zle_Qle.
      * apply Qle_shift_div_r; [done|]. rewrite Qmult_1_l.
        by rewrite <- Zle_Qle.
Qed.

Lemma rel_intersection_spec_witness :
  rel_intersection (3, 0, 3, 7) (0, 0, 10, 10) = Ok 0%Q ∧
  ∃ q, rel_intersection (1, 1, 5, 5) (0, 0, 4, 10) = Ok q ∧
       (q == relative_overlap_spec (1, 1, 5, 5)%Z (0, 0, 4, 10)%Z)%Q ∧
       (0 <= q <= 1)%Q.
Proof.
  split.
  - apply (rel_intersection_spec (3, 0, 3, 7) (0, 0, 10, 10)).
    left. reflexivity.
  - apply (rel_intersection_spec (1, 1, 5, 5) (0, 0, 4, 10)).
    + box_unfold. lia.
    + box_unfold. lia.
    + box_unfold. lia.
Defined.

End MetricClaims.

(** ** Bounding boxes *)

Section BBoxFacts.

Lemma min_from_nums (x : Z) (l : list coord) :
  forallb is_num l = true →
  min_from (Num x) l = Ok (Num (min_int x (map value l))).
Proof.
  revert x. induction l as [|[z|z] l IH]; intros x H; simpl in *; try done.
  unfold min_int. simpl.
  destruct (Z.ltb_spec z x); rewrite IH by done; unfold min_int;
    do 3 f_equal; lia.
Qed.

Lemma max_from_nums (x : Z) (l : list coord) :
  forallb is_num l = true →
  max_from (Num x) l = Ok (Num (max_int x (map value l))).
Proof.
  revert x. induction l as [|[z|z] l IH]; intros x H; simpl in *; try done.
  unfold max_int, Z.gtb. simpl.
  destruct (Z.compare_spec z x); rewrite IH by done; unfold max_int;
    do 3 f_equal; lia.
Qed.

Lemma comprehension_parsed (f : point → coord) (m : polygon) :
  forallb (fun pt => is_parsed (f pt)) m = true →
  comprehension (fun pt => parsedValue (f pt)) m
  = Ok (map (fun pt => value (f pt)) m).
Proof.
  induction m as [|pt m IH]; intros H; simpl in *; [done|].
  apply andb_true_iff in H as [H1 H2]. rewrite IH by done.
  by destruct (f pt).
Qed.

Lemma forallb_through_map {A B : Type} (f : B → bool) (g : A → B)
    (l : list A) :
  forallb f (map g l) = forallb (fun x => f (g x)) l.
Proof. induction l as [|x l IH]; simpl; [done|]. by rewrite IH. Qed.

Lemma forallb_and {A : Type} (f g : A → bool) (l : list A) :
  forallb (fun x => f x && g x) l = forallb f l && forallb g l.
Proof.
  induction l as [|x l IH]; simpl; [done|]. rewrite IH.
  destruct (f x), (g x), (forallb f l); done.
Qed.

(** On a non-empty polygon in one representation [extract_bbox] returns
    the bounding box of the data model. *)
Lemma extract_bbox_uniform (m : polygon) :
  m ≠ [] → uniform m = true → extract_bbox m = Ok (box_val (bounds m)).
Proof.
  destruct m as [|[c1 c2] m]; [done|]. intros _ H.
  unfold uniform in H. apply orb_true_iff in H as [H|H];
    rewrite forallb_and in H; apply andb_true_iff in H as [Hx Hy];
    simpl in Hx, Hy;
    apply andb_true_iff in Hx as [Hc1 Hx]; apply andb_true_iff in Hy as [Hc2 Hy];
    destruct c1 as [x|x]; try done; destruct c2 as [y|y]; try done.
  - unfold extract_bbox. cbn [map fst snd py_min py_max].
    assert (forallb is_num (map fst m) = true) as Hx'
      by (rewrite forallb_through_map; exact Hx).
    assert (forallb is_num (map snd m) = true) as Hy'
      by (rewrite forallb_through_map; exact Hy).
    rewrite !min_from_nums, !max_from_nums by done. cbn [mbind res_bind].
    by rewrite !map_map.
  - unfold extract_bbox.
    rewrite (comprehension_parsed fst), (comprehension_parsed snd);
      simpl; done.
Qed.

Lemma ints_box_val (b : bbox) : ints (box_val b) = Ok b.
Proof. by destruct b as [[[? ?] ?] ?]. Qed.

Lemma on_boxes_box_val (f : bbox → bbox → res Q) (a b : bbox) :
  on_boxes f (box_val a) (box_val b) = f a b.
Proof. unfold on_boxes. by rewrite !ints_box_val. Qed.

Lemma extract_bbox_of_truthy (m : option polygon) :
  truthy m = true → well_formed m →
  extract_bbox_of m = Ok (box_val (box_of m)).
Proof.
  destruct m as [[|pt p]|]; try done. intros _ Hwf.
  apply extract_bbox_uniform; [done | by apply Hwf].
Qed.

End BBoxFacts.

(** ** Ordered dicts and pairs *)

Section DictFacts.

Context {D : Type} (key : D → Z) (geom : D → option polygon).

Lemma setitem_fresh {V : Type} (k : Z) (v : V) (d : odict V) :
  k ∉ d.*1 → setitem k v d = d ++ [(k, v)].
Proof.
  induction d as [|[k' v'] d IH]; intros Hk; simpl; [done|].
  rewrite fmap_cons in Hk. apply not_elem_of_cons in Hk as [Hne Hk].
  destruct (decide (k = k')); [done|]. by rewrite IH.
Qed.

Lemma bbox_dict_from (acc : odict vbox) (ds : list D) :
  NoDup (acc.*1 ++ (key <$> filter (fun d => truthy (geom d)) ds)) →
  Forall (fun d => well_formed (geom d)) ds →
  for_each
    (fun acc d =>
       if truthy (geom d)
       then b ← extract_bbox_of (geom d); Ok (setitem (key d) b acc)
       else Ok acc)
    acc ds
  = Ok (acc ++ (entry key geom <$> filter (fun d => truthy (geom d)) ds)).
Proof.
  revert acc. induction ds as [|d ds IH]; intros acc Hnd Hwf; simpl.
  - by rewrite app_nil_r.
  - apply Forall_cons in Hwf as [Hd Hwf].
    destruct (truthy (geom d)) eqn:Ht.
    + rewrite filter_cons_True in Hnd |- * by (by rewrite Ht).
      rewrite extract_bbox_of_truthy by done. simpl.
      rewrite fmap_cons in Hnd.
      rewrite setitem_fresh.
      2:{ apply NoDup_app in Hnd as (_ & Hdis & _). intros Hin.
          apply (Hdis _ Hin). left. }
      rewrite IH; [| |done].
      2:{ rewrite fmap_app, <- app_assoc. exact Hnd. }
      by rewrite <- app_assoc.
    + rewrite filter_cons_False in Hnd |- * by (rewrite Ht; intros []).
      by apply IH.
Qed.

(** With distinct identifiers the dict lists the entries with a usable
    mask in the order of the input. *)
Lemma bbox_dict_unique (ds : list D) :
  NoDup (key <$> filter (fun d => truthy (geom d)) ds) →
  Forall (fun d => well_formed (geom d)) ds →
  bbox_dict key geom ds
  = Ok (entry key geom <$> filter (fun d => truthy (geom d)) ds).
Proof. intros Hnd Hwf. unfold bbox_dict. by rewrite bbox_dict_from. Qed.

End DictFacts.

Section PairFacts.

Context {A : Type}.

Lemma elem_of_combinations2 (l : list A) (a b : A) :
  (a, b) ∈ combinations2 l ↔
  ∃ i j : nat, (i < j)%nat ∧ l !! i = Some a ∧ l !! j = Some b.
Proof.
  induction l as [|x l IH]; simpl.
  - split; [by intros ?%elem_of_nil | by intros (i & j & _ & ? & _)].
  - rewrite elem_of_app, list_elem_of_fmap, IH. split.
    + intros [(y & [= -> ->] & Hy)|(i & j & Hij & Hi & Hj)].
      * apply list_elem_of_lookup in Hy as [j Hj].
        exists 0%nat, (S j). split; [lia|done].
      * exists (S i), (S j). split; [lia|done].
    + intros (i & j & Hij & Hi & Hj). destruct j as [|j]; [lia|].
      destruct i as [|i].
      * left. simpl in Hi, Hj. injection Hi as ->.
        exists b. split; [done|]. by eapply list_elem_of_lookup_2.
      * right. exists i, j. split; [lia|done].
Qed.

Lemma combinations2_fmap {B : Type} (f : A → B) (l : list A) :
  combinations2 (f <$> l) = prod_map f f <$> combinations2 l.
Proof.
  induction l as [|x l IH]; csimpl; [done|].
  rewrite fmap_app, IH, <- !list_fmap_compose. done.
Qed.

End PairFacts.

(** ** The loop of [detect_duplicates_to_delete] *)

Section DedupFacts.

Lemma pair_key_member (x y u v : Z) :
  pair_key x y = pair_key u v → (x = u ∨ x = v) ∧ (y = u ∨ y = v).
Proof.
  unfold pair_key. destruct (y <? x), (v <? u); intros [= -> ->]; auto.
Qed.

Lemma pair_key_inj_r (x y y' : Z) :
  pair_key x y = pair_key x y' → y = y'.
Proof.
  unfold pair_key. destruct (y <? x), (y' <? x); intros [=]; congruence.
Qed.

Lemma pair_id_row (a : Line) (l : list Line) :
  NoDup (pk <$> l) → NoDup (pair_id <$> (pair a <$> l)).
Proof.
  induction l as [|b l IH]; csimpl; intros Hnd; [constructor|].
  apply NoDup_cons in Hnd as [Hb Hnd]. apply NoDup_cons. split; [|auto].
  intros Hin. apply Hb.
  apply list_elem_of_fmap in Hin as ([a' b'] & Heq & Hin).
  apply list_elem_of_fmap in Hin as (b'' & [= <- <-] & Hin).
  apply pair_key_inj_r in Heq. simpl in Heq. rewrite Heq.
  apply list_elem_of_fmap. eauto.
Qed.

Lemma combinations2_members {A : Type} (l : list A) (a b : A) :
  (a, b) ∈ combinations2 l → a ∈ l ∧ b ∈ l.
Proof.
  intros (i & j & _ & Hi & Hj)%elem_of_combinations2.
  split; by eapply list_elem_of_lookup_2.
Qed.

(** Distinct identifiers give every enumerated pair a key of its own, so
    the test on [checked_pairs] never skips a pair. *)
Lemma pair_id_NoDup (l : list Line) :
  NoDup (pk <$> l) → NoDup (pair_id <$> combinations2 l).
Proof.
  induction l as [|a l IH]; csimpl; intros Hnd; [constructor|].
  apply NoDup_cons in Hnd as [Ha Hnd].
  rewrite fmap_app. apply NoDup_app. split; [by apply pair_id_row|].
  split; [|auto].
  intros k Hrow Hrest. apply Ha.
  apply list_elem_of_fmap in Hrow as ([a' b'] & -> & Hin).
  apply list_elem_of_fmap in Hin as (b'' & [= <- <-] & Hin).
  apply list_elem_of_fmap in Hrest as ([u v] & Heq & Huv).
  apply combinations2_members in Huv as [Hu Hv].
  unfold pair_id in Heq. simpl in Heq.
  apply pair_key_member in Heq as [[E|E] _]; rewrite E;
    apply list_elem_of_fmap; eauto.
Qed.

Lemma conflict_Qltb (a b : Line) (q : Q) :
  iou (box_of (mask a)) (box_of (mask b)) = Ok q →
  Qltb (1 # 2) q = true ↔ conflict a b.
Proof.
  intros Hq. rewrite Qltb_lt. unfold conflict. rewrite Hq. split.
  - eauto.
  - by intros (q' & [= <-] & ?).
Qed.

Lemma conflict_sym (a b : Line) : conflict a b → conflict b a.
Proof.
  unfold conflict. rewrite !iou_value, inter_area_comm.
  by rewrite (Z.add_comm (area (box_of (mask a)))).
Qed.

(** One turn of the loop on a pair not met before. *)
Lemma visit_pair_fresh (a b : Line) (S : gset Z) (C : gset (Z * Z)) :
  pair_id (a, b) ∉ C →
  ∃ S', visit_pair (S, C) (entry pk mask a, entry pk mask b)
        = Ok (S', {[pair_id (a, b)]} ∪ C) ∧
        ∀ x, x ∈ S' ↔ x ∈ S ∨ (conflict a b ∧ x = nominee a b).
Proof.
  intros Hfresh. unfold visit_pair, entry.
  rewrite decide_False by exact Hfresh.
  rewrite on_boxes_box_val.
  pose proof (iou_value (box_of (mask a)) (box_of (mask b))) as Hq.
  set (q := if inter_area _ _ =? 0 then _ else _) in Hq.
  rewrite Hq. cbn [mbind res_bind].
  pose proof (conflict_Qltb a b q Hq) as Hc.
  destruct (Qltb (1 # 2) q).
  - eexists. split; [reflexivity|]. intros x.
    rewrite elem_of_union, elem_of_singleton. unfold nominee.
    cbn [box_val fst snd x_min]. split.
    + intros [->|?]; [right|by left]. split; [by apply Hc|done].
    + intros [?|[_ ->]]; [by right|by left].
  - exists S. split; [reflexivity|]. intros x. split; [by left|].
    intros [?|[Hab _]]; [done|]. by apply Hc in Hab.
Qed.

Lemma loop_pairs (ps : list (Line * Line)) (S : gset Z) (C : gset (Z * Z)) :
  NoDup (pair_id <$> ps) →
  (∀ p, p ∈ ps → pair_id p ∉ C) →
  ∃ S' C',
    for_each visit_pair (S, C)
      (prod_map (entry pk mask) (entry pk mask) <$> ps) = Ok (S', C') ∧
    ∀ x, x ∈ S' ↔ x ∈ S ∨ nominated ps x.
Proof.
  revert S C. induction ps as [|[a b] ps IH]; intros S C Hnd Hfresh;
    rewrite ?fmap_cons; cbn [for_each prod_map fst snd].
  - exists S, C. split; [done|]. intros x. split; [by left|].
    intros [?|(a & b & []%elem_of_nil & _)]. done.
  - rewrite fmap_cons in Hnd. apply NoDup_cons in Hnd as [Hab Hnd].
    destruct (visit_pair_fresh a b S C) as (S1 & -> & HS1).
    { apply Hfresh. left. }
    cbn [mbind res_bind].
    destruct (IH S1 ({[pair_id (a, b)]} ∪ C) Hnd) as (S' & C' & -> & HS').
    { intros p Hp. rewrite elem_of_union, elem_of_singleton.
      intros [Heq|HC].
      - apply Hab. rewrite <- Heq. apply list_elem_of_fmap. eauto.
      - apply (Hfresh p); [by right|done]. }
    exists S', C'. split; [done|]. intros x. rewrite HS', HS1.
    unfold nominated. split.
    + intros [[?|[Hc ->]]|(a' & b' & Hin & Hc & ->)]; [by left|right..].
      * exists a, b. split; [left|done].
      * exists a', b'. split; [by right|done].
    + intros [?|(a' & b' & Hin & Hc & ->)]; [by left; left|].
      apply elem_of_cons in Hin as [[= -> ->]|Hin].
      * left. by right.
      * right. eauto.
Qed.

(** What [detect_duplicates_to_delete] returns on lines with distinct
    identifiers and well-formed masks: the nominees of the conflicting
    pairs of lines with a usable mask, each once. *)
Lemma detect_duplicates_nominated (lines : list Line) :
  NoDup (pk <$> masked lines) →
  Forall (fun l => well_formed (mask l)) lines →
  ∃ out, detect_duplicates_to_delete lines = Ok out ∧ NoDup out ∧
         ∀ x, x ∈ out ↔ nominated (combinations2 (masked lines)) x.
Proof.
  intros Hnd Hwf. unfold detect_duplicates_to_delete.
  rewrite (bbox_dict_unique pk mask lines Hnd Hwf). cbn [mbind res_bind].
  fold (masked lines). rewrite combinations2_fmap.
  destruct (loop_pairs (combinations2 (masked lines)) ∅ ∅)
    as (S & C & -> & HS).
  { by apply pair_id_NoDup. }
  { intros p _. apply not_elem_of_empty. }
  cbn [mbind res_bind fst]. eexists. split; [reflexivity|].
  split; [apply NoDup_elements|]. intros x.
  rewrite elem_of_elements, HS. split; [|by right].
  intros [[]%not_elem_of_empty|?]. done.
Qed.

End DedupFacts.

(** ** Duplicate detection *)

Section DedupClaims.

Lemma lookup_pk_inj (ls : list Line) (i j : nat) (a b : Line) :
  NoDup (pk <$> ls) → ls !! i = Some a → ls !! j = Some b →
  pk a = pk b → i = j.
Proof.
  intros Hnd Hi Hj Heq.
  apply (NoDup_lookup (pk <$> ls) i j (pk a)); [done| |];
    rewrite list_lookup_fmap; [by rewrite Hi | by rewrite Hj, Heq].
Qed.

Lemma nominee_cases (a b : Line) :
  (x_min (box_of (mask a)) < x_min (box_of (mask b))
   ∧ nominee a b = pk a ∧ survivor a b = b) ∨
  (x_min (box_of (mask b)) ≤ x_min (box_of (mask a))
   ∧ nominee a b = pk b ∧ survivor a b = a).
Proof.
  unfold nominee, survivor.
  destruct (Z.ltb_spec (x_min (box_of (mask a))) (x_min (box_of (mask b))));
    auto.
Qed.

(** C3. On lines with distinct identifiers and well-formed masks, the
    deletion set is exactly what the pairs of lines with a non-empty mask
    whose [iou] exceeds 0.5 contribute: of such a pair, enumerated as
    [(a, b)], the member with the strictly smaller [x_min] is deleted,
    and [b] on equal [x_min]; nothing else is deleted, so a pair with
    [iou ≤ 0.5] contributes nothing. *)
Theorem duplicates_by_pair (lines : list Line) :
  NoDup (pk <$> masked lines) →
  Forall (fun l => well_formed (mask l)) lines →
  ∃ out, detect_duplicates_to_delete lines = Ok out ∧
    (∀ (i j : nat) a b,
       (i < j)%nat → masked lines !! i = Some a → masked lines !! j = Some b →
       conflict a b →
       (x_min (box_of (mask a)) < x_min (box_of (mask b)) → pk a ∈ out) ∧
       (x_min (box_of (mask b)) < x_min (box_of (mask a)) → pk b ∈ out) ∧
       (x_min (box_of (mask a)) = x_min (box_of (mask b)) → pk b ∈ out)) ∧
    (∀ x, x ∈ out →
       ∃ (i j : nat) a b,
         (i < j)%nat ∧ masked lines !! i = Some a ∧ masked lines !! j = Some b ∧
         conflict a b ∧ x = nominee a b).
Proof.
  intros Hnd Hwf.
  destruct (detect_duplicates_nominated lines Hnd Hwf) as (out & Hout & _ & Hmem).
  exists out. split; [done|]. split.
  - intros i j a b Hij Hi Hj Hc.
    assert (nominee a b ∈ out) as Hn.
    { apply Hmem. exists a, b. split; [|done].
      apply elem_of_combinations2. eauto. }
    destruct (nominee_cases a b) as [(? & E & _)|(? & E & _)];
      rewrite E in Hn; repeat split; intros; (done || lia).
  - intros x (a & b & Hin & Hc & ->)%Hmem.
    apply elem_of_combinations2 in Hin as (i & j & ? & ? & ?).
    exists i, j, a, b. done.
Qed.

Lemma three_lines_distinct : NoDup (pk <$> masked three_lines).
Proof. compute_done. Defined.

Lemma three_lines_well_formed :
  Forall (fun l => well_formed (mask l)) three_lines.
Proof. repeat constructor; intros p [= <-]; reflexivity. Defined.

Lemma duplicates_by_pair_witness :
  ∃ out, detect_duplicates_to_delete three_lines = Ok out ∧
    (∀ (i j : nat) a b,
       (i < j)%nat → masked three_lines !! i = Some a →
       masked three_lines !! j = Some b →
       conflict a b →
       (x_min (box_of (mask a)) < x_min (box_of (mask b)) → pk a ∈ out) ∧
       (x_min (box_of (mask b)) < x_min (box_of (mask a)) → pk b ∈ out) ∧
       (x_min (box_of (mask a)) = x_min (box_of (mask b)) → pk b ∈ out)) ∧
    (∀ x, x ∈ out →
       ∃ (i j : nat) a b,
         (i < j)%nat ∧ masked three_lines !! i = Some a ∧
         masked three_lines !! j = Some b ∧
         conflict a b ∧ x = nominee a b).
Proof.
  apply (duplicates_by_pair three_lines).
  - exact three_lines_distinct.
  - exact three_lines_well_formed.
Defined.

(** C1, as stated, fails: on three lines that overlap one another by more
    than a half, lines 1 and 2 are in conflict and both are returned. *)
Lemma conflicting_pair_both_deleted :
  conflict line_a line_b ∧
  ∃ out, detect_duplicates_to_delete three_lines = Ok out ∧
         pk line_a ∈ out ∧ pk line_b ∈ out.
Proof.
  split.
  - eexists. split; [apply iou_value|]. vm_compute. reflexivity.
  - exists [2; 1]. split; [vm_compute; reflexivity|].
    split; compute_done.
Qed.

(** C1, amended. On lines with distinct identifiers and well-formed masks,
    a conflicting pair always has its nominated member in the output, and
    its other member is in the output only when a third line is in
    conflict with that member and has an [x_min] at least as large. *)
Theorem conflicting_pair_resolution (lines : list Line) :
  NoDup (pk <$> masked lines) →
  Forall (fun l => well_formed (mask l)) lines →
  ∃ out, detect_duplicates_to_delete lines = Ok out ∧
    ∀ (i j : nat) a b,
      (i < j)%nat → masked lines !! i = Some a → masked lines !! j = Some b →
      conflict a b →
      nominee a b ∈ out ∧
      (pk (survivor a b) ∈ out →
       ∃ c, c ∈ masked lines ∧ pk c ≠ pk a ∧ pk c ≠ pk b ∧
            conflict (survivor a b) c ∧
            x_min (box_of (mask (survivor a b))) ≤ x_min (box_of (mask c))).
Proof.
  intros Hnd Hwf.
  destruct (detect_duplicates_nominated lines Hnd Hwf) as (out & Hout & _ & Hmem).
  exists out. split; [done|].
  intros i j a b Hij Hi Hj Hc. split.
  { apply Hmem. exists a, b. split; [|done].
    apply elem_of_combinations2. eauto. }
  intros (a' & b' & Hin & Hc' & Hs)%Hmem.
  apply elem_of_combinations2 in Hin as (i' & j' & Hij' & Hi' & Hj').
  assert (∀ (n m : nat) x y, masked lines !! n = Some x →
            masked lines !! m = Some y → pk x = pk y → n = m) as Hinj
    by (intros; by eapply lookup_pk_inj).
  assert (∀ (n : nat) x y, masked lines !! n = Some x →
            masked lines !! n = Some y → x = y) as Hfun by congruence.
  destruct (nominee_cases a b) as [(Hlt & _ & Es)|(Hle & _ & Es)];
    destruct (nominee_cases a' b') as [(Hlt' & En & _)|(Hle' & En & _)];
    rewrite Es in Hs |- *; rewrite En in Hs.
  - (* the survivor is [b], nominated as the first of [(b, b')] *)
    assert (j = i') as -> by eauto. assert (b = a') as -> by eauto.
    exists b'. repeat split; [by eapply list_elem_of_lookup_2| | | |lia].
    + intros E. assert (j' = i) by eauto. lia.
    + intros E. assert (j' = i') by eauto. lia.
    + done.
  - (* the survivor is [b], nominated as the second of [(a', b)] *)
    assert (j = j') as -> by eauto. assert (b = b') as -> by eauto.
    exists a'. repeat split; [by eapply list_elem_of_lookup_2| | | |lia].
    + intros E. assert (i' = i) as -> by eauto.
      assert (a' = a) as -> by eauto. lia.
    + intros E. assert (i' = j') by eauto. lia.
    + by apply conflict_sym.
  - (* the survivor is [a], nominated as the first of [(a, b')] *)
    assert (i = i') as -> by eauto. assert (a = a') as -> by eauto.
    exists b'. repeat split; [by eapply list_elem_of_lookup_2| | | |lia].
    + intros E. assert (j' = i') by eauto. lia.
    + intros E. assert (j' = j) as -> by eauto.
      assert (b' = b) as -> by eauto. lia.
    + done.
  - (* the survivor is [a], nominated as the second of [(a', a)] *)
    assert (i = j') as -> by eauto. assert (a = b') as -> by eauto.
    exists a'. repeat split; [by eapply list_elem_of_lookup_2| | | |lia].
    + intros E. assert (i' = j') by eauto. lia.
    + intros E. assert (i' = j) by eauto. lia.
    + by apply conflict_sym.
Qed.

Lemma conflicting_pair_resolution_witness :
  ∃ out, detect_duplicates_to_delete three_lines = Ok out ∧
    ∀ (i j : nat) a b,
      (i < j)%nat → masked three_lines !! i = Some a →
      masked three_lines !! j = Some b →
      conflict a b →
      nominee a b ∈ out ∧
      (pk (survivor a b) ∈ out →
       ∃ c, c ∈ masked three_lines ∧ pk c ≠ pk a ∧ pk c ≠ pk b ∧
            conflict (survivor a b) c ∧
            x_min (box_of (mask (survivor a b))) ≤ x_min (box_of (mask c))).
Proof.
  apply (conflicting_pair_resolution three_lines).
  - exact three_lines_distinct.
  - exact three_lines_well_formed.
Defined.

Lemma first_rightmost_exists (ls : list Line) :
  ls ≠ [] → ∃ i m, first_rightmost ls i m.
Proof.
  induction ls as [|x ls IH]; [done|]. intros _.
  destruct ls as [|y ls].
  - exists 0%nat, x. repeat split; [|intros; lia].
    intros l ->%list_elem_of_singleton. lia.
  - destruct IH as (i & m & Hi & Hmax & Hfirst); [done|].
    destruct (decide (x_min (box_of (mask m)) ≤ x_min (box_of (mask x))))
      as [Hle|Hgt].
    + exists 0%nat, x. repeat split; [|intros; lia].
      intros l [->|Hl]%elem_of_cons; [lia|]. specialize (Hmax l Hl). lia.
    + exists (S i), m. repeat split; [done| |].
      * intros l [->|Hl]%elem_of_cons; [lia|]. by apply Hmax.
      * intros [|j] l' Hj Hl.
        -- injection Hl as <-. lia.
        -- apply (Hfirst j); [lia|done].
Qed.

(** C9. On a list of lines with distinct identifiers and well-formed masks,
    at least one of which has a non-empty mask, the returned identifiers
    all belong to lines with a non-empty mask, and the first of the lines
    whose box has the greatest [x_min] is not among them: the output is a
    strict subset and a line survives. *)
Theorem rightmost_line_survives (lines : list Line) :
  NoDup (pk <$> masked lines) →
  Forall (fun l => well_formed (mask l)) lines →
  masked lines ≠ [] →
  ∃ out, detect_duplicates_to_delete lines = Ok out ∧
    (∀ x, x ∈ out → x ∈ pk <$> masked lines) ∧
    (∃ i m, first_rightmost (masked lines) i m) ∧
    (∀ i m, first_rightmost (masked lines) i m →
            pk m ∈ pk <$> masked lines ∧ pk m ∉ out).
Proof.
  intros Hnd Hwf Hne.
  destruct (detect_duplicates_nominated lines Hnd Hwf) as (out & Hout & _ & Hmem).
  exists out. split; [done|]. split; [|split].
  - intros x (a & b & Hin & _ & ->)%Hmem.
    apply combinations2_members in Hin as [Ha Hb].
    destruct (nominee_cases a b) as [(_ & -> & _)|(_ & -> & _)];
      by apply list_elem_of_fmap_2.
  - by apply first_rightmost_exists.
  - intros i m (Hi & Hmax & Hfirst). split.
    { apply list_elem_of_fmap_2. by eapply list_elem_of_lookup_2. }
    intros (a & b & Hin & _ & Hn)%Hmem.
    apply elem_of_combinations2 in Hin as (i' & j' & Hij' & Hi' & Hj').
    destruct (nominee_cases a b) as [(Hlt & En & _)|(Hle & En & _)];
      rewrite En in Hn.
    + assert (i = i') as -> by (by eapply lookup_pk_inj).
      assert (m = a) as -> by congruence.
      assert (b ∈ masked lines) as Hb by (by eapply list_elem_of_lookup_2).
      specialize (Hmax b Hb). lia.
    + assert (i = j') as -> by (by eapply lookup_pk_inj).
      assert (m = b) as -> by congruence.
      specialize (Hfirst i' a Hij' Hi'). lia.
Qed.

Lemma rightmost_line_survives_witness :
  ∃ out, detect_duplicates_to_delete three_lines = Ok out ∧
    (∀ x, x ∈ out → x ∈ pk <$> masked three_lines) ∧
    (∃ i m, first_rightmost (masked three_lines) i m) ∧
    (∀ i m, first_rightmost (masked three_lines) i m →
            pk m ∈ pk <$> masked three_lines ∧ pk m ∉ out).
Proof.
  apply (rightmost_line_survives three_lines).
  - exact three_lines_distinct.
  - exact three_lines_well_formed.
  - vm_compute. discriminate.
Defined.

(** A line without a usable mask is never returned (the half of C2 that
    concerns duplicate detection). *)
Lemma maskless_line_not_deleted (lines : list Line) (l : Line) :
  NoDup (pk <$> lines) →
  Forall (fun l => well_formed (mask l)) lines →
  l ∈ lines → truthy (mask l) = false →
  ∃ out, detect_duplicates_to_delete lines = Ok out ∧ pk l ∉ out.
Proof.
  intros Hnd Hwf Hl Hmask.
  assert (NoDup (pk <$> masked lines)) as Hnd'.
  { eapply sublist_NoDup; [exact Hnd|].
    apply fmap_sublist, sublist_filter. }
  destruct (detect_duplicates_nominated lines Hnd' Hwf)
    as (out & Hout & _ & Hmem).
  exists out. split; [done|].
  intros (a & b & Hin & _ & Hn)%Hmem.
  apply combinations2_members in Hin as [Ha Hb].
  assert (∀ c, c ∈ masked lines → pk l ≠ pk c) as Hother.
  { intros c Hc%list_elem_of_filter E. destruct Hc as [Hc1 Hc2].
    apply list_elem_of_lookup in Hl as [i Hi].
    apply list_elem_of_lookup in Hc2 as [j Hj].
    assert (i = j) as -> by exact (lookup_pk_inj lines i j l c Hnd Hi Hj E).
    assert (l = c) as -> by congruence.
    rewrite Hmask in Hc1. done. }
  destruct (nominee_cases a b) as [(_ & En & _)|(_ & En & _)];
    rewrite En in Hn; [exact (Hother a Ha Hn) | exact (Hother b Hb Hn)].
Qed.

End DedupClaims.

(** ** The scan over the regions *)

Section ScanFacts.

Lemma rel_intersection_value (A : bbox) (r : Region) :
  rel_intersection A (box_of (box r)) = Ok (overlap A r).
Proof.
  unfold overlap, rel_intersection, truediv.
  destruct (_ || _) eqn:Hd; [done|].
  apply orb_false_iff in Hd as [Hw Hh].
  apply Z.eqb_neq in Hw, Hh.
  destruct (Z.eqb_spec (Z.abs (x_min A - x_max A) * Z.abs (y_min A - y_max A)) 0)
    as [E|_]; [|done].
  apply Z.mul_eq_0 in E. tauto.
Qed.

Lemma overlap_nonneg (A : bbox) (r : Region) : (0 <= overlap A r)%Q.
Proof.
  pose proof (rel_intersection_value A r) as H.
  unfold rel_intersection, truediv in H.
  destruct (_ || _); [by injection H as <-|].
  destruct (_ =? 0) eqn:E; [done|]. injection H as <-.
  apply Z.eqb_neq in E.
  apply Qle_shift_div_l.
  - change 0%Q with (inject_Z 0). rewrite <- Zlt_Qlt.
    assert (0 ≤ Z.abs (x_min A - x_max A) * Z.abs (y_min A - y_max A))
      by (apply Z.mul_nonneg_nonneg; lia). lia.
  - rewrite Qmult_0_l. change 0%Q with (inject_Z 0). rewrite <- Zle_Qle.
    apply Z.mul_nonneg_nonneg; lia.
Qed.

(** The scan reads nothing of a line but its mask. *)
Lemma scan_mask (a b : Line) (regs : odict vbox) :
  mask a = mask b → scan a regs = scan b regs.
Proof.
  intros E. unfold scan. generalize (-1, 0%Q).
  assert (∀ st item, scan_step a st item = scan_step b st item) as Hstep
    by (intros [bi bq] [idx zone]; unfold scan_step; by rewrite E).
  induction regs as [|item regs IH]; intros st; cbn [for_each]; [done|].
  rewrite Hstep. destruct (scan_step b st item); [apply IH|done].
Qed.

(** One turn of the scan for a usable line. *)
Lemma scan_step_usable (line : Line) (r : Region) (bi : Z) (bq : Q) :
  usable line →
  scan_step line (bi, bq) (entry rpk box r)
  = Ok (if Qltb bq (overlap (box_of (mask line)) r)
           && Qltb 0 (overlap (box_of (mask line)) r)
        then (rpk r, overlap (box_of (mask line)) r) else (bi, bq)).
Proof.
  intros [Ht Hwf]. unfold scan_step, entry.
  rewrite extract_bbox_of_truthy by done. cbn [mbind res_bind].
  rewrite on_boxes_box_val, rel_intersection_value. cbn [mbind res_bind].
  by destruct (_ && _).
Qed.

(** The scan from a running best [(bi, bq)] over the candidates [cands]:
    either no candidate beats [bq] and the state is unchanged, or the
    first candidate of greatest overlap wins. *)
Lemma scan_from (line : Line) (cands : list Region) (bi : Z) (bq : Q) :
  usable line → (0 <= bq)%Q →
  let lb := box_of (mask line) in
  ∃ st, for_each (scan_step line) (bi, bq) (entry rpk box <$> cands) = Ok st ∧
    ((st = (bi, bq) ∧ ∀ r, r ∈ cands → (overlap lb r <= bq)%Q) ∨
     (∃ i r, cands !! i = Some r ∧ st = (rpk r, overlap lb r) ∧
             (bq < overlap lb r)%Q ∧
             (∀ r', r' ∈ cands → (overlap lb r' <= overlap lb r)%Q) ∧
             (∀ j r', (j < i)%nat → cands !! j = Some r' →
                      (overlap lb r' < overlap lb r)%Q))).
Proof.
  intros Hu Hbq lb. revert bi bq Hbq.
  induction cands as [|r cands IH]; intros bi bq Hbq.
  - eexists. split; [reflexivity|]. left. split; [done|].
    by intros r ?%elem_of_nil.
  - rewrite fmap_cons. cbn [for_each]. rewrite scan_step_usable by done.
    cbn [mbind res_bind]. fold lb.
    pose proof (overlap_nonneg lb r) as Hq.
    destruct (Qltb bq (overlap lb r) && Qltb 0 (overlap lb r)) eqn:Hcmp.
    + apply andb_true_iff in Hcmp as [Hlt%Qltb_lt Hpos%Qltb_lt].
      destruct (IH (rpk r) (overlap lb r) Hq)
        as (st & Hst & [[-> Hall]|(i & r1 & Hi & -> & Hgt & Hall & Hfirst)]).
      * exists (rpk r, overlap lb r). split; [done|]. right.
        exists 0%nat, r. repeat split; [done| |intros; lia].
        intros r' [->|Hr']%elem_of_cons; [apply Qle_refl|by apply Hall].
      * eexists. split; [exact Hst|]. right.
        exists (S i), r1. repeat split; [done| | |].
        -- by eapply Qlt_trans.
        -- intros r' [->|Hr']%elem_of_cons; [by apply Qlt_le_weak|by apply Hall].
        -- intros [|j] r' Hj Hr'; [by injection Hr' as <-|].
           apply (Hfirst j); [lia|done].
    + assert (overlap lb r <= bq)%Q as Hle.
      { apply andb_false_iff in Hcmp as [Hge%Qltb_ge|Hge%Qltb_ge]; [done|].
        by eapply Qle_trans. }
      destruct (IH bi bq Hbq)
        as (st & Hst & [[-> Hall]|(i & r1 & Hi & -> & Hgt & Hall & Hfirst)]).
      * eexists. split; [exact Hst|]. left. split; [done|].
        intros r' [->|Hr']%elem_of_cons; [done|by apply Hall].
      * eexists. split; [exact Hst|]. right.
        exists (S i), r1. repeat split; [done|done| |].
        -- intros r' [->|Hr']%elem_of_cons; [|by apply Hall].
           apply Qlt_le_weak. by eapply Qle_lt_trans.
        -- intros [|j] r' Hj Hr'.
           ++ injection Hr' as <-. by eapply Qle_lt_trans.
           ++ apply (Hfirst j); [lia|done].
Qed.

(** The whole scan for a usable line. *)
Lemma scan_usable (line : Line) (cands : list Region) :
  usable line →
  let lb := box_of (mask line) in
  (scan line (entry rpk box <$> cands) = Ok (-1, 0%Q) ∧ no_overlap lb cands) ∨
  (∃ i r, best_region lb cands i r ∧
          scan line (entry rpk box <$> cands) = Ok (rpk r, overlap lb r)).
Proof.
  intros Hu lb. unfold scan.
  destruct (scan_from line cands (-1) 0%Q Hu (Qle_refl 0))
    as (st & -> & [[-> Hall]|(i & r & Hi & -> & Hgt & Hall & Hfirst)]).
  - by left.
  - right. exists i, r. done.
Qed.

End ScanFacts.

(** ** The loop of [detect_reassignment] *)

Section ReassignFacts.

Context (regs : odict vbox) (h0 : heap).

Lemma visit_line_unfold (h : heap) (out : list nat) (ref : nat) :
  visit_line regs (h, out) ref =
  best ← scan (h ref) regs;
  Ok (if update_due best.1 (h ref)
      then (<[ref := set_region (h ref) best.1]> h, out ++ [ref])
      else (h, out)).
Proof.
  unfold visit_line, update_due.
  destruct (scan (h ref) regs) as [best|]; [|done]. cbn [mbind res_bind].
  by destruct (_ && _).
Qed.

Lemma update_due_settled (l : Line) (r : Z) :
  update_due r (set_region l r) = false.
Proof.
  unfold update_due. cbn [region set_region].
  rewrite (bool_decide_eq_false_2 (Some r ≠ Some r)) by (intros H; by apply H).
  apply andb_false_r.
Qed.

Lemma loop_inv_initial : loop_inv regs h0 [] (h0, []).
Proof.
  repeat split; simpl; try done.
  - constructor.
  - by intros ref ?%elem_of_nil.
  - by intros ref ?%elem_of_nil.
Qed.

(** Under the invariant the heap differs from the initial one in region
    fields only. *)
Lemma loop_inv_mask (visited : list nat) (st : heap * list nat) (ref : nat) :
  loop_inv regs h0 visited st → mask (st.1 ref) = mask (h0 ref).
Proof.
  intros (_ & _ & Hin & Hout & _).
  destruct (decide (ref ∈ st.2)) as [H|H].
  - destruct (Hin ref H) as (best & _ & _ & ->). done.
  - by rewrite (Hout ref H).
Qed.

Lemma visit_line_inv (visited : list nat) (st st' : heap * list nat)
    (ref : nat) :
  loop_inv regs h0 visited st →
  visit_line regs st ref = Ok st' →
  loop_inv regs h0 (visited ++ [ref]) st'.
Proof.
  intros Hinv Hrun.
  pose proof (loop_inv_mask visited st ref Hinv) as Hmask.
  destruct st as [h out]. destruct Hinv as (Hnd & Hvis & Hin & Hout & Hdone).
  cbn [fst snd] in *.
  rewrite visit_line_unfold in Hrun.
  apply bind_Ok in Hrun as (best & Hscan & [= <-]).
  rewrite (scan_mask (h ref) (h0 ref) regs Hmask) in Hscan.
  destruct (decide (ref ∈ out)) as [Hmem|Hmem].
  - (* met before and rewritten then: nothing changes *)
    destruct (Hin ref Hmem) as (best' & Hscan' & Hdue & Href).
    assert (best' = best) as -> by congruence.
    rewrite Href, update_due_settled.
    repeat split; cbn [fst snd]; try done.
    + intros r Hr. apply elem_of_app. left. auto.
    + intros r [Hr| ->%list_elem_of_singleton]%elem_of_app; [auto|].
      exists best. done.
  - rewrite (Hout ref Hmem).
    destruct (update_due best.1 (h0 ref)) eqn:Hdue.
    + (* rewritten now *)
      repeat split; cbn [fst snd].
      * apply NoDup_app. repeat split; [done| |apply NoDup_singleton].
        intros r Hr ->%list_elem_of_singleton. done.
      * intros r [Hr| ->%list_elem_of_singleton]%elem_of_app;
          apply elem_of_app; [left; auto|right; by apply list_elem_of_singleton].
      * intros r [Hr| ->%list_elem_of_singleton]%elem_of_app.
        -- rewrite fn_lookup_insert_ne by (by intros ->). auto.
        -- exists best. by rewrite fn_lookup_insert.
      * intros r Hr. rewrite elem_of_app, list_elem_of_singleton in Hr.
        rewrite fn_lookup_insert_ne by (intros ->; tauto).
        apply Hout. tauto.
      * intros r [Hr| ->%list_elem_of_singleton]%elem_of_app.
        -- destruct (Hdone r Hr) as (b & Hb & Himp). exists b.
           split; [done|]. intros Hd. apply elem_of_app. left. auto.
        -- exists best. split; [done|]. intros _.
           apply elem_of_app. right. by apply list_elem_of_singleton.
    + (* left as it is *)
      repeat split; cbn [fst snd]; try done.
      * intros r Hr. apply elem_of_app. left. auto.
      * intros r [Hr| ->%list_elem_of_singleton]%elem_of_app; [auto|].
        exists best. split; [done|]. congruence.
Qed.

Lemma loop_inv_run (lines visited : list nat) (st st' : heap * list nat) :
  loop_inv regs h0 visited st →
  for_each (visit_line regs) st lines = Ok st' →
  loop_inv regs h0 (visited ++ lines) st'.
Proof.
  revert visited st. induction lines as [|ref lines IH];
    intros visited st Hinv Hrun; cbn [for_each] in Hrun.
  - injection Hrun as <-. by rewrite app_nil_r.
  - apply bind_Ok in Hrun as (st1 & Hstep & Hrest).
    rewrite (cons_middle ref visited lines), app_assoc.
    eapply IH; [|exact Hrest]. by eapply visit_line_inv.
Qed.

Lemma loop_total (lines visited : list nat) (st : heap * list nat) :
  loop_inv regs h0 visited st →
  (∀ ref, ref ∈ lines → ∃ best, scan (h0 ref) regs = Ok best) →
  ∃ st', for_each (visit_line regs) st lines = Ok st'.
Proof.
  revert visited st. induction lines as [|ref lines IH];
    intros visited st Hinv Hscan; cbn [for_each].
  - by eexists.
  - destruct (Hscan ref) as (best & Hbest); [left|].
    assert (∃ st1, visit_line regs st ref = Ok st1) as (st1 & Hst1).
    { pose proof (loop_inv_mask visited st ref Hinv) as Hmask.
      destruct st as [h out]. rewrite visit_line_unfold.
      rewrite (scan_mask (h ref) (h0 ref) regs Hmask), Hbest.
      by eexists. }
    rewrite Hst1. cbn [mbind res_bind].
    apply (IH (visited ++ [ref]) st1).
    + by eapply visit_line_inv.
    + intros r Hr. apply Hscan. by right.
Qed.

End ReassignFacts.

(** ** Region reassignment *)

Section ReassignClaims.

Lemma setitem_keys {V : Type} (k k' : Z) (v : V) (d : odict V) :
  k' ∈ (setitem k v d).*1 → k' = k ∨ k' ∈ d.*1.
Proof.
  induction d as [|[k1 v1] d IH]; simpl.
  - intros ->%list_elem_of_singleton. by left.
  - destruct (decide (k = k1)) as [->|Hne]; csimpl.
    + intros [->|H]%elem_of_cons; [by left|right; by right].
    + intros [->|H]%elem_of_cons; [right; left|].
      destruct (IH H) as [->|H']; [by left|right; by right].
Qed.

Lemma bbox_dict_keys {D : Type} (key : D → Z) (geom : D → option polygon)
    (ds : list D) (d : odict vbox) (k : Z) :
  bbox_dict key geom ds = Ok d → k ∈ d.*1 → k ∈ key <$> ds.
Proof.
  unfold bbox_dict.
  assert (∀ acc, for_each
            (fun acc d =>
               if truthy (geom d)
               then b ← extract_bbox_of (geom d); Ok (setitem (key d) b acc)
               else Ok acc) acc ds = Ok d →
          k ∈ d.*1 → k ∈ acc.*1 ∨ k ∈ key <$> ds) as Hgen.
  { induction ds as [|x ds IH]; intros acc Hrun Hk; cbn [for_each] in Hrun.
    - injection Hrun as <-. by left.
    - apply bind_Ok in Hrun as (acc' & Hstep & Hrest).
      destruct (IH acc' Hrest Hk) as [H|H]; [|right; by right].
      destruct (truthy (geom x)).
      + apply bind_Ok in Hstep as (b & _ & [= <-]).
        apply setitem_keys in H as [->|H]; [right; left|by left].
      + injection Hstep as <-. by left. }
  intros Hrun Hk. destruct (Hgen [] Hrun Hk) as [[]%elem_of_nil|H]. done.
Qed.

(** The identifier the scan returns is the one it started with or the key
    of a region box. *)
Lemma scan_step_idx (line : Line) (regs : odict vbox) (st st' : Z * Q) :
  for_each (scan_step line) st regs = Ok st' →
  st'.1 = st.1 ∨ st'.1 ∈ regs.*1.
Proof.
  revert st. induction regs as [|[idx zone] regs IH]; intros st Hrun;
    cbn [for_each] in Hrun.
  - injection Hrun as <-. by left.
  - apply bind_Ok in Hrun as (st1 & Hstep & Hrest).
    destruct (IH st1 Hrest) as [E|H]; [|right; by right].
    rewrite E. destruct st as [bi bq]. unfold scan_step in Hstep.
    apply bind_Ok in Hstep as (lb & _ & Hstep).
    apply bind_Ok in Hstep as (q & _ & Hstep).
    destruct (_ && _); injection Hstep as <-; [right; left|by left].
Qed.

(** C10. [detect_reassignment] touches nothing but the ["region"] key of
    the lines it returns: each returned reference is one of the caller's
    lines, now holding the same dict with ["region"] set to the identifier
    of one of the regions, different from what it held; every other dict
    of the heap is as it was. *)
Theorem reassignment_frame (lines : list nat) (regions : list Region)
    (h h' : heap) (out : list nat) :
  detect_reassignment lines regions h = Ok (h', out) →
  (∀ ref, ref ∈ out →
     ref ∈ lines ∧
     ∃ r, r ∈ rpk <$> regions ∧ region (h ref) ≠ Some r ∧
          region (h' ref) = Some r ∧ pk (h' ref) = pk (h ref) ∧
          mask (h' ref) = mask (h ref) ∧ others (h' ref) = others (h ref)) ∧
  (∀ ref, ref ∉ out → h' ref = h ref).
Proof.
  unfold detect_reassignment. intros Hrun.
  apply bind_Ok in Hrun as (regs & Hregs & Hloop).
  pose proof (loop_inv_run regs h lines [] (h, []) (h', out)
                (loop_inv_initial regs h) Hloop)
    as (_ & Hvis & Hin & Hout & _).
  cbn [fst snd app] in *. split; [|exact Hout].
  intros ref Href. split; [auto|].
  destruct (Hin ref Href) as ([r q] & Hscan & Hdue & ->).
  cbn [fst] in *. exists r.
  apply andb_true_iff in Hdue as [Hr%bool_decide_eq_true Hne%bool_decide_eq_true].
  repeat split; [|congruence].
  apply scan_step_idx in Hscan as [E|Hkey]; [done|].
  by eapply bbox_dict_keys.
Qed.

Lemma reassignment_frame_witness :
  ∃ h' out,
    detect_reassignment [0; 1]%nat [region_R1; region_R2] page_heap
    = Ok (h', out) ∧
    (∀ ref, ref ∈ out →
       ref ∈ [0; 1]%nat ∧
       ∃ r, r ∈ rpk <$> [region_R1; region_R2] ∧
            region (page_heap ref) ≠ Some r ∧
            region (h' ref) = Some r ∧ pk (h' ref) = pk (page_heap ref) ∧
            mask (h' ref) = mask (page_heap ref) ∧
            others (h' ref) = others (page_heap ref)) ∧
    (∀ ref, ref ∉ out → h' ref = page_heap ref).
Proof.
  exists (<[0%nat := set_region (page_heap 0%nat) 10]> page_heap), [0%nat].
  split; [vm_compute; reflexivity|].
  apply (reassignment_frame [0; 1]%nat [region_R1; region_R2]).
  vm_compute. reflexivity.
Defined.

(** A second pass over a heap that a first pass has brought to its final
    state changes and reports nothing. *)
Lemma second_pass_silent (regs : odict vbox) (h0 h' : heap)
    (visited out lines : list nat) :
  loop_inv regs h0 visited (h', out) →
  (∀ ref, ref ∈ lines → ref ∈ visited) →
  for_each (visit_line regs) (h', []) lines = Ok (h', []).
Proof.
  intros Hinv Hsub.
  induction lines as [|ref lines IH]; cbn [for_each]; [done|].
  pose proof (loop_inv_mask regs h0 visited (h', out) ref Hinv) as Hmask.
  destruct Hinv as (_ & _ & Hin & Hout & Hdone). cbn [fst snd] in *.
  destruct (Hdone ref) as (best & Hscan & Himp); [apply Hsub; left|].
  rewrite visit_line_unfold, (scan_mask (h' ref) (h0 ref) regs Hmask), Hscan.
  cbn [mbind res_bind].
  assert (update_due best.1 (h' ref) = false) as ->.
  { destruct (decide (ref ∈ out)) as [Hmem|Hmem].
    - destruct (Hin ref Hmem) as (best' & Hscan' & _ & ->).
      assert (best' = best) as -> by congruence.
      apply update_due_settled.
    - rewrite (Hout ref Hmem).
      destruct (update_due best.1 (h0 ref)); [|done].
      destruct Hmem. by apply Himp. }
  apply IH. intros r Hr. apply Hsub. by right.
Qed.

(** C5. Region assignment is idempotent: when a run of
    [detect_reassignment] returns, having rewritten the lines in place, a
    second run on the same lines and regions returns the empty list and
    leaves the heap as the first run left it. *)
Theorem reassignment_idempotent (lines : list nat) (regions : list Region)
    (h h' : heap) (out : list nat) :
  detect_reassignment lines regions h = Ok (h', out) →
  detect_reassignment lines regions h' = Ok (h', []).
Proof.
  unfold detect_reassignment. intros Hrun.
  apply bind_Ok in Hrun as (regs & Hregs & Hloop).
  rewrite Hregs. cbn [mbind res_bind].
  apply (second_pass_silent regs h h' ([] ++ lines) out lines); [|done].
  by apply (loop_inv_run regs h lines [] (h, []) (h', out)
              (loop_inv_initial regs h)).
Qed.

Lemma reassignment_idempotent_witness :
  detect_reassignment [0; 1]%nat [region_R1; region_R2]
    (<[0%nat := set_region (page_heap 0%nat) 10]> page_heap)
  = Ok (<[0%nat := set_region (page_heap 0%nat) 10]> page_heap, []).
Proof.
  apply (reassignment_idempotent [0; 1]%nat [region_R1; region_R2]
           page_heap _ [0%nat]).
  vm_compute. reflexivity.
Defined.

(** C2. A line with an empty mask among valid lines makes
    [detect_reassignment] raise as soon as one region has a box: the line's
    mask is handed to [extract_bbox] without the test that
    [detect_duplicates_to_delete] applies to lines and that
    [detect_reassignment] itself applies to regions. A null mask raises
    as well. *)
Theorem reassignment_raises_on_empty_mask :
  detect_reassignment [0; 1]%nat [region_R1; region_R2] heap_with_empty_mask
  = Raise IndexError ∧
  detect_reassignment [0]%nat [region_R1] (heap_of [mk_line 2 None None])
  = Raise TypeError.
Proof. split; vm_compute; reflexivity. Qed.

(** C4. On a page where one line has an empty mask no line is
    reassigned.  The first line below has a well-formed mask, [region_R1]
    is its best region and is not the region it holds, and the regions
    have distinct identifiers, none of them [-1]: the claim has it
    returned with that region, and so it is when the call is made on that
    line alone.  With the second line, whose mask is empty, in the list,
    the call raises and returns nothing. *)
Theorem reassignment_loses_best_region :
  usable (heap_with_empty_mask 0%nat) ∧
  best_region (box_of (mask (heap_with_empty_mask 0%nat)))
    (candidates [region_R1; region_R2]) 0 region_R1 ∧
  region (heap_with_empty_mask 0%nat) ≠ Some (rpk region_R1) ∧
  detect_reassignment [0]%nat [region_R1; region_R2] heap_with_empty_mask
  = Ok (<[0%nat := set_region (heap_with_empty_mask 0%nat) 10]>
          heap_with_empty_mask, [0%nat]) ∧
  detect_reassignment [0; 1]%nat [region_R1; region_R2] heap_with_empty_mask
  = Raise IndexError.
Proof.
  split; [split; [reflexivity|intros p [= <-]; reflexivity]|].
  split; [|split; [done|split; vm_compute; reflexivity]].
  repeat split.
  - intros r' Hr. vm_compute in Hr.
    apply elem_of_cons in Hr as [->|Hr]; [apply Qle_refl|].
    apply list_elem_of_singleton in Hr as ->. by vm_compute.
  - intros j r' Hj. lia.
Qed.

(** [-1], the value [best_idx] starts with, is read as "no region": a
    line whose best region has that identifier is not reported, although
    the region overlaps it and is not its current region. *)
Lemma best_region_minus_one_ignored :
  best_region (box_of (mask (page_heap 0%nat)))
    (candidates [region_minus_one]) 0 region_minus_one ∧
  region (page_heap 0%nat) ≠ Some (rpk region_minus_one) ∧
  detect_reassignment [0]%nat [region_minus_one] page_heap
  = Ok (page_heap, []).
Proof.
  split; [|split; [done|vm_compute; reflexivity]].
  repeat split.
  - intros r' ->%list_elem_of_singleton. apply Qle_refl.
  - intros j r' Hj. lia.
Qed.

Lemma page_regions_distinct :
  NoDup (rpk <$> candidates [region_R1; region_R2]).
Proof. compute_done. Defined.

End ReassignClaims.

(** ** The scenarios of the specification *)

Section Scenarios.

(** A line inside the first of two regions is reassigned to it. *)
Example scenario_inside_R1 :
  rel_intersection (1, 1, 5, 5) (0, 0, 10, 10) = Ok (16 / 16)%Q ∧
  rel_intersection (1, 1, 5, 5) (20, 20, 30, 30) = Ok (0 / 16)%Q ∧
  detect_reassignment [0; 1]%nat [region_R1; region_R2] page_heap
  = Ok (<[0%nat := set_region (page_heap 0%nat) 10]> page_heap, [0%nat]).
Proof. repeat split; vm_compute; reflexivity. Qed.

(** Two lines shifted by one unit: the one further left is deleted. *)
Example scenario_shifted_lines :
  iou (0, 0, 10, 10) (1, 0, 11, 10) = Ok (90 / 110)%Q ∧
  detect_duplicates_to_delete [line_a; line_b] = Ok [1].
Proof. split; vm_compute; reflexivity. Qed.

(** Two lines far apart: nothing is deleted. *)
Example scenario_disjoint_lines :
  iou (0, 0, 10, 10) (20, 20, 30, 30) = Ok 0%Q ∧
  detect_duplicates_to_delete
    [line_a; mk_line 4 (Some (rect 20 20 30 30)) None] = Ok [].
Proof. split; vm_compute; reflexivity. Qed.

(** On an exact tie of [x_min] the second line of the pair goes. *)
Example scenario_tie :
  detect_duplicates_to_delete
    [line_a; mk_line 5 (Some (rect 0 0 10 9)) None] = Ok [5].
Proof. vm_compute. reflexivity. Qed.

(** A line with an empty mask takes no part in duplicate detection. *)
Example scenario_empty_mask :
  detect_duplicates_to_delete
    [line_a; mk_line 6 (Some []) None; mk_line 7 None None; line_b]
  = Ok [1].
Proof. vm_compute. reflexivity. Qed.

(** Both representations of a point give the same box. *)
Example scenario_parsed_points :
  extract_bbox [(Parsed 3, Parsed 9); (Parsed 1, Parsed 12)]
  = extract_bbox [(Num 3, Num 9); (Num 1, Num 12)] ∧
  extract_bbox [(Num 3, Num 9); (Num 1, Num 12)]
  = Ok (Num 1, Num 9, Num 3, Num 12) ∧
  extract_bbox [(Num 3, Num 9); (Parsed 1, Num 12)] = Raise TypeError.
Proof. repeat split. Qed.

End Scenarios.

(** * Further properties *)

(** ** [extract_bbox] *)

Section ExtractFacts.

Lemma min_int_spec (x : Z) (xs : list Z) :
  min_int x xs ∈ x :: xs ∧ ∀ y, y ∈ x :: xs → min_int x xs ≤ y.
Proof.
  unfold min_int. revert x. induction xs as [|z xs IH]; intros x; simpl.
  - split; [left|]. intros y ->%list_elem_of_singleton. lia.
  - destruct (IH (Z.min x z)) as [Hin Hle]. split.
    + apply elem_of_cons in Hin as [E|Hin]; [|by right; right].
      rewrite E. destruct (Z.min_spec x z) as [[_ ->]|[_ ->]];
        [left|right; left].
    + intros y Hy.
      assert (foldl Z.min (Z.min x z) xs ≤ Z.min x z) as Hm
        by (apply Hle; left).
      apply elem_of_cons in Hy as [->|[->|Hy]%elem_of_cons]; [lia|lia|].
      apply Hle. by right.
Qed.

Lemma max_int_spec (x : Z) (xs : list Z) :
  max_int x xs ∈ x :: xs ∧ ∀ y, y ∈ x :: xs → y ≤ max_int x xs.
Proof.
  unfold max_int. revert x. induction xs as [|z xs IH]; intros x; simpl.
  - split; [left|]. intros y ->%list_elem_of_singleton. lia.
  - destruct (IH (Z.max x z)) as [Hin Hle]. split.
    + apply elem_of_cons in Hin as [E|Hin]; [|by right; right].
      rewrite E. destruct (Z.max_spec x z) as [[_ ->]|[_ ->]];
        [right; left|left].
    + intros y Hy.
      assert (Z.max x z ≤ foldl Z.max (Z.max x z) xs) as Hm
        by (apply Hle; left).
      apply elem_of_cons in Hy as [->|[->|Hy]%elem_of_cons]; [lia|lia|].
      apply Hle. by right.
Qed.

(** The four components of [bounds] as extrema over the points. *)
Lemma bounds_extrema (m : polygon) :
  m ≠ [] →
  (x_min (bounds m) ∈ map px m ∧ ∀ v, v ∈ map px m → x_min (bounds m) ≤ v) ∧
  (y_min (bounds m) ∈ map py m ∧ ∀ v, v ∈ map py m → y_min (bounds m) ≤ v) ∧
  (x_max (bounds m) ∈ map px m ∧ ∀ v, v ∈ map px m → v ≤ x_max (bounds m)) ∧
  (y_max (bounds m) ∈ map py m ∧ ∀ v, v ∈ map py m → v ≤ y_max (bounds m)).
Proof.
  destruct m as [|p m]; [done|]. intros _.
  unfold bounds, x_min, y_min, x_max, y_max. cbn [fst snd map].
  repeat split;
    first [apply min_int_spec | apply max_int_spec].
Qed.

Lemma elem_of_map_1 {A B : Type} (f : A → B) (l : list A) (y : B) :
  y ∈ map f l → ∃ x, x ∈ l ∧ f x = y.
Proof.
  intros (x & E & Hx)%list_elem_of_In%in_map_iff.
  exists x. by rewrite list_elem_of_In.
Qed.

Lemma elem_of_map_2 {A B : Type} (f : A → B) (l : list A) (x : A) :
  x ∈ l → f x ∈ map f l.
Proof. rewrite !list_elem_of_In. apply in_map. Qed.

(** X1. On a non-empty polygon in one representation [extract_bbox]
    returns four integers that form an ordered box, the box holds every
    point of the polygon, and each of its four sides passes through a
    point of the polygon. *)
Theorem extract_bbox_encloses (m : polygon) :
  m ≠ [] → uniform m = true →
  ∃ b, extract_bbox m = Ok (box_val b) ∧ ordered b ∧
    (∀ p, p ∈ m → x_min b ≤ px p ≤ x_max b ∧ y_min b ≤ py p ≤ y_max b) ∧
    (∃ p, p ∈ m ∧ px p = x_min b) ∧ (∃ p, p ∈ m ∧ py p = y_min b) ∧
    (∃ p, p ∈ m ∧ px p = x_max b) ∧ (∃ p, p ∈ m ∧ py p = y_max b).
Proof.
  intros Hne Hu. exists (bounds m).
  split; [by apply extract_bbox_uniform|].
  destruct (bounds_extrema m Hne)
    as ((Hx0 & Hx0le) & (Hy0 & Hy0le) & (Hx1 & Hx1le) & (Hy1 & Hy1le)).
  split; [|split].
  - split; [apply Hx1le, Hx0 | apply Hy1le, Hy0].
  - intros p Hp. repeat split;
      first [apply Hx0le | apply Hx1le | apply Hy0le | apply Hy1le];
      by apply elem_of_map_2.
  - repeat split; by apply elem_of_map_1.
Qed.

Lemma extract_bbox_encloses_witness :
  ∃ b, extract_bbox (rect 2 3 7 11) = Ok (box_val b) ∧ ordered b ∧
    (∀ p, p ∈ rect 2 3 7 11 →
          x_min b ≤ px p ≤ x_max b ∧ y_min b ≤ py p ≤ y_max b) ∧
    (∃ p, p ∈ rect 2 3 7 11 ∧ px p = x_min b) ∧
    (∃ p, p ∈ rect 2 3 7 11 ∧ py p = y_min b) ∧
    (∃ p, p ∈ rect 2 3 7 11 ∧ px p = x_max b) ∧
    (∃ p, p ∈ rect 2 3 7 11 ∧ py p = y_max b).
Proof. apply (extract_bbox_encloses (rect 2 3 7 11)); done. Defined.

Lemma bounds_ext (m m' : polygon) :
  map px m = map px m' → map py m = map py m' → bounds m = bounds m'.
Proof.
  destruct m as [|p m], m' as [|q m']; try done. simpl.
  intros [= Ex Exs] [= Ey Eys]. unfold bounds, px, py in *.
  by rewrite Ex, Exs, Ey, Eys.
Qed.

Lemma uniform_values (m : polygon) :
  uniform (wrapped m) = true ∧ uniform (unwrapped m) = true ∧
  bounds (wrapped m) = bounds m ∧ bounds (unwrapped m) = bounds m.
Proof.
  assert (∀ m, map px (wrapped m) = map px m ∧ map py (wrapped m) = map py m
               ∧ map px (unwrapped m) = map px m
               ∧ map py (unwrapped m) = map py m) as Hmaps.
  { intros m'. unfold wrapped, unwrapped. rewrite !map_map.
    repeat split; by apply map_ext. }
  repeat split.
  - unfold uniform. apply orb_true_iff. right.
    induction m as [|p m IH]; [done|]. simpl. exact IH.
  - unfold uniform. apply orb_true_iff. left.
    induction m as [|p m IH]; [done|]. simpl. exact IH.
  - destruct (Hmaps m) as (? & ? & _). by apply bounds_ext.
  - destruct (Hmaps m) as (_ & _ & ? & ?). by apply bounds_ext.
Qed.

(** X2. The representation of the coordinates does not matter: a
    non-empty polygon in one representation, the same polygon with every
    coordinate wrapped in [{"parsedValue": n}] and the same polygon with
    bare numbers all give the same box. *)
Theorem extract_bbox_representation (m : polygon) :
  m ≠ [] → uniform m = true →
  extract_bbox (wrapped m) = extract_bbox m ∧
  extract_bbox (unwrapped m) = extract_bbox m.
Proof.
  intros Hne Hu.
  destruct (uniform_values m) as (Hw & Hr & Ebw & Ebr).
  rewrite (extract_bbox_uniform m Hne Hu).
  rewrite (extract_bbox_uniform (wrapped m)), (extract_bbox_uniform (unwrapped m));
    [by rewrite Ebw, Ebr| | | |]; try done;
    by destruct m.
Qed.

Lemma extract_bbox_representation_witness :
  extract_bbox (wrapped (rect 2 3 7 11)) = extract_bbox (rect 2 3 7 11) ∧
  extract_bbox (unwrapped (rect 2 3 7 11)) = extract_bbox (rect 2 3 7 11).
Proof. apply (extract_bbox_representation (rect 2 3 7 11)); done. Defined.

Lemma min_from_raise (cur : coord) (l : list coord) :
  l ≠ [] → forallb is_num (cur :: l) = false →
  min_from cur l = Raise TypeError.
Proof.
  revert cur. induction l as [|x l IH]; [done|]. intros cur _ H.
  cbn [min_from]. destruct x as [x|x]; [|done].
  destruct cur as [c|c]; [|done]. cbn.
  destruct l as [|y l]; [done|].
  apply IH; [done|]. by destruct (x <? c).
Qed.

Lemma max_from_raise (cur : coord) (l : list coord) :
  l ≠ [] → forallb is_num (cur :: l) = false →
  max_from cur l = Raise TypeError.
Proof.
  revert cur. induction l as [|x l IH]; [done|]. intros cur _ H.
  cbn [max_from]. destruct x as [x|x]; [|done].
  destruct cur as [c|c]; [|done]. cbn.
  destruct l as [|y l]; [done|].
  apply IH; [done|]. by destruct (x >? c).
Qed.

Lemma comprehension_raise (f : point → coord) (m : polygon) :
  forallb (fun pt => is_parsed (f pt)) m = false →
  comprehension (fun pt => parsedValue (f pt)) m = Raise TypeError.
Proof.
  induction m as [|pt m IH]; [done|]. simpl.
  destruct (f pt) as [z|z]; [done|]. simpl. intros H.
  by rewrite IH.
Qed.

Lemma py_min_nums_or_raise (c : coord) (d : coord) (l : list coord) :
  if forallb is_num (c :: d :: l)
  then ∃ v, py_min (c :: d :: l) = Ok v
  else py_min (c :: d :: l) = Raise TypeError.
Proof.
  destruct (forallb is_num (c :: d :: l)) eqn:H.
  - destruct c as [x|x]; [|done]. cbn [py_min].
    rewrite min_from_nums by exact H. by eexists.
  - by apply min_from_raise.
Qed.

Lemma raw_branch_raise (c1 c2 d1 d2 : coord) (xs ys : list coord) :
  forallb is_num (c1 :: d1 :: xs) && forallb is_num (c2 :: d2 :: ys) = false →
  (a ← py_min (c1 :: d1 :: xs); b ← py_min (c2 :: d2 :: ys);
   c ← py_max (c1 :: d1 :: xs); d ← py_max (c2 :: d2 :: ys);
   Ok (a, b, c, d)) = Raise TypeError.
Proof.
  intros H.
  pose proof (py_min_nums_or_raise c1 d1 xs) as Hx.
  pose proof (py_min_nums_or_raise c2 d2 ys) as Hy.
  destruct (forallb is_num (c1 :: d1 :: xs)).
  - destruct Hx as [v ->]. cbn [mbind res_bind].
    destruct (forallb is_num (c2 :: d2 :: ys)); [done|]. by rewrite Hy.
  - by rewrite Hx.
Qed.

(** X3. [extract_bbox] raises [IndexError] on an empty polygon, and
    [TypeError] on every polygon of two points or more that mixes the two
    representations of a coordinate. *)
Theorem extract_bbox_errors (m : polygon) :
  extract_bbox [] = Raise IndexError ∧
  ((2 ≤ length m)%nat → uniform m = false →
   extract_bbox m = Raise TypeError).
Proof.
  split; [done|]. intros Hlen Hu.
  destruct m as [|[c1 c2] [|[d1 d2] m]]; [simpl in Hlen; lia..|].
  unfold uniform in Hu. apply orb_false_iff in Hu as [Hnum Hpar].
  rewrite forallb_and in Hnum, Hpar.
  destruct c1 as [x|x].
  - clear Hpar. unfold extract_bbox. cbv zeta.
    apply (raw_branch_raise (Num x) c2 d1 d2 (map fst m) (map snd m)).
    rewrite <- Hnum. cbn [forallb fst snd].
    by rewrite !forallb_through_map.
  - clear Hnum. unfold extract_bbox.
    destruct (forallb (fun pt : point => is_parsed pt.1)
                ((Parsed x, c2) :: (d1, d2) :: m)) eqn:Hxs.
    + rewrite (comprehension_parsed fst) by done. cbn [mbind res_bind].
      simpl in Hxs, Hpar. rewrite Hxs in Hpar.
      by rewrite (comprehension_raise snd) by exact Hpar.
    + by rewrite (comprehension_raise fst).
Qed.

Lemma extract_bbox_errors_witness :
  extract_bbox [] = Raise IndexError ∧
  extract_bbox [(Num 3, Num 9); (Parsed 1, Num 12)] = Raise TypeError.
Proof.
  split.
  - apply (extract_bbox_errors []).
  - apply (extract_bbox_errors [(Num 3, Num 9); (Parsed 1, Num 12)]).
    + simpl. lia.
    + reflexivity.
Defined.

Lemma forallb_Permutation {A : Type} (f : A → bool) (l l' : list A) :
  l ≡ₚ l' → forallb f l = forallb f l'.
Proof.
  induction 1 as [|x l l' _ IH|x y l|l l' l'' _ IH1 _ IH2]; simpl.
  - done.
  - by rewrite IH.
  - by destruct (f x), (f y).
  - by rewrite IH1.
Qed.

Lemma bbox_eq (a b : bbox) :
  x_min a = x_min b → y_min a = y_min b →
  x_max a = x_max b → y_max a = y_max b → a = b.
Proof.
  destruct a as [[[? ?] ?] ?], b as [[[? ?] ?] ?].
  unfold x_min, y_min, x_max, y_max. simpl. congruence.
Qed.

Lemma bounds_Permutation (m m' : polygon) :
  m ≡ₚ m' → m ≠ [] → bounds m' = bounds m.
Proof.
  intros Hp Hne.
  assert (m' ≠ []) as Hne' by (intros ->; by apply Permutation_nil_r in Hp).
  assert (∀ (f : point → Z) v, v ∈ map f m ↔ v ∈ map f m') as Hmem.
  { intros f v. split; intros (p & Hin & <-)%elem_of_map_1;
      apply elem_of_map_2; [by rewrite <- Hp | by rewrite Hp]. }
  destruct (bounds_extrema m Hne)
    as ((Hx0 & Hx0le) & (Hy0 & Hy0le) & (Hx1 & Hx1le) & (Hy1 & Hy1le)).
  destruct (bounds_extrema m' Hne')
    as ((Hx0' & Hx0le') & (Hy0' & Hy0le') & (Hx1' & Hx1le') & (Hy1' & Hy1le')).
  apply bbox_eq; apply Z.le_antisymm;
    first [ apply Hx0le', Hmem, Hx0 | apply Hx0le, Hmem, Hx0'
          | apply Hy0le', Hmem, Hy0 | apply Hy0le, Hmem, Hy0'
          | apply Hx1le, Hmem, Hx1' | apply Hx1le', Hmem, Hx1
          | apply Hy1le, Hmem, Hy1' | apply Hy1le', Hmem, Hy1 ].
Qed.

(** X4. The box does not depend on the order of the points: listing the
    points of a non-empty polygon in one representation in any other
    order gives the same result. *)
Theorem extract_bbox_permutation (m m' : polygon) :
  m ≡ₚ m' → m ≠ [] → uniform m = true →
  extract_bbox m' = extract_bbox m.
Proof.
  intros Hp Hne Hu.
  assert (m' ≠ []) as Hne' by (intros ->; by apply Permutation_nil_r in Hp).
  assert (uniform m' = true) as Hu'.
  { unfold uniform in *.
    by rewrite <- !(forallb_Permutation _ m m' Hp). }
  rewrite (extract_bbox_uniform m Hne Hu), (extract_bbox_uniform m' Hne' Hu').
  by rewrite (bounds_Permutation m m' Hp Hne).
Qed.

Lemma extract_bbox_permutation_witness :
  extract_bbox (reverse (rect 2 3 7 11)) = extract_bbox (rect 2 3 7 11).
Proof.
  apply (extract_bbox_permutation (rect 2 3 7 11)); [|done|done].
  symmetry. apply reverse_Permutation.
Defined.

End ExtractFacts.

(** ** The two metrics on arbitrary boxes *)

Section MetricExtras.

Implicit Types A B : bbox.

Lemma inject_Z_pos (z : Z) : 0 < z → (0 < inject_Z z)%Q.
Proof. intros H. change 0%Q with (inject_Z 0). by rewrite <- Zlt_Qlt. Qed.

Lemma inject_Z_nonzero (z : Z) : z ≠ 0 → ¬ (inject_Z z == 0)%Q.
Proof.
  intros H E. change 0%Q with (inject_Z 0) in E.
  by rewrite inject_Z_injective in E.
Qed.

(** A quotient of two integers, the divisor positive, against 0 and 1. *)
Lemma quotient_range (n d : Z) :
  0 ≤ n ≤ d → 0 < d → (0 <= inject_Z n / inject_Z d <= 1)%Q.
Proof.
  intros [H0 H1] Hd. pose proof (inject_Z_pos d Hd). split.
  - apply Qle_shift_div_l; [done|]. rewrite Qmult_0_l.
    change 0%Q with (inject_Z 0). by rewrite <- Zle_Qle.
  - apply Qle_shift_div_r; [done|]. rewrite Qmult_1_l. by rewrite <- Zle_Qle.
Qed.

Lemma quotient_is_one (n d : Z) :
  d ≠ 0 → (inject_Z n / inject_Z d == 1)%Q ↔ n = d.
Proof.
  intros Hd. pose proof (inject_Z_nonzero d Hd) as Hd'. split.
  - intros E. apply inject_Z_injective.
    transitivity (inject_Z d * (inject_Z n / inject_Z d))%Q;
      [symmetry; by apply Qmult_div_r|].
    rewrite E. apply Qmult_1_r.
  - intros ->. by apply Qmult_inv_r.
Qed.

Lemma union_area_pos A B :
  inter_area A B ≠ 0 →
  0 < inter_area A B ≤ area A + area B - inter_area A B.
Proof.
  intros Hne. pose proof (inter_area_pos_le A B Hne).
  pose proof (inter_area_pos_le B A) as HB.
  rewrite (inter_area_comm B A) in HB. specialize (HB Hne). lia.
Qed.

Lemma gap_least (n d : Z) :
  0 < n → 0 < d ≤ exact_bound → (gap <= inject_Z n / inject_Z d)%Q.
Proof.
  intros Hn [Hd Hb]. apply Qle_shift_div_l; [by apply inject_Z_pos|].
  unfold gap, exact_bound, Qle, Qmult, inject_Z in *. cbn [Qnum Qden].
  change (Z.pos (2 ^ 53 * 1)) with (2 ^ 53).
  change (2 ^ 53) with 9007199254740992 in *.
  lia.
Qed.

Lemma gap_below_one (n d : Z) :
  n < d → 0 < d ≤ exact_bound → (inject_Z n / inject_Z d <= 1 - gap)%Q.
Proof.
  intros Hn [Hd Hb]. apply Qle_shift_div_r; [by apply inject_Z_pos|].
  unfold gap, exact_bound, Qle, Qmult, Qminus, Qplus, Qopp, inject_Z in *.
  cbn [Qnum Qden].
  change (Z.pos (1 * 2 ^ 53 * 1)) with (2 ^ 53).
  change (Z.pos (2 ^ 53)) with (2 ^ 53).
  change (2 ^ 53) with 9007199254740992 in *.
  lia.
Qed.

(** X5. [iou] never raises and its value lies between 0 and 1, whatever
    the two boxes, ordered or not.  It is 0 when the clamped intersection
    has no area; when it has some and the area of the union is at most
    [2^53], the value is at least [2^-53], so within that bound [iou] is
    0 exactly when the clamped intersection has no area. *)
Theorem iou_range A B :
  ∃ q, iou A B = Ok q ∧ (0 <= q <= 1)%Q ∧
       (inter_area A B = 0 → (q == 0)%Q) ∧
       (inter_area A B ≠ 0 → union_area A B ≤ exact_bound →
        (gap <= q)%Q).
Proof.
  eexists. split; [apply iou_value|]. unfold union_area.
  destruct (Z.eqb_spec (inter_area A B) 0) as [E|Hne].
  - split; [split; [apply Qle_refl|done]|]. done.
  - pose proof (union_area_pos A B Hne) as Hu. split.
    + apply quotient_range; lia.
    + split; [done|]. intros _ Hb. apply gap_least; lia.
Qed.

Lemma iou_range_witness :
  ∃ q, iou (0, 0, 10, 10) (1, 0, 11, 10) = Ok q ∧ (0 <= q <= 1)%Q ∧
       (gap <= q)%Q.
Proof.
  destruct (iou_range (0, 0, 10, 10) (1, 0, 11, 10))
    as (q & Hq & Hr & _ & Hg).
  exists q. split; [exact Hq|]. split; [exact Hr|].
  apply Hg; vm_compute; discriminate.
Defined.

Lemma apart_no_area A B : apart A B → inter_area A B = 0.
Proof.
  unfold apart, inter_area. intros H.
  destruct (Z.max_spec 0 (Z.min (x_max A) (x_max B) - Z.max (x_min A) (x_min B)))
    as [[Hw ->]|[_ ->]]; [|done].
  destruct (Z.max_spec 0 (Z.min (y_max A) (y_max B) - Z.max (y_min A) (y_min B)))
    as [[Hh ->]|[_ ->]]; [|apply Z.mul_0_r].
  lia.
Qed.

(** [rel_intersection] never divides by zero. *)
Lemma rel_intersection_total A B :
  rel_intersection A B =
  Ok (if (Z.abs (x_min A - x_max A) =? 0) || (Z.abs (y_min A - y_max A) =? 0)
      then 0%Q
      else (inject_Z (inter_area A B)
            / inject_Z (Z.abs (x_min A - x_max A)
                        * Z.abs (y_min A - y_max A)))%Q).
Proof.
  unfold rel_intersection. destruct (_ || _) eqn:Hd; [done|].
  apply orb_false_iff in Hd as [Hw%Z.eqb_neq Hh%Z.eqb_neq].
  apply truediv_Ok. intros [E|E]%Z.mul_eq_0; done.
Qed.

(** X6. Two boxes that lie apart, one beyond an edge of the other, have
    [iou] 0 and [rel_intersection] 0. *)
Theorem apart_metrics_zero A B :
  apart A B →
  iou A B = Ok 0%Q ∧ ∃ q, rel_intersection A B = Ok q ∧ (q == 0)%Q.
Proof.
  intros Hap. pose proof (apart_no_area A B Hap) as E. split.
  - by rewrite iou_value, E.
  - eexists. split; [apply rel_intersection_total|].
    destruct (_ || _); [done|]. rewrite E. unfold Qdiv. apply Qmult_0_l.
Qed.

Lemma apart_metrics_zero_witness :
  iou (0, 0, 10, 10) (20, 20, 30, 30) = Ok 0%Q ∧
  ∃ q, rel_intersection (0, 0, 10, 10) (20, 20, 30, 30) = Ok q ∧ (q == 0)%Q.
Proof.
  apply (apart_metrics_zero (0, 0, 10, 10) (20, 20, 30, 30)).
  left. cbv [x_min x_max fst snd]. lia.
Defined.

(** X7. [rel_intersection] never raises and its value lies between 0 and
    1, whatever the two boxes, ordered or not. *)
Theorem rel_intersection_range A B :
  ∃ q, rel_intersection A B = Ok q ∧ (0 <= q <= 1)%Q.
Proof.
  eexists. split; [apply rel_intersection_total|].
  destruct (_ || _) eqn:Hd; [split; [apply Qle_refl|done]|].
  apply orb_false_iff in Hd as [Hw%Z.eqb_neq Hh%Z.eqb_neq].
  assert (0 < Z.abs (x_min A - x_max A) * Z.abs (y_min A - y_max A))
    by (apply Z.mul_pos_pos; lia).
  apply quotient_range; [|done]. split; [apply inter_area_nonneg|].
  destruct (decide (inter_area A B = 0)) as [->|Hne]; [lia|].
  pose proof (inter_area_pos_le A B Hne) as [Hpos Hle].
  assert (0 < area A) as Ha by lia.
  unfold area in Hle, Ha.
  assert (Z.abs (x_min A - x_max A) * Z.abs (y_min A - y_max A)
          = (x_max A - x_min A) * (y_max A - y_min A)) as ->; [|done].
  replace (x_min A - x_max A) with (- (x_max A - x_min A)) by lia.
  replace (y_min A - y_max A) with (- (y_max A - y_min A)) by lia.
  rewrite !Z.abs_opp, <- Z.abs_mul. apply Z.abs_eq. lia.
Qed.

(** The intersection with [B] fills a proper box [A] exactly when [A]
    lies within [B]. *)
Lemma inter_area_full A B :
  proper A → inter_area A B = area A ↔ inside A B.
Proof.
  intros [Hx Hy]. unfold inter_area, area, inside.
  set (w := Z.min (x_max A) (x_max B) - Z.max (x_min A) (x_min B)).
  set (h := Z.min (y_max A) (y_max B) - Z.max (y_min A) (y_min B)).
  assert (w ≤ x_max A - x_min A) as Hw by (subst w; lia).
  assert (h ≤ y_max A - y_min A) as Hh by (subst h; lia).
  split.
  - intros E.
    assert (Z.max 0 w = x_max A - x_min A ∧ Z.max 0 h = y_max A - y_min A)
      as [Ew Eh] by nia.
    subst w h. lia.
  - intros (H1 & H2 & H3 & H4).
    assert (w = x_max A - x_min A) as -> by (subst w; lia).
    assert (h = y_max A - y_min A) as -> by (subst h; lia).
    by rewrite !Z.max_r by lia.
Qed.

(** X8. For a box [A] of positive width and height and of area at most
    [2^53], [rel_intersection(A, B)] is 1 exactly when [A] lies within
    [B], and at most [1 - 2^-53] when it does not. *)
Theorem rel_intersection_one_iff_inside A B :
  proper A → area A ≤ exact_bound →
  ∃ q, rel_intersection A B = Ok q ∧ ((q == 1)%Q ↔ inside A B) ∧
       (¬ inside A B → (q <= 1 - gap)%Q).
Proof.
  intros HA Hb. pose proof HA as [Hx Hy].
  eexists. split; [apply rel_intersection_total|].
  assert (Z.abs (x_min A - x_max A) * Z.abs (y_min A - y_max A) = area A)
    as Habs
    by (unfold area;
        rewrite (Z.abs_neq (x_min A - x_max A)),
          (Z.abs_neq (y_min A - y_max A)) by lia; ring).
  assert (0 < area A) as Hpos by (unfold area; apply Z.mul_pos_pos; lia).
  destruct (_ || _) eqn:Hd.
  { apply orb_true_iff in Hd as [Hd%Z.eqb_eq|Hd%Z.eqb_eq]; lia. }
  rewrite Habs. split.
  - rewrite quotient_is_one by lia. by apply inter_area_full.
  - intros Hout. apply gap_below_one; [|lia].
    assert (inter_area A B ≠ area A) as Hne
      by (intros E; by apply Hout, inter_area_full).
    destruct (decide (inter_area A B = 0)) as [E0|Hne0]; [lia|].
    pose proof (inter_area_pos_le A B Hne0). lia.
Qed.

Lemma rel_intersection_one_iff_inside_witness :
  ∃ q, rel_intersection (1, 1, 5, 5) (0, 0, 10, 10) = Ok q ∧
       ((q == 1)%Q ↔ inside (1, 1, 5, 5) (0, 0, 10, 10)) ∧
       (¬ inside (1, 1, 5, 5) (0, 0, 10, 10) → (q <= 1 - gap)%Q).
Proof.
  apply (rel_intersection_one_iff_inside (1, 1, 5, 5) (0, 0, 10, 10)).
  - cbv [proper x_min y_min x_max y_max fst snd]. lia.
  - vm_compute. discriminate.
Defined.

(** X9. For two boxes of positive width and height whose union has an
    area of at most [2^53], [iou] is 1 exactly when the boxes are equal,
    and at most [1 - 2^-53] when they are not. *)
Theorem iou_one_iff_equal A B :
  proper A → proper B → union_area A B ≤ exact_bound →
  ∃ q, iou A B = Ok q ∧ ((q == 1)%Q ↔ A = B) ∧
       (A ≠ B → (q <= 1 - gap)%Q).
Proof.
  intros HA HB Hb. unfold union_area in Hb.
  eexists. split; [apply iou_value|].
  assert (inter_area A B = area A + area B - inter_area A B → A = B)
    as Heq.
  { intros E.
    destruct (decide (inter_area A B = 0)) as [E0|Hne].
    { destruct HA as [? ?], HB as [? ?]. unfold area in E.
      assert (0 < (x_max A - x_min A) * (y_max A - y_min A))
        by (apply Z.mul_pos_pos; lia).
      assert (0 < (x_max B - x_min B) * (y_max B - y_min B))
        by (apply Z.mul_pos_pos; lia).
      lia. }
    pose proof (inter_area_pos_le A B Hne) as [_ HleA].
    pose proof (inter_area_pos_le B A) as HleB.
    rewrite (inter_area_comm B A) in HleB. specialize (HleB Hne) as [_ HleB].
    assert (inside A B) as (? & ? & ? & ?)
      by (apply inter_area_full; [done|lia]).
    assert (inside B A) as (? & ? & ? & ?)
      by (apply inter_area_full; [done|rewrite inter_area_comm; lia]).
    apply bbox_eq; lia. }
  destruct (Z.eqb_spec (inter_area A B) 0) as [E|Hne].
  - split.
    + split; [done|]. intros <-.
      destruct HA as [Hx Hy]. rewrite inter_area_self in E by done.
      unfold area in E. apply Z.mul_eq_0 in E. lia.
    + intros _. by vm_compute.
  - pose proof (union_area_pos A B Hne) as Hu. split.
    + rewrite quotient_is_one by lia. split; [exact Heq|].
      intros <-. destruct HA as [Hx Hy].
      rewrite inter_area_self by done. lia.
    + intros Hdiff. apply gap_below_one; [|lia].
      destruct (decide (inter_area A B
                        = area A + area B - inter_area A B)) as [E|E];
        [by destruct Hdiff; apply Heq|lia].
Qed.

Lemma iou_one_iff_equal_witness :
  ∃ q, iou (0, 0, 10, 10) (1, 0, 11, 10) = Ok q ∧
       ((q == 1)%Q ↔ (0, 0, 10, 10) = (1, 0, 11, 10)) ∧
       ((0, 0, 10, 10) ≠ (1, 0, 11, 10) → (q <= 1 - gap)%Q).
Proof.
  apply (iou_one_iff_equal (0, 0, 10, 10) (1, 0, 11, 10));
    [cbv [proper x_min y_min x_max y_max fst snd]; lia..|].
  vm_compute. discriminate.
Defined.

(** X10. For a box [A] of positive width and height, [iou(A, B)] never
    exceeds [rel_intersection(A, B)]. *)
Theorem iou_le_rel_intersection A B :
  proper A →
  ∃ q r, iou A B = Ok q ∧ rel_intersection A B = Ok r ∧ (q <= r)%Q.
Proof.
  intros HA. pose proof HA as [Hx Hy].
  do 2 eexists. split; [apply iou_value|].
  split; [apply rel_intersection_total|].
  assert (Z.abs (x_min A - x_max A) * Z.abs (y_min A - y_max A) = area A)
    as Habs
    by (unfold area;
        rewrite (Z.abs_neq (x_min A - x_max A)),
          (Z.abs_neq (y_min A - y_max A)) by lia; ring).
  assert (0 < area A) as Hpos by (unfold area; apply Z.mul_pos_pos; lia).
  destruct (_ || _) eqn:Hd.
  { apply orb_true_iff in Hd as [Hd%Z.eqb_eq|Hd%Z.eqb_eq]; lia. }
  rewrite Habs.
  destruct (Z.eqb_spec (inter_area A B) 0) as [E|Hne].
  - rewrite E. unfold Qdiv. rewrite Qmult_0_l. apply Qle_refl.
  - pose proof (union_area_pos A B Hne) as Hu.
    pose proof (inter_area_pos_le B A) as HleB.
    rewrite (inter_area_comm B A) in HleB. specialize (HleB Hne) as [_ HleB].
    set (i := inter_area A B) in *.
    set (u := area A + area B - i) in *.
    apply Qle_shift_div_r; [apply inject_Z_pos; lia|].
    unfold Qdiv. rewrite <- Qmult_assoc, (Qmult_comm (/ _)), Qmult_assoc.
    apply Qle_shift_div_l; [apply inject_Z_pos; lia|].
    rewrite <- !inject_Z_mult, <- Zle_Qle.
    apply Z.mul_le_mono_nonneg_l; lia.
Qed.

Lemma iou_le_rel_intersection_witness :
  ∃ q r, iou (0, 0, 10, 10) (1, 0, 11, 10) = Ok q ∧
         rel_intersection (0, 0, 10, 10) (1, 0, 11, 10) = Ok r ∧ (q <= r)%Q.
Proof.
  apply (iou_le_rel_intersection (0, 0, 10, 10) (1, 0, 11, 10)).
  cbv [proper x_min y_min x_max y_max fst snd]. lia.
Defined.

End MetricExtras.

(** ** Duplicate detection: whole runs *)

Section DedupExtras.

Lemma combinations2_sublist {A : Type} (l1 l2 : list A) (a b : A) :
  l1 `sublist_of` l2 → (a, b) ∈ combinations2 l1 → (a, b) ∈ combinations2 l2.
Proof.
  induction 1 as [|x l1 l2 Hsub IH|x l1 l2 Hsub IH]; cbn [combinations2].
  - done.
  - rewrite !elem_of_app. intros [(y & [= -> ->] & Hy)%list_elem_of_fmap|H].
    + left. apply list_elem_of_fmap. exists y. split; [done|].
      by eapply elem_of_sublist.
    + right. by apply IH.
  - intros H. apply elem_of_app. right. by apply IH.
Qed.

Lemma masked_remaining (ids : list Z) (lines : list Line) :
  masked (remaining ids lines) = remaining ids (masked lines).
Proof.
  unfold masked, remaining. rewrite !list_filter_filter.
  apply list_filter_iff. tauto.
Qed.

(** X11. On lines with distinct identifiers and well-formed masks,
    [detect_duplicates_to_delete] returns the empty list exactly when no
    two lines with a non-empty mask are in conflict. *)
Theorem no_duplicates_iff_no_conflict (lines : list Line) :
  NoDup (pk <$> masked lines) →
  Forall (fun l => well_formed (mask l)) lines →
  ∃ out, detect_duplicates_to_delete lines = Ok out ∧
    (out = [] ↔
     ∀ (i j : nat) a b,
       (i < j)%nat → masked lines !! i = Some a → masked lines !! j = Some b →
       ¬ conflict a b).
Proof.
  intros Hnd Hwf.
  destruct (detect_duplicates_nominated lines Hnd Hwf) as (out & Hout & _ & Hmem).
  exists out. split; [done|]. split.
  - intros -> i j a b Hij Hi Hj Hc.
    apply (not_elem_of_nil (nominee a b)), Hmem.
    exists a, b. split; [|done]. apply elem_of_combinations2. eauto.
  - intros Hfree. apply elem_of_nil_inv. intros x (a & b & Hin & Hc & _)%Hmem.
    apply elem_of_combinations2 in Hin as (i & j & Hij & Hi & Hj).
    by apply (Hfree i j a b).
Qed.

Lemma no_duplicates_iff_no_conflict_witness :
  ∃ out, detect_duplicates_to_delete three_lines = Ok out ∧
    (out = [] ↔
     ∀ (i j : nat) a b,
       (i < j)%nat → masked three_lines !! i = Some a →
       masked three_lines !! j = Some b →
       ¬ conflict a b).
Proof.
  apply (no_duplicates_iff_no_conflict three_lines).
  - exact three_lines_distinct.
  - exact three_lines_well_formed.
Defined.

(** X12. Deleting what [detect_duplicates_to_delete] returns settles the
    page: on lines with distinct identifiers and well-formed masks, a
    second run on the lines that remain returns the empty list, so no two
    remaining lines are in conflict. *)
Theorem deletion_settles_page (lines : list Line) (out : list Z) :
  NoDup (pk <$> masked lines) →
  Forall (fun l => well_formed (mask l)) lines →
  detect_duplicates_to_delete lines = Ok out →
  detect_duplicates_to_delete (remaining out lines) = Ok [].
Proof.
  intros Hnd Hwf Hout.
  destruct (detect_duplicates_nominated lines Hnd Hwf)
    as (out0 & Hout0 & _ & Hmem).
  assert (out0 = out) as -> by congruence.
  assert (masked (remaining out lines) `sublist_of` masked lines) as Hsub
    by (rewrite masked_remaining; apply sublist_filter).
  destruct (detect_duplicates_nominated (remaining out lines))
    as (out' & Hout' & _ & Hmem').
  { eapply sublist_NoDup; [exact Hnd|]. by apply fmap_sublist. }
  { apply Forall_forall. intros l [_ Hl]%list_elem_of_filter.
    rewrite Forall_forall in Hwf. by apply Hwf. }
  rewrite Hout'. f_equal. apply elem_of_nil_inv.
  intros x (a & b & Hin & Hc & _)%Hmem'.
  pose proof (combinations2_members _ _ _ Hin) as [Ha Hb].
  rewrite masked_remaining in Ha, Hb.
  apply list_elem_of_filter in Ha as [Ha _], Hb as [Hb _].
  assert (nominee a b ∈ out) as Hn.
  { apply Hmem. exists a, b. split; [|done].
    by eapply combinations2_sublist. }
  destruct (nominee_cases a b) as [(_ & E & _)|(_ & E & _)];
    rewrite E in Hn; done.
Qed.

Lemma deletion_settles_page_witness :
  detect_duplicates_to_delete (remaining [2; 1] three_lines) = Ok [].
Proof.
  apply (deletion_settles_page three_lines [2; 1]).
  - exact three_lines_distinct.
  - exact three_lines_well_formed.
  - vm_compute. reflexivity.
Defined.

Lemma pair_key_row {A : Type} (key : A → Z) (a : A) (l : list A) :
  NoDup (key <$> l) →
  NoDup ((fun p : A * A => pair_key (key p.1) (key p.2)) <$> (pair a <$> l)).
Proof.
  induction l as [|b l IH]; csimpl; intros Hnd; [constructor|].
  apply NoDup_cons in Hnd as [Hb Hnd]. apply NoDup_cons. split; [|auto].
  intros Hin. apply Hb.
  apply list_elem_of_fmap in Hin as ([a' b'] & Heq & Hin).
  apply list_elem_of_fmap in Hin as (b'' & [= -> ->] & Hin).
  apply pair_key_inj_r in Heq. simpl in Heq. rewrite Heq.
  apply list_elem_of_fmap. eauto.
Qed.

Lemma pair_keys_NoDup {A : Type} (key : A → Z) (l : list A) :
  NoDup (key <$> l) →
  NoDup ((fun p : A * A => pair_key (key p.1) (key p.2)) <$> combinations2 l).
Proof.
  induction l as [|a l IH]; csimpl; intros Hnd; [constructor|].
  apply NoDup_cons in Hnd as [Ha Hnd].
  rewrite fmap_app. apply NoDup_app. split; [by apply pair_key_row|].
  split; [|auto].
  intros k Hrow Hrest. apply Ha.
  apply list_elem_of_fmap in Hrow as ([a' b'] & -> & Hin).
  apply list_elem_of_fmap in Hin as (b'' & [= -> ->] & Hin).
  apply list_elem_of_fmap in Hrest as ([u v] & Heq & Huv).
  apply combinations2_members in Huv as [Hu Hv]. simpl in Heq.
  apply pair_key_member in Heq as [[E|E] _]; rewrite E;
    apply list_elem_of_fmap; eauto.
Qed.

Lemma setitem_NoDup {V : Type} (k : Z) (v : V) (d : odict V) :
  NoDup d.*1 → NoDup (setitem k v d).*1.
Proof.
  induction d as [|[k1 v1] d IH]; csimpl; intros Hnd.
  - apply NoDup_singleton.
  - apply NoDup_cons in Hnd as [Hk1 Hnd].
    destruct (decide (k = k1)) as [->|Hne]; csimpl.
    + by apply NoDup_cons.
    + apply NoDup_cons. split; [|auto].
      intros [->|H]%setitem_keys; done.
Qed.

(** The keys of a dict of boxes are distinct, whatever the input. *)
Lemma bbox_dict_NoDup {D : Type} (key : D → Z) (geom : D → option polygon)
    (ds : list D) (d : odict vbox) :
  bbox_dict key geom ds = Ok d → NoDup d.*1.
Proof.
  unfold bbox_dict. assert (NoDup ([] : odict vbox).*1) as Hacc by constructor.
  revert Hacc. generalize ([] : odict vbox).
  induction ds as [|x ds IH]; intros acc Hacc Hrun; cbn [for_each] in Hrun.
  - by injection Hrun as <-.
  - apply bind_Ok in Hrun as (acc' & Hstep & Hrest).
    apply (IH acc'); [|done].
    destruct (truthy (geom x)).
    + apply bind_Ok in Hstep as (b & _ & [= <-]). by apply setitem_NoDup.
    + by injection Hstep as <-.
Qed.

Lemma visit_pair_checked (st st' : gset Z * gset (Z * Z))
    (p : (Z * vbox) * (Z * vbox)) :
  visit_pair st p = Ok st' →
  st'.2 = st.2 ∨ st'.2 = {[item_key p]} ∪ st.2.
Proof.
  destruct st as [S C], p as [[id1 box1] [id2 box2]].
  unfold visit_pair, item_key. cbn [fst snd].
  destruct (decide _); [intros [= <-]; by left|].
  intros (score & _ & H)%bind_Ok. right.
  destruct (Qltb _ _).
  - by apply bind_Ok in H as (b & _ & [= <-]).
  - by injection H as <-.
Qed.

Lemma visit_pairs_checked (ps : list ((Z * vbox) * (Z * vbox)))
    (st st' : gset Z * gset (Z * Z)) (k : Z * Z) :
  for_each visit_pair st ps = Ok st' →
  k ∈ st'.2 → k ∈ st.2 ∨ k ∈ item_key <$> ps.
Proof.
  revert st. induction ps as [|p ps IH]; intros st Hrun Hk;
    cbn [for_each] in Hrun.
  - injection Hrun as <-. by left.
  - apply bind_Ok in Hrun as (st1 & Hstep & Hrest).
    destruct (IH st1 Hrest Hk) as [H|H]; [|right; by right].
    apply visit_pair_checked in Hstep as [E|E]; rewrite E in H.
    + by left.
    + apply elem_of_union in H as [->%elem_of_singleton|H];
        [right; left|by left].
Qed.

(** X13. The test on [checked_pairs] never fires: whatever the lines,
    when the loop over the pairs of the dict of boxes reaches a pair, the
    key of that pair has not been recorded by the turns before it. *)
Theorem checked_pairs_never_hit (lines : list Line) (bboxes : odict vbox)
    (pre post : list ((Z * vbox) * (Z * vbox))) (p : (Z * vbox) * (Z * vbox))
    (st : gset Z * gset (Z * Z)) :
  bbox_dict pk mask lines = Ok bboxes →
  combinations2 bboxes = pre ++ p :: post →
  for_each visit_pair (∅, ∅) pre = Ok st →
  item_key p ∉ st.2.
Proof.
  intros Hd Hsplit Hrun Hk.
  pose proof (pair_keys_NoDup fst bboxes (bbox_dict_NoDup _ _ _ _ Hd)) as Hnd.
  rewrite Hsplit, fmap_app, fmap_cons in Hnd.
  apply NoDup_app in Hnd as (_ & Hdis & _).
  destruct (visit_pairs_checked pre (∅, ∅) st (item_key p) Hrun Hk)
    as [[]%not_elem_of_empty|Hin].
  apply (Hdis _ Hin). left.
Qed.

Lemma checked_pairs_never_hit_witness :
  item_key ((2, box_val (1, 0, 11, 10)), (3, box_val (2, 0, 12, 10)))
  ∉ ({[1]} : gset Z, {[(1, 2); (1, 3)]} : gset (Z * Z)).2.
Proof.
  apply (checked_pairs_never_hit three_lines
           [(1, box_val (0, 0, 10, 10)); (2, box_val (1, 0, 11, 10));
            (3, box_val (2, 0, 12, 10))]
           [((1, box_val (0, 0, 10, 10)), (2, box_val (1, 0, 11, 10)));
            ((1, box_val (0, 0, 10, 10)), (3, box_val (2, 0, 12, 10)))]
           []);
    vm_compute; reflexivity.
Defined.

(** X14. When no line has a non-empty mask, in particular on an empty
    list of lines, [detect_duplicates_to_delete] returns the empty list
    and does not raise. *)
Theorem no_mask_no_duplicates (lines : list Line) :
  Forall (fun l => truthy (mask l) = false) lines →
  detect_duplicates_to_delete lines = Ok [].
Proof.
  intros Hnone. unfold detect_duplicates_to_delete.
  assert (bbox_dict pk mask lines = Ok []) as ->.
  { unfold bbox_dict. induction Hnone as [|l ls Hl _ IH]; [done|].
    cbn [for_each]. by rewrite Hl. }
  cbn. by rewrite elements_empty.
Qed.

Lemma no_mask_no_duplicates_witness :
  detect_duplicates_to_delete [mk_line 6 (Some []) None; mk_line 7 None None]
  = Ok [].
Proof.
  apply (no_mask_no_duplicates
           [mk_line 6 (Some []) None; mk_line 7 None None]).
  repeat constructor.
Defined.

Lemma bbox_dict_same_shape (ls ls' : list Line) :
  Forall2 same_shape ls ls' →
  bbox_dict pk mask ls = bbox_dict pk mask ls'.
Proof.
  unfold bbox_dict. intros H. generalize ([] : odict vbox).
  induction H as [|a b ls ls' [Epk Emask] _ IH]; intros acc; [done|].
  cbn [for_each]. rewrite Epk, Emask.
  destruct (truthy (mask b)); cbn [mbind res_bind]; [|apply IH].
  destruct (extract_bbox_of (mask b)); cbn [mbind res_bind]; [apply IH|done].
Qed.

(** X15. [detect_duplicates_to_delete] reads nothing of a line but its
    ["pk"] and its ["mask"]; so the in-place updates of a run of
    [detect_reassignment] leave its result on any lines of the heap as it
    was. *)
Theorem reassignment_keeps_duplicates (lines refs : list nat)
    (regions : list Region) (h h' : heap) (out : list nat) :
  detect_reassignment lines regions h = Ok (h', out) →
  detect_duplicates_to_delete (deref h' refs)
  = detect_duplicates_to_delete (deref h refs).
Proof.
  unfold detect_reassignment. intros Hrun.
  apply bind_Ok in Hrun as (regs & Hregs & Hloop).
  pose proof (loop_inv_run regs h lines [] (h, []) (h', out)
                (loop_inv_initial regs h) Hloop)
    as (_ & _ & Hin & Hout & _).
  cbn [fst snd] in *.
  unfold detect_duplicates_to_delete.
  rewrite (bbox_dict_same_shape (deref h' refs) (deref h refs)); [done|].
  unfold deref. apply Forall2_fmap, Forall_Forall2_diag, Forall_forall.
  intros ref _. destruct (decide (ref ∈ out)) as [Hm|Hm].
  - destruct (Hin ref Hm) as (best & _ & _ & ->). done.
  - by rewrite (Hout ref Hm).
Qed.

Lemma reassignment_keeps_duplicates_witness :
  detect_duplicates_to_delete
    (deref (<[0%nat := set_region (page_heap 0%nat) 10]> page_heap)
       [0; 1]%nat)
  = detect_duplicates_to_delete (deref page_heap [0; 1]%nat).
Proof.
  apply (reassignment_keeps_duplicates [0; 1]%nat [0; 1]%nat
           [region_R1; region_R2] page_heap _ [0%nat]).
  vm_compute. reflexivity.
Defined.

End DedupExtras.

(** ** Region reassignment: whole runs *)

Section ReassignExtras.

Lemma bbox_dict_no_candidates {D : Type} (key : D → Z)
    (geom : D → option polygon) (ds : list D) :
  filter (fun d => truthy (geom d)) ds = [] → bbox_dict key geom ds = Ok [].
Proof.
  unfold bbox_dict. induction ds as [|d ds IH]; [done|].
  rewrite filter_cons. destruct (decide (truthy (geom d))) as [|Hd]; [done|].
  intros H. cbn [for_each].
  destruct (truthy (geom d)); [by destruct Hd|]. by apply IH.
Qed.

(** X16. When no region has a non-empty box, in particular without
    regions, [detect_reassignment] returns the empty list and leaves the
    heap as it is, whatever the lines; it does not look at their masks
    and does not raise. *)
Theorem no_region_no_reassignment (lines : list nat) (regions : list Region)
    (h : heap) :
  candidates regions = [] →
  detect_reassignment lines regions h = Ok (h, []).
Proof.
  intros Hnone. unfold detect_reassignment.
  rewrite (bbox_dict_no_candidates rpk box regions Hnone).
  cbn [mbind res_bind].
  induction lines as [|ref lines IH]; [done|]. cbn [for_each].
  by rewrite visit_line_unfold.
Qed.

Lemma no_region_no_reassignment_witness :
  detect_reassignment [0; 1]%nat [mk_region 10 None; mk_region 20 (Some [])]
    heap_with_empty_mask
  = Ok (heap_with_empty_mask, []).
Proof.
  apply (no_region_no_reassignment [0; 1]%nat
           [mk_region 10 None; mk_region 20 (Some [])] heap_with_empty_mask).
  reflexivity.
Defined.

Lemma visit_lines_sublist (regs : odict vbox) (lines : list nat)
    (st st' : heap * list nat) :
  for_each (visit_line regs) st lines = Ok st' →
  ∃ s, st'.2 = st.2 ++ s ∧ s `sublist_of` lines.
Proof.
  revert st. induction lines as [|ref lines IH]; intros st Hrun;
    cbn [for_each] in Hrun.
  - injection Hrun as <-. exists []. by rewrite app_nil_r.
  - apply bind_Ok in Hrun as (st1 & Hstep & Hrest).
    destruct (IH st1 Hrest) as (s & -> & Hs).
    destruct st as [h out]. rewrite visit_line_unfold in Hstep.
    apply bind_Ok in Hstep as (best & _ & [= <-]).
    destruct (update_due _ _); cbn [fst snd].
    + exists (ref :: s). rewrite <- app_assoc. split; [done|].
      by apply sublist_skip.
    + exists s. split; [done|]. by apply sublist_cons.
Qed.

(** X17. The list [detect_reassignment] returns names no line twice and
    follows the order of [lines]: it is [lines] with some entries left
    out, also when [lines] holds the same dict more than once. *)
Theorem reassigned_in_order (lines : list nat) (regions : list Region)
    (h h' : heap) (out : list nat) :
  detect_reassignment lines regions h = Ok (h', out) →
  NoDup out ∧ out `sublist_of` lines.
Proof.
  unfold detect_reassignment. intros Hrun.
  apply bind_Ok in Hrun as (regs & Hregs & Hloop). split.
  - by destruct (loop_inv_run regs h lines [] (h, []) (h', out)
                   (loop_inv_initial regs h) Hloop) as (Hnd & _).
  - destruct (visit_lines_sublist regs lines (h, []) (h', out) Hloop)
      as (s & E & Hs).
    simpl in E. by rewrite E.
Qed.

Lemma reassigned_in_order_witness :
  NoDup [0%nat] ∧ [0%nat] `sublist_of` [0; 1; 0]%nat.
Proof.
  apply (reassigned_in_order [0; 1; 0]%nat [region_R1; region_R2] page_heap
           (<[0%nat := set_region (page_heap 0%nat) 10]> page_heap)).
  vm_compute. reflexivity.
Defined.

Lemma overlap_degenerate (lb : bbox) (r : Region) :
  degenerate lb → overlap lb r = 0%Q.
Proof.
  intros Hd%degenerate_abs. unfold overlap, rel_intersection. by rewrite Hd.
Qed.

(** X18. A line whose box has no width or no height, such as a line whose
    mask is a single point or a horizontal segment, is never reassigned:
    with regions of distinct identifiers and well-formed boxes, a run of
    [detect_reassignment] that returns neither reports nor changes it. *)
Theorem flat_line_never_reassigned (lines : list nat)
    (regions : list Region) (h h' : heap) (out : list nat) (ref : nat) :
  NoDup (rpk <$> candidates regions) →
  Forall (fun r => well_formed (box r)) regions →
  usable (h ref) → degenerate (box_of (mask (h ref))) →
  detect_reassignment lines regions h = Ok (h', out) →
  (ref ∉ out) ∧ h' ref = h ref.
Proof.
  intros Hnd Hwf Hu Hflat. unfold detect_reassignment.
  rewrite (bbox_dict_unique rpk box regions Hnd Hwf). cbn [mbind res_bind].
  fold (candidates regions). intros Hloop.
  pose proof (loop_inv_run _ h lines [] (h, []) (h', out)
                (loop_inv_initial _ h) Hloop)
    as (_ & _ & Hin & Hout & _).
  cbn [fst snd] in *.
  assert (ref ∉ out) as Hnot; [|split; [done|by apply Hout]].
  intros Hm. destruct (Hin ref Hm) as (best & Hscan & Hdue & _).
  destruct (scan_usable (h ref) (candidates regions) Hu)
    as [[Hs _]|(i & r & (_ & Hpos & _) & _)].
  - rewrite Hs in Hscan. injection Hscan as <-. done.
  - rewrite overlap_degenerate in Hpos by done. by apply Qlt_irrefl in Hpos.
Qed.

Lemma flat_line_never_reassigned_witness :
  (0%nat ∉ ([] : list nat)) ∧
  heap_of [mk_line 1 (Some [(Num 1, Num 4); (Num 6, Num 4)]) None] 0%nat
  = heap_of [mk_line 1 (Some [(Num 1, Num 4); (Num 6, Num 4)]) None] 0%nat.
Proof.
  apply (flat_line_never_reassigned [0%nat] [region_R1; region_R2]
           (heap_of [mk_line 1 (Some [(Num 1, Num 4); (Num 6, Num 4)]) None])).
  - exact page_regions_distinct.
  - repeat constructor; intros p [= <-]; reflexivity.
  - split; [reflexivity|intros p [= <-]; reflexivity].
  - right. reflexivity.
  - vm_compute. reflexivity.
Defined.

(** The scan of [detect_reassignment], line by line, for usable lines. *)
Lemma scan_selects_best (lines : list nat) (regions : list Region)
    (h : heap) :
  NoDup (rpk <$> candidates regions) →
  Forall (fun r => well_formed (box r)) regions →
  (∀ r, r ∈ candidates regions → rpk r ≠ (-1)) →
  (∀ ref, ref ∈ lines → candidates regions = [] ∨ usable (h ref)) →
  ∃ h' out,
    detect_reassignment lines regions h = Ok (h', out) ∧
    ∀ ref, ref ∈ lines →
      let lb := box_of (mask (h ref)) in
      (no_overlap lb (candidates regions) ∧ (ref ∉ out) ∧ h' ref = h ref) ∨
      (∃ i r, best_region lb (candidates regions) i r ∧
         ((region (h ref) = Some (rpk r) ∧ (ref ∉ out) ∧ h' ref = h ref) ∨
          (region (h ref) ≠ Some (rpk r) ∧ ref ∈ out ∧
           h' ref = set_region (h ref) (rpk r)))).
Proof.
  intros Hnd Hwf Hids Hlines. unfold detect_reassignment.
  rewrite (bbox_dict_unique rpk box regions Hnd Hwf). cbn [mbind res_bind].
  fold (candidates regions).
  set (regs := entry rpk box <$> candidates regions).
  assert (∀ ref, ref ∈ lines →
            let lb := box_of (mask (h ref)) in
            (scan (h ref) regs = Ok (-1, 0%Q)
             ∧ no_overlap lb (candidates regions)) ∨
            (∃ i r, best_region lb (candidates regions) i r ∧
                    scan (h ref) regs = Ok (rpk r, overlap lb r))) as Hscan.
  { intros ref Href. destruct (Hlines ref Href) as [Hnil|Hu].
    - left. subst regs. rewrite Hnil. split; [done|].
      by intros r ?%elem_of_nil.
    - by apply scan_usable. }
  destruct (loop_total regs h lines [] (h, []) (loop_inv_initial regs h))
    as ([h' out] & Hrun).
  { intros ref Href.
    destruct (Hscan ref Href) as [[-> _]|(i & r & _ & ->)]; by eexists. }
  exists h', out. split; [done|].
  pose proof (loop_inv_run regs h lines [] (h, []) (h', out)
                (loop_inv_initial regs h) Hrun)
    as (_ & _ & Hin & Hout & Hdone).
  cbn [fst snd app] in *.
  intros ref Href.
  destruct (Hdone ref Href) as (best & Hbest & Himp).
  assert (ref ∈ out → update_due best.1 (h ref) = true
                      ∧ h' ref = set_region (h ref) best.1) as Hmem.
  { intros Hm. destruct (Hin ref Hm) as (best' & Hbest' & Hdue & Heq).
    assert (best' = best) as -> by congruence. done. }
  destruct (Hscan ref Href) as [[Hs Hno]|(i & r & Hbr & Hs)];
    rewrite Hs in Hbest; injection Hbest as <-; cbn [fst] in *.
  - left. split; [done|].
    assert (ref ∉ out) as Hnot.
    { intros Hm. destruct (Hmem Hm) as [Hdue _]. unfold update_due in Hdue.
      rewrite (bool_decide_eq_false_2 (-1 ≠ (-1))) in Hdue
        by (intros H; by apply H).
      done. }
    split; [done|by apply Hout].
  - right. exists i, r. split; [done|].
    assert (rpk r ≠ (-1)) as Hid.
    { apply Hids. destruct Hbr as (Hi & _). by eapply list_elem_of_lookup_2. }
    destruct (decide (region (h ref) = Some (rpk r))) as [E|Hne].
    + left. split; [done|].
      assert (ref ∉ out) as Hnot.
      { intros Hm. destruct (Hmem Hm) as [Hdue _]. unfold update_due in Hdue.
        apply andb_true_iff in Hdue as [_ Hd%bool_decide_eq_true]. congruence. }
      split; [done|by apply Hout].
    + right. split; [done|].
      assert (ref ∈ out) as Hm.
      { apply Himp. unfold update_due. apply andb_true_iff.
        split; apply bool_decide_eq_true; congruence. }
      split; [done|by apply Hmem].
Qed.

Lemma quotient_lt (n n' d : Z) :
  0 < d → (inject_Z n / inject_Z d < inject_Z n' / inject_Z d)%Q → n < n'.
Proof.
  intros Hd H. pose proof (inject_Z_pos d Hd) as Hd'.
  assert (¬ (inject_Z d == 0)%Q) as Hne by (apply inject_Z_nonzero; lia).
  apply (Qmult_lt_r _ _ (inject_Z d)) in H; [|done].
  rewrite !(Qmult_comm _ (inject_Z d)), !Qmult_div_r in H by done.
  by rewrite Zlt_Qlt.
Qed.

(** Quotients by the same divisor, at most [2^53], keep their distance. *)
Lemma quotient_separated (n n' d : Z) :
  0 < d ≤ exact_bound →
  ((0 < inject_Z n / inject_Z d)%Q → (gap <= inject_Z n / inject_Z d)%Q) ∧
  ((inject_Z n / inject_Z d < inject_Z n' / inject_Z d)%Q →
   (inject_Z n / inject_Z d + gap <= inject_Z n' / inject_Z d)%Q).
Proof.
  intros Hd. pose proof (inject_Z_pos d (proj1 Hd)) as Hd'. split.
  - intros H. apply gap_least; [|done].
    apply (quotient_lt 0 n d); [lia|].
    unfold Qdiv at 1. by rewrite Qmult_0_l.
  - intros H%quotient_lt; [|lia].
    apply Qle_trans
      with (inject_Z n / inject_Z d + inject_Z 1 / inject_Z d)%Q.
    + apply Qplus_le_r, gap_least; [lia|done].
    + unfold Qdiv. rewrite <- Qmult_plus_distr_l, <- inject_Z_plus.
      apply Qmult_le_compat_r; [rewrite <- Zle_Qle; lia|].
      by apply Qinv_le_0_compat, Qlt_le_weak.
Qed.

Lemma overlaps_separated (lb : bbox) (cands : list Region) :
  extent lb ≤ exact_bound → separated lb cands.
Proof.
  intros Hb r r' _ _. unfold overlap, extent in *.
  rewrite !rel_intersection_total.
  destruct (_ || _) eqn:Hd.
  { split; intros H; by apply Qlt_irrefl in H. }
  apply orb_false_iff in Hd as [Hw%Z.eqb_neq Hh%Z.eqb_neq].
  apply quotient_separated. split; [|done]. apply Z.mul_pos_pos; lia.
Qed.

(** X24. Let the regions with a non-empty box have distinct
    identifiers, none of them [-1], and well-formed boxes, let every
    line have a non-empty well-formed mask (or no region have a box),
    and let the boxes of the lines have an area of at most [2^53].  Then
    [detect_reassignment] returns, and for every line: the overlaps of
    its box with the candidate regions keep their distance from 0 and
    from each other; the winner of the scan is the first, in the order of
    [regions], of the candidate regions of greatest relative overlap,
    provided that overlap is positive; the line is returned, with its
    region set to the winner's identifier, exactly when there is a winner
    and it is not the line's region at that point; otherwise the line is
    not returned and not changed. *)
Theorem reassignment_selects_best (lines : list nat) (regions : list Region)
    (h : heap) :
  NoDup (rpk <$> candidates regions) →
  Forall (fun r => well_formed (box r)) regions →
  (∀ r, r ∈ candidates regions → rpk r ≠ (-1)) →
  (∀ ref, ref ∈ lines → candidates regions = [] ∨ usable (h ref)) →
  (∀ ref, ref ∈ lines → extent (box_of (mask (h ref))) ≤ exact_bound) →
  ∃ h' out,
    detect_reassignment lines regions h = Ok (h', out) ∧
    ∀ ref, ref ∈ lines →
      let lb := box_of (mask (h ref)) in
      separated lb (candidates regions) ∧
      ((no_overlap lb (candidates regions) ∧ (ref ∉ out) ∧ h' ref = h ref) ∨
       (∃ i r, best_region lb (candidates regions) i r ∧
          ((region (h ref) = Some (rpk r) ∧ (ref ∉ out) ∧ h' ref = h ref) ∨
           (region (h ref) ≠ Some (rpk r) ∧ ref ∈ out ∧
            h' ref = set_region (h ref) (rpk r))))).
Proof.
  intros Hnd Hwf Hids Hlines Hsize.
  destruct (scan_selects_best lines regions h Hnd Hwf Hids Hlines)
    as (h' & out & Hrun & Hsel).
  exists h', out. split; [done|]. intros ref Href. split.
  - by apply overlaps_separated, Hsize.
  - by apply Hsel.
Qed.

Lemma reassignment_selects_best_witness :
  ∃ h' out,
    detect_reassignment [0; 1]%nat [region_R1; region_R2] page_heap
    = Ok (h', out) ∧
    ∀ ref, ref ∈ [0; 1]%nat →
      let lb := box_of (mask (page_heap ref)) in
      separated lb (candidates [region_R1; region_R2]) ∧
      ((no_overlap lb (candidates [region_R1; region_R2])
        ∧ (ref ∉ out) ∧ h' ref = page_heap ref) ∨
       (∃ i r, best_region lb (candidates [region_R1; region_R2]) i r ∧
          ((region (page_heap ref) = Some (rpk r)
            ∧ (ref ∉ out) ∧ h' ref = page_heap ref) ∨
           (region (page_heap ref) ≠ Some (rpk r) ∧ ref ∈ out ∧
            h' ref = set_region (page_heap ref) (rpk r))))).
Proof.
  apply (reassignment_selects_best [0; 1]%nat [region_R1; region_R2]
           page_heap).
  - exact page_regions_distinct.
  - repeat constructor; intros p [= <-]; reflexivity.
  - intros r Hr. vm_compute in Hr.
    apply elem_of_cons in Hr as [->|Hr]; [done|].
    apply list_elem_of_singleton in Hr as ->. done.
  - intros ref Href. right.
    apply elem_of_cons in Href as [->|Href];
      [|apply list_elem_of_singleton in Href as ->];
      (split; [reflexivity|intros p [= <-]; reflexivity]).
  - intros ref Href.
    apply elem_of_cons in Href as [->|Href];
      [|apply list_elem_of_singleton in Href as ->];
      vm_compute; discriminate.
Defined.

End ReassignExtras.

(** ** The scripts: what they send *)

Section ScriptFacts.

Import Http.

Context (server : list request → request → reply).

Lemma requests_app (l1 l2 : list event) :
  requests (l1 ++ l2) = requests l1 ++ requests l2.
Proof. apply omap_app. Qed.

Lemma emits_weaken {A : Type} (m : io A)
    (P Q : list request → outcome A → list request → Prop) :
  emits m P → (∀ past o rs, P past o rs → Q past o rs) → emits m Q.
Proof.
  intros Hm HPQ log o log' Hrun.
  destruct (Hm log o log' Hrun) as (evs & -> & HP). eauto.
Qed.

Lemma emits_ret {A : Type} (a : A) :
  emits (mret a : io A) (fun _ o rs => o = Returned a ∧ rs = []).
Proof.
  intros log o log' [= <- <-]. exists []. by rewrite app_nil_r.
Qed.

Lemma emits_raise {A : Type} (f : failure) :
  emits (raise f : io A) (fun _ o rs => o = Halted (Raised f) ∧ rs = []).
Proof.
  intros log o log' [= <- <-]. exists []. by rewrite app_nil_r.
Qed.

Lemma emits_bind {A B : Type} (m : io A) (k : A → io B)
    (P : list request → outcome A → list request → Prop)
    (Q : A → list request → outcome B → list request → Prop) :
  emits m P → (∀ a, emits (k a) (Q a)) →
  emits (m ≫= k)
    (fun past o rs =>
       (∃ h, o = Halted h ∧ P past (Halted h) rs) ∨
       (∃ a r1 r2, rs = r1 ++ r2 ∧ P past (Returned a) r1
                   ∧ Q a (past ++ r1) o r2)).
Proof.
  intros Hm Hk log o log' Hrun. unfold mbind, io_bind in Hrun.
  destruct (m log) as [[a|h] log1] eqn:Hm1.
  - destruct (Hm log _ _ Hm1) as (e1 & -> & HP).
    destruct (Hk a _ _ _ Hrun) as (e2 & -> & HQ).
    exists (e1 ++ e2). rewrite app_assoc. split; [done|]. right.
    exists a, (requests e1), (requests e2).
    rewrite requests_app in HQ. by rewrite requests_app.
  - injection Hrun as <- <-.
    destruct (Hm log _ _ Hm1) as (e1 & -> & HP).
    exists e1. split; [done|]. left. eauto.
Qed.

Lemma emits_send (r : request) :
  emits (send server r)
    (fun past o rs =>
       rs = [r] ∧
       ((o = Halted (Raised ConnectionError) ∧ server past r = Unreachable) ∨
        (∃ resp, o = Returned resp ∧ server past r = Response resp))).
Proof.
  intros log o log' Hrun. unfold send in Hrun.
  destruct (server (requests log) r) as [resp|] eqn:Hs;
    injection Hrun as <- <-; exists [Sent r]; (split; [done|]);
    (split; [done|]); [right; eauto|left; done].
Qed.

Lemma emits_silent {A : Type} (m : io A) (a : A) :
  (∀ log, ∃ evs, m log = (Returned a, log ++ evs) ∧ requests evs = []) →
  emits m (fun _ o rs => o = Returned a ∧ rs = []).
Proof.
  intros H log o log' Hrun. destruct (H log) as (evs & Hm & Hrs).
  rewrite Hm in Hrun. injection Hrun as <- <-. eauto.
Qed.

Lemma emits_print (s : string) :
  emits (print s) (fun _ o rs => o = Returned tt ∧ rs = []).
Proof. apply emits_silent. intros log. by exists [Printed s]. Qed.

Lemma emits_set_description (s : string) :
  emits (set_description s) (fun _ o rs => o = Returned tt ∧ rs = []).
Proof. apply emits_silent. intros log. by exists [Described s]. Qed.

Lemma emits_update (n : Z) :
  emits (update n) (fun _ o rs => o = Returned tt ∧ rs = []).
Proof. apply emits_silent. intros log. by exists [Advanced n]. Qed.

Lemma quiet_raise_for_status (r : response) : quiet (raise_for_status r).
Proof.
  unfold quiet, raise_for_status. destruct (is_error _).
  - eapply emits_weaken; [apply emits_raise|]. by intros ? ? ? [_ ->].
  - eapply emits_weaken; [apply emits_ret|]. by intros ? ? ? [_ ->].
Qed.

Lemma quiet_response_json (r : response) : quiet (response_json r).
Proof.
  unfold quiet, response_json. destruct (body r).
  - eapply emits_weaken; [apply emits_ret|]. by intros ? ? ? [_ ->].
  - eapply emits_weaken; [apply emits_raise|]. by intros ? ? ? [_ ->].
Qed.

Lemma sends_one_bulk_delete_lines (document_id part_id : Z)
    (line_ids : list Z) (token : string) :
  sends_one (delete_request document_id part_id line_ids token)
    (bulk_delete_lines server document_id part_id line_ids token).
Proof.
  unfold sends_one, bulk_delete_lines.
  eapply emits_weaken.
  - apply emits_bind; [apply emits_send|]. intros resp.
    instantiate (1 := fun _ _ o rs => o = Returned tt ∧ rs = []).
    destruct (ok resp); apply emits_print.
  - intros past o rs [(h & -> & -> & [[[= ->] _]|(? & [=] & _)])
                     |(a & r1 & r2 & -> & [-> _] & -> & ->)].
    + split; [done|by right].
    + split; [done|]. left. by eexists.
Qed.

Lemma sends_one_recalculate_ordering (document_id part_id : Z)
    (token : string) :
  sends_one (recalculate_request document_id part_id token)
    (recalculate_ordering server document_id part_id token).
Proof.
  unfold sends_one, recalculate_ordering.
  eapply emits_weaken.
  - apply emits_bind; [apply emits_send|]. intros resp.
    apply emits_bind.
    + instantiate (1 := fun _ o rs => o = Returned tt ∧ rs = []).
      destruct (ok resp); [apply emits_ret|apply emits_print].
    + intros u. apply emits_ret.
  - intros past o rs [(h & -> & -> & [[[= ->] _]|(? & [=] & _)])
                     |(a & r1 & r2 & -> & [-> _] & H)].
    + split; [done|by right].
    + destruct H as [(h & _ & [=] & _)
                    |([] & r3 & r4 & -> & [_ ->] & -> & ->)].
      split; [done|]. left. by eexists.
Qed.

Lemma sends_one_bulk_update (document_id part_id : Z) (token : string)
    (ls : list Line) :
  sends_one (update_request document_id part_id token ls)
    (bulk_update server document_id part_id token ls).
Proof.
  unfold sends_one, bulk_update.
  eapply emits_weaken.
  - apply emits_bind; [apply emits_send|]. intros resp.
    apply emits_bind.
    + instantiate (1 := fun _ o rs => o = Returned tt ∧ rs = []).
      destruct (ok resp); [apply emits_ret|apply emits_print].
    + intros u. apply emits_ret.
  - intros past o rs [(h & -> & -> & [[[= ->] _]|(? & [=] & _)])
                     |(a & r1 & r2 & -> & [-> _] & H)].
    + split; [done|by right].
    + destruct H as [(h & _ & [=] & _)
                    |([] & r3 & r4 & -> & [_ ->] & -> & ->)].
      split; [done|]. left. by eexists.
Qed.

End ScriptFacts.

(** ** The scripts: the shape of a run *)

Section RunFacts.

Import Http.

Context (server : list request → request → reply).

(** The [while] loop sends page requests only. *)
Lemma emits_follow (fuel : nat) (hdrs : list (string * string))
    (url : option string) (part_ids : list Z) :
  emits (follow server fuel hdrs url part_ids)
    (fun _ _ rs => Forall (fun r => ∃ u, r = page_request hdrs u) rs).
Proof.
  assert (∀ (ids : list Z),
            emits (mret ids : io (list Z))
              (fun _ _ rs =>
                 Forall (fun r => ∃ u, r = page_request hdrs u) rs)) as Hret.
  { intros ids. eapply emits_weaken; [apply emits_ret|].
    by intros ? ? ? [_ ->]. }
  revert url part_ids. induction fuel as [|fuel IH]; intros url part_ids.
  - destruct url as [[|c u]|]; cbn [follow]; try apply Hret.
    intros log o log' [= <- <-]. exists []. by rewrite app_nil_r.
  - destruct url as [[|c u]|]; cbn [follow]; try apply Hret.
    eapply emits_weaken.
    + apply emits_bind; [apply emits_send|]. intros resp.
      apply emits_bind; [apply quiet_raise_for_status|]. intros u0.
      apply emits_bind; [apply quiet_response_json|]. intros data.
      apply IH.
    + intros past o rs [(h & _ & -> & _)|(resp & r1 & r2 & -> & [-> _] & H)].
      { apply Forall_singleton. eauto. }
      apply Forall_cons. split; [eauto|].
      destruct H as [(h & _ & ->)|(u1 & r3 & r4 & -> & -> & H)]; [done|].
      destruct H as [(h & _ & ->)|(d & r5 & r6 & -> & -> & H)]; [done|].
      done.
Qed.

(** Two requests in a row, each sent whatever the first was answered. *)
Lemma emits_write_pair {A B C : Type} (r1 r2 : request) (first : io A)
    (second : io B) (c : C) :
  sends_one r1 first → sends_one r2 second →
  emits (_ ← first; _ ← second; mret c)
    (fun _ o rs =>
       (rs = [r1] ∧ o = Halted (Raised ConnectionError)) ∨
       (rs = [r1; r2] ∧
        (o = Returned c ∨ o = Halted (Raised ConnectionError)))).
Proof.
  intros H1 H2. eapply emits_weaken.
  - apply emits_bind; [exact H1|]. intros a.
    apply emits_bind; [exact H2|]. intros b. apply emits_ret.
  - intros past o rs [(h & -> & -> & [(a & [=])|[= ->]])
                     |(a & r3 & r4 & -> & [-> _] & H)]; [by left|].
    right. destruct H as [(h & -> & -> & [(b & [=])|[= ->]])
                         |(b & r5 & r6 & -> & [-> _] & -> & ->)].
    + split; [done|by right].
    + split; [done|by left].
Qed.

(** A loop over the parts: the turns that come to their end, one per
    part and in the order of the list, then the turn that stops the
    loop, if one does. *)
Lemma emits_turns {St : Type} (body : St → Z → io St)
    (turn : list request → Z → list request → Prop)
    (stop : Z → halt → list request → Prop) (s : St) (ids : list Z) :
  (∀ s x, emits (body s x)
            (fun past o rs =>
               ((∃ s', o = Returned s') ∧ turn past x rs) ∨
               (∃ h, o = Halted h ∧ stop x h rs))) →
  emits (for_io body s ids)
    (fun past o rs =>
       ∃ (n : nat) whole rest,
         rs = whole ++ rest ∧ turns turn past (take n ids) whole ∧
         (((∃ s', o = Returned s') ∧ n = length ids ∧ rest = []) ∨
          (∃ h x, o = Halted h ∧ ids !! n = Some x ∧ stop x h rest))).
Proof.
  intros Hbody. revert s.
  induction ids as [|x ids IH]; intros s; cbn [for_io].
  - eapply emits_weaken; [apply emits_ret|]. intros past o rs [-> ->].
    exists 0%nat, [], []. split; [done|]. split; [constructor|].
    left. eauto.
  - eapply emits_weaken; [apply emits_bind; [apply Hbody|apply IH]|].
    intros past o rs
      [(h & -> & [[(s' & [=]) _]|(h' & [= <-] & Hstop)])
      |(s' & r1 & r2 & -> & Hturn & n & whole & rest & -> & Hturns & Ho)].
    + exists 0%nat, [], rs. split; [done|]. split; [constructor|].
      right. by exists h, x.
    + destruct Hturn as [[_ Hturn]|(h & [=] & _)].
      exists (S n), (r1 ++ whole), rest. split; [by rewrite app_assoc|].
      split; [by constructor|].
      destruct Ho as [(Hs & -> & ->)|(h & y & -> & Hy & Hstop)];
        [by left|right; by exists h, y].
Qed.

(** Reading a part sends the read and nothing else; when it returns, the
    service has answered with the document returned. *)
Lemma emits_get_part_read (document_id part_id : Z) (token : string) :
  emits (get_part server document_id part_id token)
    (fun past o rs =>
       rs = [part_request document_id part_id token] ∧
       o ≠ Halted OutOfFuel ∧
       ∀ d, o = Returned d →
            part_read server past document_id part_id token d).
Proof.
  intros log o log' Hrun.
  exists [Sent (part_request document_id part_id token)].
  unfold get_part, mbind, io_bind, send in Hrun.
  destruct (server (requests log) _) as [resp|] eqn:Hs.
  2:{ injection Hrun as <- <-. by repeat split. }
  unfold raise_for_status in Hrun.
  destruct (is_error (status_code resp)) eqn:Herr.
  { injection Hrun as <- <-. by repeat split. }
  cbn in Hrun. unfold response_json in Hrun.
  destruct (body resp) as [d|] eqn:Hbody; injection Hrun as <- <-;
    repeat split; try done.
  intros d' [= <-]. by exists resp.
Qed.

Lemma emits_get_lines (document_id part_id : Z) (token : string) :
  emits (get_lines server document_id part_id token)
    (fun past o rs =>
       rs = [part_request document_id part_id token] ∧
       o ≠ Halted OutOfFuel ∧
       ∀ ls, o = Returned ls →
             ∃ d, part_read server past document_id part_id token d
                  ∧ ls = lines d).
Proof.
  unfold get_lines. eapply emits_weaken.
  - apply emits_bind; [apply emits_get_part_read|]. intros d.
    apply emits_ret.
  - intros past o rs [(h & -> & -> & Hh & _)
                     |(d & r1 & r2 & -> & (-> & _ & Hd) & -> & ->)].
    + repeat split; [intros [= ->]; by destruct Hh|done].
    + repeat split; [done|]. intros ls [= <-]. exists d. by split; [apply Hd|].
Qed.

Lemma emits_get_lines_and_regions (document_id part_id : Z)
    (token : string) :
  emits (get_lines_and_regions server document_id part_id token)
    (fun past o rs =>
       rs = [part_request document_id part_id token] ∧
       o ≠ Halted OutOfFuel ∧
       ∀ lr, o = Returned lr →
             ∃ d, part_read server past document_id part_id token d
                  ∧ lr = (lines d, regions d)).
Proof.
  unfold get_lines_and_regions. eapply emits_weaken.
  - apply emits_bind; [apply emits_get_part_read|]. intros d.
    apply emits_ret.
  - intros past o rs [(h & -> & -> & Hh & _)
                     |(d & r1 & r2 & -> & (-> & _ & Hd) & -> & ->)].
    + repeat split; [intros [= ->]; by destruct Hh|done].
    + repeat split; [done|]. intros lr [= <-]. exists d. by split; [apply Hd|].
Qed.

Lemma emits_engine {A : Type} (r : res A) :
  emits (engine r)
    (fun _ o rs => rs = [] ∧ o ≠ Halted OutOfFuel
                   ∧ ∀ a, o = Returned a → r = Ok a).
Proof.
  unfold engine. destruct r as [a|e].
  - eapply emits_weaken; [apply emits_ret|].
    intros ? ? ? [-> ->]. repeat split; [done|]. by intros a' [= ->].
  - eapply emits_weaken; [apply emits_raise|].
    intros ? ? ? [-> ->]. by repeat split.
Qed.

Lemma emits_dedup_part (document_id : Z) (token : string) (part_id : Z) :
  emits (dedup_part server document_id token tt part_id)
    (fun past o rs =>
       ((∃ u, o = Returned u)
        ∧ dedup_turn server document_id token past part_id rs) ∨
       (∃ h, o = Halted h ∧ dedup_stop document_id token part_id h rs)).
Proof.
  unfold dedup_part. eapply emits_weaken.
  - apply emits_bind; [apply emits_get_lines|]. intros ls.
    apply emits_bind; [apply emits_engine|]. intros to_delete.
    instantiate (1 := fun to_delete _ o rs =>
      written (to_delete = [])
        (delete_request document_id part_id to_delete token)
        (recalculate_request document_id part_id token) o rs).
    destruct to_delete as [|x to_delete].
    + eapply emits_weaken; [apply emits_print|].
      intros ? ? ? [-> ->]. left. eauto.
    + eapply emits_weaken.
      * apply emits_bind; [apply emits_print|]. intros u.
        apply (emits_write_pair
                 (delete_request document_id part_id (x :: to_delete) token)
                 (recalculate_request document_id part_id token) _ _ tt);
          [apply sends_one_bulk_delete_lines
          |apply sends_one_recalculate_ordering].
      * intros past o rs [(h & _ & [=] & _)
                         |([] & r1 & r2 & -> & [_ ->] & H)].
        right. split; [done|].
        destruct H as [[-> ->]|[-> [->| ->]]]; [by left|right..]; eauto.
  - intros past o rs
      [(h & -> & -> & Hh & _)
      |(ls & r1 & r2 & -> & (-> & _ & Hls) & H)].
    { right. exists h. split; [done|]. left. split; [congruence|done]. }
    destruct (Hls ls eq_refl) as (d & Hd & ->).
    destruct H as [(h & -> & -> & Hh & _)
                  |(ids & r3 & r4 & -> & (-> & _ & Hout) & H)].
    { right. exists h. split; [done|]. left. split; [congruence|done]. }
    specialize (Hout ids eq_refl).
    destruct H as [(-> & -> & Ho)
                  |(Hne & [[-> ->]|[-> [Ho| ->]]])].
    + left. split; [done|]. by exists d, [], [].
    + right. eexists. split; [done|]. right. split; [done|].
      exists ids. split; [done|]. by left.
    + left. split; [done|]. exists d, ids, ids.
      repeat split; [done..|]. by destruct ids.
    + right. eexists. split; [done|]. right. split; [done|].
      exists ids. split; [done|]. by right.
Qed.

(** The lines a run of [detect_reassignment] returns all have a region. *)
Lemma reassigned_have_region (refs : list nat) (regs : list Region)
    (h h' : heap) (out : list nat) :
  detect_reassignment refs regs h = Ok (h', out) →
  Forall (fun l => region l ≠ None) (h' <$> out).
Proof.
  unfold detect_reassignment. intros Hrun.
  apply bind_Ok in Hrun as (bboxes & _ & Hloop).
  pose proof (loop_inv_run bboxes h refs [] (h, []) (h', out)
                (loop_inv_initial bboxes h) Hloop)
    as (_ & _ & Hin & _).
  cbn [fst snd] in *. apply Forall_fmap, Forall_forall.
  intros ref Href. destruct (Hin ref Href) as (best & _ & _ & E).
  simpl. by rewrite E.
Qed.

(** What follows the engine in a turn of [reassign.py], [ls] being the
    lines to send. *)
Lemma emits_reassign_write (document_id : Z) (token : string)
    (total part_id : Z) (ls : list Line) :
  emits
    (t ← match ls with
         | _ :: _ =>
             let total' := total + Z.of_nat (length ls) in
             _ ← set_description
                   ("Reassigned: " +:+ pretty total' +:+ " [+"
                    +:+ pretty (length ls) +:+ " in "
                    +:+ pretty part_id +:+ "]");
             _ ← bulk_update server document_id part_id token ls;
             _ ← recalculate_ordering server document_id part_id token;
             mret total'
         | [] => mret total
         end;
     _ ← update 1;
     mret t)
    (fun _ o rs =>
       written (ls = [])
         (update_request document_id part_id token ls)
         (recalculate_request document_id part_id token) o rs).
Proof.
  eapply emits_weaken.
  - apply emits_bind.
    + instantiate (1 := fun _ o rs =>
        written (ls = [])
          (update_request document_id part_id token ls)
          (recalculate_request document_id part_id token) o rs).
      destruct ls as [|l ls].
      * eapply emits_weaken; [apply emits_ret|].
        intros ? ? ? [-> ->]. left. eauto.
      * eapply emits_weaken.
        -- apply emits_bind; [apply emits_set_description|]. intros u.
           apply (emits_write_pair
                    (update_request document_id part_id token (l :: ls))
                    (recalculate_request document_id part_id token));
             [apply sends_one_bulk_update
             |apply sends_one_recalculate_ordering].
        -- intros past o rs [(h & _ & [=] & _)
                            |([] & r1 & r2 & -> & [_ ->] & H)].
           right. split; [done|].
           destruct H as [[-> ->]|[-> [->| ->]]]; [by left|right..]; eauto.
    + intros t. apply emits_bind; [apply emits_update|]. intros u.
      apply emits_ret.
  - intros past o rs [(h & -> & H)|(t & r1 & r2 & -> & Hfirst & H)].
    + destruct H as [(_ & _ & a & [=])|(Hne & H)].
      right. split; [done|].
      destruct H as [[-> Ho]|[-> [(a & [=])|Ho]]]; [by left|by right; eauto].
    + destruct H as [(h & _ & [=] & _)
                    |([] & r3 & r4 & -> & [_ ->] & -> & ->)].
      rewrite !app_nil_r.
      destruct Hfirst as [(Hnil & -> & _)|(Hne & [[_ [=]]|[-> _]])].
      * left. eauto.
      * right. split; [done|]. right. split; [done|]. left. eauto.
Qed.

Lemma emits_reassign_part (document_id : Z) (token : string) (total : Z)
    (part_id : Z) :
  emits (reassign_part server document_id token total part_id)
    (fun past o rs =>
       ((∃ t, o = Returned t)
        ∧ reassign_turn server document_id token past part_id rs) ∨
       (∃ h, o = Halted h
             ∧ reassign_stop document_id token part_id h rs)).
Proof.
  unfold reassign_part. eapply emits_weaken.
  - apply emits_bind; [apply emits_get_lines_and_regions|]. intros lr.
    apply emits_bind; [apply emits_engine|]. intros st.
    apply (emits_reassign_write document_id token total part_id
             (st.1 <$> st.2)).
  - intros past o rs
      [(h & -> & -> & Hh & _)
      |(lr & r1 & r2 & -> & (-> & _ & Hlr) & H)].
    { right. exists h. split; [done|]. left. split; [congruence|done]. }
    destruct (Hlr lr eq_refl) as (d & Hd & ->).
    destruct H as [(h & -> & -> & Hh & _)
                  |([h' out] & r3 & r4 & -> & (-> & _ & Hst) & H)].
    { right. exists h. split; [done|]. left. split; [congruence|done]. }
    specialize (Hst _ eq_refl). cbn [fst snd] in *.
    pose proof (reassigned_have_region _ _ _ _ _ Hst) as Hreg.
    destruct H as [(Hnil & -> & Ho)
                  |(Hne & [[-> ->]|[-> [Ho| ->]]])].
    + left. split; [done|]. exists d, h', out.
      repeat split; [done..|]. by rewrite Hnil.
    + right. eexists. split; [done|]. right. split; [done|].
      exists (h' <$> out). repeat split; [done..|]. by left.
    + left. split; [done|]. exists d, h', out.
      repeat split; [done..|]. by destruct (h' <$> out).
    + right. eexists. split; [done|]. right. split; [done|].
      exists (h' <$> out). repeat split; [done..|]. by right.
Qed.

End RunFacts.

(** ** The scripts: whole runs *)

Section MainFacts.

Import Http.

Context (server : list request → request → reply).

Lemma from_read_never {A : Type} (m : io A)
    (P : list request → outcome A → list request → Prop) :
  emits m P →
  (∀ past o rs s, P past o rs → o ≠ Halted (Raised (HTTPError s))) →
  emits m (from_read server).
Proof.
  intros Hm Hno. eapply emits_weaken; [exact Hm|].
  intros past o rs HP s ->. by destruct (Hno past _ rs s HP).
Qed.

Lemma from_read_bind {A B : Type} (m : io A) (k : A → io B) :
  emits m (from_read server) → (∀ a, emits (k a) (from_read server)) →
  emits (m ≫= k) (from_read server).
Proof.
  intros Hm Hk. eapply emits_weaken;
    [exact (emits_bind m k _ (fun _ => from_read server) Hm Hk)|].
  intros past o rs [(h & -> & H)|(a & r1 & r2 & -> & _ & H)] s Hs.
  - injection Hs as ->. exact (H s eq_refl).
  - destruct (H s Hs) as (rs0 & r & resp & -> & Hget & Hserved & Hst).
    exists (r1 ++ rs0), r, resp. split; [apply app_assoc|].
    rewrite <- app_assoc in Hserved. done.
Qed.

Lemma from_read_returns {A : Type} (m : io A) (a : A) :
  emits m (fun _ o rs => o = Returned a ∧ rs = []) →
  emits m (from_read server).
Proof.
  intros H. eapply from_read_never; [exact H|]. by intros ? ? ? ? [-> _].
Qed.

Lemma from_read_sends_one {A : Type} (r : request) (m : io A) :
  sends_one r m → emits m (from_read server).
Proof.
  intros H. eapply from_read_never; [exact H|].
  by intros ? ? ? ? [_ [(a & ->)| ->]].
Qed.

Lemma from_read_engine {A : Type} (r : res A) :
  emits (engine r) (from_read server).
Proof.
  destruct r as [a|e]; cbn [engine].
  - eapply from_read_returns, emits_ret.
  - eapply from_read_never; [apply emits_raise|]. by intros ? ? ? ? [-> _].
Qed.

Lemma from_read_response_json (resp : response) :
  emits (response_json resp) (from_read server).
Proof.
  unfold response_json. destruct (body resp).
  - eapply from_read_returns, emits_ret.
  - eapply from_read_never; [apply emits_raise|]. by intros ? ? ? ? [-> _].
Qed.

(** A [GET] whose answer goes through [raise_for_status]. *)
Lemma from_read_checked {B : Type} (r : request) (c : response → io B) :
  method r = GET →
  (∀ resp, emits (c resp) (from_read server)) →
  emits (resp ← send server r; _ ← raise_for_status resp; c resp)
    (from_read server).
Proof.
  intros Hget Hc. eapply emits_weaken.
  - apply emits_bind; [apply emits_send|]. intros resp.
    instantiate (1 := fun resp past o rs =>
      ∀ s, o = Halted (Raised (HTTPError s)) →
        (rs = [] ∧ status_code resp = s) ∨ from_read server past o rs).
    intros log o log' Hrun.
    unfold raise_for_status, mbind, io_bind in Hrun.
    destruct (is_error (status_code resp)).
    + injection Hrun as <- <-. exists []. rewrite app_nil_r.
      split; [done|]. intros s [= <-]. by left.
    + cbn in Hrun. destruct (Hc resp log o log' Hrun) as (evs & -> & H).
      exists evs. split; [done|]. intros s Hs. by right.
  - intros past o rs [(h & -> & -> & [[[= ->] _]|(? & [=] & _)])
                     |(resp & r1 & r2 & -> & [-> Hr] & H)] s Hs;
      [done|].
    destruct Hr as [[[=] _]|(resp' & [= <-] & Hserved)].
    destruct (H s Hs) as [[-> <-]|H'].
    + exists [], r, resp. by rewrite !app_nil_r.
    + destruct (H' s Hs) as (rs0 & r' & resp' & -> & Hget' & Hs' & Hst').
      exists (r :: rs0), r', resp'.
      rewrite <- app_assoc in Hs'. done.
Qed.

Lemma from_read_follow (fuel : nat) (hdrs : list (string * string))
    (url : option string) (part_ids : list Z) :
  emits (follow server fuel hdrs url part_ids) (from_read server).
Proof.
  revert url part_ids. induction fuel as [|fuel IH]; intros url part_ids.
  - destruct url as [[|c u]|]; cbn [follow];
      try (eapply from_read_returns, emits_ret).
    intros log o log' [= <- <-]. exists []. rewrite app_nil_r.
    split; [done|]. by intros s [=].
  - destruct url as [[|c u]|]; cbn [follow];
      try (eapply from_read_returns, emits_ret).
    apply (from_read_checked (page_request hdrs (String c u))
             (fun resp => data ← response_json resp;
                          follow server fuel hdrs (next data)
                            (part_ids ++ results data))); [done|].
    intros resp. apply from_read_bind; [apply from_read_response_json|].
    intros data. apply IH.
Qed.

Lemma from_read_get_part (document_id part_id : Z) (token : string) :
  emits (get_part server document_id part_id token) (from_read server).
Proof.
  apply (from_read_checked (part_request document_id part_id token)
           response_json); [done|].
  apply from_read_response_json.
Qed.

Lemma from_read_for_io {S A : Type} (body : S → A → io S) (s : S)
    (l : list A) :
  (∀ s x, emits (body s x) (from_read server)) →
  emits (for_io body s l) (from_read server).
Proof.
  intros Hbody. revert s. induction l as [|x l IH]; intros s; cbn [for_io].
  - eapply from_read_returns, emits_ret.
  - apply from_read_bind; [apply Hbody|apply IH].
Qed.

Lemma from_read_dedup_main (fuel : nat) (document_id : Z) (token : string) :
  emits (dedup_main server fuel document_id token) (from_read server).
Proof.
  unfold dedup_main.
  apply from_read_bind; [eapply from_read_returns, emits_print|]. intros u.
  apply from_read_bind; [apply from_read_follow|]. intros part_ids.
  apply from_read_for_io. intros [] part_id. unfold dedup_part, get_lines.
  apply from_read_bind.
  { apply from_read_bind; [apply from_read_get_part|]. intros d.
    eapply from_read_returns, emits_ret. }
  intros ls. apply from_read_bind; [apply from_read_engine|].
  intros [|x to_delete]; [eapply from_read_returns, emits_print|].
  apply from_read_bind; [eapply from_read_returns, emits_print|]. intros u1.
  apply from_read_bind;
    [eapply from_read_sends_one, sends_one_bulk_delete_lines|]. intros u2.
  apply from_read_bind;
    [eapply from_read_sends_one, sends_one_recalculate_ordering|].
  intros resp. eapply from_read_returns, emits_ret.
Qed.

Lemma from_read_reassign_main (fuel : nat) (document_id : Z)
    (token : string) :
  emits (reassign_main server fuel document_id token) (from_read server).
Proof.
  unfold reassign_main.
  apply from_read_bind; [eapply from_read_returns, emits_print|]. intros u.
  apply from_read_bind; [apply from_read_follow|]. intros part_ids.
  apply from_read_bind; [|intros t; eapply from_read_returns, emits_ret].
  apply from_read_for_io. intros total part_id.
  unfold reassign_part, get_lines_and_regions.
  apply from_read_bind.
  { apply from_read_bind; [apply from_read_get_part|]. intros d.
    eapply from_read_returns, emits_ret. }
  intros lr. apply from_read_bind; [apply from_read_engine|]. intros st.
  apply from_read_bind.
  - destruct (st.1 <$> st.2) as [|l ls];
      [eapply from_read_returns, emits_ret|].
    apply from_read_bind; [eapply from_read_returns, emits_set_description|].
    intros u1.
    apply from_read_bind;
      [eapply from_read_sends_one, sends_one_bulk_update|]. intros r1.
    apply from_read_bind;
      [eapply from_read_sends_one, sends_one_recalculate_ordering|].
    intros r2. eapply from_read_returns, emits_ret.
  - intros t. apply from_read_bind; [eapply from_read_returns, emits_update|].
    intros u1. eapply from_read_returns, emits_ret.
Qed.

Lemma from_read_recalculate_all_parts (fuel : nat) (document_id : Z)
    (token : string) :
  emits (recalculate_all_parts server fuel document_id token)
    (from_read server).
Proof.
  unfold recalculate_all_parts.
  apply from_read_bind; [eapply from_read_returns, emits_print|]. intros u.
  apply from_read_bind; [apply from_read_follow|]. intros part_ids.
  apply from_read_bind; [eapply from_read_returns, emits_print|]. intros u1.
  apply from_read_for_io. intros [] part_id.
  apply from_read_bind;
    [eapply from_read_sends_one, sends_one_recalculate_ordering|].
  intros resp. eapply from_read_returns, emits_ret.
Qed.

(** X21. In the three scripts only a failed read stops a run with an
    [HTTPError]: when [main] of [remove-duplicates.py], [main] of
    [reassign.py] or [recalculate_all_parts] of [reorder.py] stops on an
    [HTTPError], the last request sent is a [GET] and the service
    answered it with that status.  An error status in answer to a bulk
    delete, a bulk update or a recalculation never stops a run. *)
Theorem http_error_only_from_read (main : io unit) (fuel : nat)
    (document_id : Z) (token : string) (s : Z) (log : list event) :
  main = dedup_main server fuel document_id token ∨
  main = reassign_main server fuel document_id token ∨
  main = recalculate_all_parts server fuel document_id token →
  main [] = (Halted (Raised (HTTPError s)), log) →
  ∃ rs0 r resp,
    requests log = rs0 ++ [r] ∧ method r = GET ∧
    server rs0 r = Response resp ∧ status_code resp = s.
Proof.
  intros Hmain Hrun.
  assert (emits main (from_read server)) as Hem.
  { destruct Hmain as [->|[->| ->]];
      [apply from_read_dedup_main | apply from_read_reassign_main
      | apply from_read_recalculate_all_parts]. }
  destruct (Hem [] _ _ Hrun) as (evs & -> & H).
  destruct (H s eq_refl) as (rs0 & r & resp & E & Hget & Hs & Hst).
  exists rs0, r, resp. done.
Qed.

Lemma emits_get_all_parts (fuel : nat) (document_id : Z) (token : string) :
  emits (get_all_parts server fuel document_id token)
    (fun _ _ rs => Forall (page_get token) rs).
Proof. apply emits_follow. Qed.

End MainFacts.

(** ** The scripts: runs on the sample services, the list of parts *)

Section ListingFacts.

Import Http Services.

Context (server : list request → request → reply).

Lemma follow_paged (hdrs : list (string * string)) (past : list request)
    (url : option string) (ids : list Z) :
  paged server hdrs past url ids →
  ∀ log part_ids, requests log = past →
    ∃ n : nat, ∀ fuel, (n ≤ fuel)%nat →
      ∃ log', follow server fuel hdrs url part_ids log
              = (Returned (part_ids ++ ids), log').
Proof.
  induction 1 as [past url Hurl|past u resp d ids Hu Hs Hst Hbody _ IH];
    intros log part_ids Hlog.
  - exists 0%nat. intros fuel _. exists log. rewrite app_nil_r.
    destruct url as [[|c u]|]; [|done|]; by destruct fuel.
  - destruct (IH (log ++ [Sent (page_request hdrs u)])
                (part_ids ++ results d)) as (n & Hn).
    { by rewrite requests_app, Hlog. }
    exists (S n). intros [|fuel] Hfuel; [lia|].
    destruct (Hn fuel) as (log' & Hrun); [lia|].
    exists log'. destruct u as [|c u]; [done|]. cbn [follow].
    unfold mbind, io_bind, send. rewrite Hlog, Hs.
    unfold raise_for_status. rewrite Hst. cbn.
    unfold response_json. rewrite Hbody. cbn.
    by rewrite Hrun, app_assoc.
Qed.

(** X19. [get_all_parts] follows the ["next"] links: when the service
    answers the page of the list of parts and the pages the links lead to
    with JSON and no error status, up to a page without ["next"], then
    with fuel enough for these pages [get_all_parts] returns the
    identifiers of all the pages, in the order of the pages. *)
Theorem get_all_parts_follows_links (document_id : Z) (token : string)
    (ids : list Z) (log : list event) :
  paged server [authorization token] (requests log)
    (Some (parts_url document_id)) ids →
  ∃ n : nat, ∀ fuel, (n ≤ fuel)%nat →
    ∃ log', get_all_parts server fuel document_id token log
            = (Returned ids, log').
Proof.
  intros Hp. unfold get_all_parts.
  by destruct (follow_paged _ _ _ _ Hp log [] eq_refl) as (n & Hn); eauto.
Qed.

Lemma follow_frame (fuel : nat) (hdrs : list (string * string))
    (url : option string) (part_ids : list Z) (log1 log2 : list event)
    (o : outcome (list Z)) (evs : list event) :
  requests log1 = requests log2 →
  follow server fuel hdrs url part_ids log1 = (o, log1 ++ evs) →
  follow server fuel hdrs url part_ids log2 = (o, log2 ++ evs).
Proof.
  revert url part_ids log1 log2 evs.
  induction fuel as [|fuel IH]; intros url part_ids log1 log2 evs Hreq Hrun.
  - destruct url as [[|c u]|]; cbn [follow] in *;
      injection Hrun as <- Hlog;
      rewrite <- (app_nil_r log1) in Hlog at 1;
      apply app_inv_head in Hlog as <-; by rewrite app_nil_r.
  - destruct url as [[|c u]|]; cbn [follow] in *;
      try (injection Hrun as <- Hlog;
           rewrite <- (app_nil_r log1) in Hlog at 1;
           apply app_inv_head in Hlog as <-; by rewrite app_nil_r).
    unfold mbind, io_bind, send in *. rewrite <- Hreq.
    destruct (server (requests log1) (page_request hdrs (String c u)))
      as [resp|].
    2:{ injection Hrun as <- Hlog. apply app_inv_head in Hlog as <-. done. }
    unfold raise_for_status in *. destruct (is_error (status_code resp)).
    { injection Hrun as <- Hlog. apply app_inv_head in Hlog as <-. done. }
    cbn in *. unfold response_json in *. destruct (body resp) as [d|].
    2:{ injection Hrun as <- Hlog. apply app_inv_head in Hlog as <-. done. }
    cbn in *.
    destruct (emits_follow server fuel hdrs (next d) (part_ids ++ results d)
                _ _ _ Hrun) as (evs' & Hlog & _).
    rewrite <- app_assoc in Hlog. apply app_inv_head in Hlog as ->.
    rewrite app_assoc in Hrun |- *.
    apply (IH _ _ (log1 ++ [Sent (page_request hdrs (String c u))]));
      [|done].
    by rewrite !requests_app, Hreq.
Qed.

Lemma sends_one_then_ret {A : Type} (r : request) (m : io A) :
  sends_one r m → sends_one r (_ ← m; mret tt).
Proof.
  intros H. unfold sends_one. eapply emits_weaken.
  - apply emits_bind; [exact H|]. intros a. apply emits_ret.
  - intros past o rs [(h & -> & -> & [(a & [=])|[= ->]])
                     |(a & r1 & r2 & -> & [-> _] & -> & ->)].
    + split; [done|by right].
    + split; [done|]. left. eauto.
Qed.

Lemma emits_for_each_send {A : Type} (f : A → request)
    (body : unit → A → io unit) (s : unit) (l : list A) :
  (∀ s x, sends_one (f x) (body s x)) →
  emits (for_io body s l)
    (fun _ o rs =>
       ∃ n : nat, rs = f <$> take n l ∧
         ((o = Returned tt ∧ n = length l) ∨
          (o = Halted (Raised ConnectionError) ∧ (0 < n ≤ length l)%nat))).
Proof.
  intros Hbody. revert s. induction l as [|x l IH]; intros []; cbn [for_io].
  - eapply emits_weaken; [apply emits_ret|]. intros past o rs [-> ->].
    exists 0%nat. split; [done|by left].
  - eapply emits_weaken.
    + apply emits_bind; [apply Hbody|]. intros s'. apply IH.
    + intros past o rs [(h & -> & -> & [(a & [=])|[= ->]])
                       |([] & r1 & r2 & -> & [-> _] & n & -> & H)].
      * exists 1%nat. split; [done|]. right. simpl. split; [done|lia].
      * exists (S n). split; [done|]. simpl.
        destruct H as [[-> ->]|[-> ?]]; [by left|right; split; [done|lia]].
Qed.

(** X23. [recalculate_all_parts] of [reorder.py] asks for one
    recalculation per part that [get_all_parts] returns, in that order and
    after the reads of the list, whatever status the recalculations are
    answered with; only a failing connection stops it before the last
    part. *)
Theorem recalculate_all_parts_log (fuel : nat) (document_id : Z)
    (token : string) (ids : list Z) (log0 log : list event)
    (o : outcome unit) :
  get_all_parts server fuel document_id token [] = (Returned ids, log0) →
  recalculate_all_parts server fuel document_id token [] = (o, log) →
  ∃ n : nat,
    requests log
    = requests log0
      ++ ((fun part_id => recalculate_request document_id part_id token)
          <$> take n ids) ∧
    ((o = Returned tt ∧ n = length ids) ∨
     (o = Halted (Raised ConnectionError) ∧ (0 < n ≤ length ids)%nat)).
Proof.
  intros Hlist Hrun. unfold recalculate_all_parts in Hrun.
  unfold mbind at 1, io_bind at 1, print at 1 in Hrun. cbn [app] in Hrun.
  unfold mbind at 1, io_bind at 1 in Hrun.
  destruct (emits_get_all_parts server fuel document_id token _ _ _ Hlist)
    as (evs0 & -> & _). cbn [app] in *.
  unfold get_all_parts in Hlist, Hrun.
  rewrite (follow_frame fuel _ _ _ [] [Printed _] (Returned ids) evs0)
    in Hrun; [|done|exact Hlist].
  assert (emits
            (_ ← print ("Found " +:+ pretty (length ids)
                        +:+ " parts. Recalculating ordering...");
             for_io (fun (_ : unit) part_id =>
                       _ ← recalculate_ordering server document_id part_id
                             token; mret tt) tt ids)
            (fun _ o rs =>
               ∃ n : nat,
                 rs = (fun part_id =>
                         recalculate_request document_id part_id token)
                      <$> take n ids ∧
                 ((o = Returned tt ∧ n = length ids) ∨
                  (o = Halted (Raised ConnectionError)
                   ∧ (0 < n ≤ length ids)%nat)))) as Hem.
  { eapply emits_weaken.
    - apply emits_bind; [apply emits_print|]. intros u.
      apply (emits_for_each_send
               (fun part_id => recalculate_request document_id part_id token)).
      intros s x. apply sends_one_then_ret, sends_one_recalculate_ordering.
    - intros past o' rs [(h & _ & [=] & _)|([] & r1 & r2 & -> & [_ ->] & H)].
      exact H. }
  destruct (Hem _ _ _ Hrun) as (evs & -> & n & Hrs & Ho).
  exists n. split; [|done].
  rewrite !requests_app, Hrs. done.
Qed.

(** The list of parts is read in the same way after a first message. *)
Lemma get_all_parts_after_print (fuel : nat) (document_id : Z)
    (token hello : string) (ids : list Z) (log0 : list event) :
  get_all_parts server fuel document_id token [] = (Returned ids, log0) →
  get_all_parts server fuel document_id token [Printed hello]
  = (Returned ids, Printed hello :: log0).
Proof.
  intros Hlist.
  destruct (emits_get_all_parts server fuel document_id token _ _ _ Hlist)
    as (evs0 & -> & _). cbn [app] in *.
  unfold get_all_parts in *.
  by apply (follow_frame fuel _ _ _ [] [Printed hello] (Returned ids) evs0).
Qed.

(** The loop of a [main], run after the list of parts has been read. *)
Lemma main_loop_log {St : Type} (hello : string) (body : St → Z → io St)
    (s : St) (turn : list request → Z → list request → Prop)
    (stop : Z → halt → list request → Prop)
    (ids : list Z) (log0 log : list event) (o : outcome St) :
  (∀ s x, emits (body s x)
            (fun past o rs =>
               ((∃ s', o = Returned s') ∧ turn past x rs) ∨
               (∃ h, o = Halted h ∧ stop x h rs))) →
  for_io body s ids (Printed hello :: log0) = (o, log) →
  ∃ (n : nat) (whole rest : list request),
    requests log = requests log0 ++ whole ++ rest ∧
    turns turn (requests log0) (take n ids) whole ∧
    (((∃ s', o = Returned s') ∧ n = length ids ∧ rest = []) ∨
     (∃ h part_id, o = Halted h ∧ ids !! n = Some part_id
                   ∧ stop part_id h rest)).
Proof.
  intros Hbody Hrun.
  destruct (emits_turns body turn stop s ids Hbody _ _ _ Hrun)
    as (evs & -> & n & whole & rest & Hrs & Hturns & Ho).
  exists n, whole, rest. split; [|done].
  change (Printed hello :: log0) with ([Printed hello] ++ log0).
  rewrite !requests_app, Hrs. done.
Qed.

(** X20. The requests of a run of [main] of [remove-duplicates.py] once
    [get_all_parts] has returned the parts [ids]: after the reads of the
    list, one turn per part, in the order of [ids].  A turn that comes to
    its end reads its part and, for the lines the service answers with,
    sends the bulk delete of the identifiers that
    [detect_duplicates_to_delete] returns, followed by the recalculation
    of the same part, or sends nothing more when it returns none.  A run
    that returns has made the turn of every part; a run that stops has
    made the turns of the parts before some part of [ids] and stops in
    the turn of that part, after its read or, the connection failing,
    after its bulk delete or its recalculation. *)
Theorem dedup_main_log (fuel : nat) (document_id : Z) (token : string)
    (ids : list Z) (log0 log : list event) (o : outcome unit) :
  get_all_parts server fuel document_id token [] = (Returned ids, log0) →
  dedup_main server fuel document_id token [] = (o, log) →
  ∃ (n : nat) (whole rest : list request),
    requests log = requests log0 ++ whole ++ rest ∧
    turns (dedup_turn server document_id token) (requests log0)
      (take n ids) whole ∧
    ((o = Returned tt ∧ n = length ids ∧ rest = []) ∨
     (∃ h part_id, o = Halted h ∧ ids !! n = Some part_id
                   ∧ dedup_stop document_id token part_id h rest)).
Proof.
  intros Hlist Hrun. unfold dedup_main in Hrun.
  unfold mbind at 1, io_bind at 1, print at 1 in Hrun. cbn [app] in Hrun.
  unfold mbind at 1, io_bind at 1 in Hrun.
  rewrite (get_all_parts_after_print _ _ _ _ _ _ Hlist) in Hrun.
  destruct (main_loop_log _ (dedup_part server document_id token) tt
              (dedup_turn server document_id token)
              (dedup_stop document_id token) ids log0 log o
              (fun s x => match s with tt =>
                 emits_dedup_part server document_id token x end)
              Hrun)
    as (n & whole & rest & Hlog & Hturns & Ho).
  exists n, whole, rest. repeat split; [done..|].
  destruct Ho as [([[] ->] & Hn & Hrest)|Ho]; [by left|by right].
Qed.

(** X22. The requests of a run of [main] of [reassign.py] once
    [get_all_parts] has returned the parts [ids]: after the reads of the
    list, one turn per part, in the order of [ids].  A turn that comes to
    its end reads its part and, for the lines and regions the service
    answers with, sends the bulk update of the lines that
    [detect_reassignment] returns, as it has rewritten them and each with
    a region, followed by the recalculation of the same part, or sends
    nothing more when it returns none.  A run that returns has made the
    turn of every part; a run that stops has made the turns of the parts
    before some part of [ids] and stops in the turn of that part, after
    its read or, the connection failing, after its bulk update or its
    recalculation. *)
Theorem reassign_main_log (fuel : nat) (document_id : Z) (token : string)
    (ids : list Z) (log0 log : list event) (o : outcome unit) :
  get_all_parts server fuel document_id token [] = (Returned ids, log0) →
  reassign_main server fuel document_id token [] = (o, log) →
  ∃ (n : nat) (whole rest : list request),
    requests log = requests log0 ++ whole ++ rest ∧
    turns (reassign_turn server document_id token) (requests log0)
      (take n ids) whole ∧
    ((o = Returned tt ∧ n = length ids ∧ rest = []) ∨
     (∃ h part_id, o = Halted h ∧ ids !! n = Some part_id
                   ∧ reassign_stop document_id token part_id h rest)).
Proof.
  intros Hlist Hrun. unfold reassign_main in Hrun.
  unfold mbind at 1, io_bind at 1, print at 1 in Hrun. cbn [app] in Hrun.
  unfold mbind at 1, io_bind at 1 in Hrun.
  rewrite (get_all_parts_after_print _ _ _ _ _ _ Hlist) in Hrun.
  unfold mbind at 1, io_bind at 1 in Hrun.
  destruct (for_io (reassign_part server document_id token) 0 ids _)
    as [o1 log1] eqn:Hloop.
  destruct (main_loop_log _ (reassign_part server document_id token) 0
              (reassign_turn server document_id token)
              (reassign_stop document_id token) ids log0 log1 o1
              (emits_reassign_part server document_id token) Hloop)
    as (n & whole & rest & Hlog & Hturns & Ho).
  exists n, whole, rest.
  destruct o1 as [t|h]; injection Hrun as <- <-; repeat split; try done.
  - left. by destruct Ho as [(_ & Hn & Hrest)|(h & ? & [=] & _)].
  - right. destruct Ho as [[(t & [=]) _]|(h' & part_id & [= <-] & H)].
    by exists h, part_id.
Qed.

End ListingFacts.

(** ** Runs on the sample services *)

Section SampleRuns.

Import Http Services.

Lemma listing_is_paged :
  paged read_only_service [authorization "t"] []
    (Some (parts_url 7)) [3; 4].
Proof.
  set (d1 := {| results := [3]; next := Some second_page;
                lines := []; regions := [] |}).
  set (d2 := {| results := [4]; next := None; lines := []; regions := [] |}).
  change [3; 4] with (results d1 ++ (results d2 ++ [])).
  apply (paged_next read_only_service _ [] (parts_url 7)
           {| status_code := 200; text := ""; body := Some d1 |} d1);
    [done..|].
  apply (paged_next read_only_service _ _ second_page
           {| status_code := 200; text := ""; body := Some d2 |} d2);
    [done..|].
  by apply paged_last.
Defined.

Lemma get_all_parts_follows_links_witness :
  ∃ n : nat, ∀ fuel, (n ≤ fuel)%nat →
    ∃ log', get_all_parts read_only_service fuel 7 "t" []
            = (Returned [3; 4], log').
Proof.
  apply (get_all_parts_follows_links read_only_service 7 "t" [3; 4] []).
  exact listing_is_paged.
Defined.

Lemma dedup_main_log_witness :
  ∃ (n : nat) (whole rest : list request),
    requests (dedup_main read_only_service 5 7 "t" []).2
    = requests (get_all_parts read_only_service 5 7 "t" []).2
      ++ whole ++ rest ∧
    turns (dedup_turn read_only_service 7 "t")
      (requests (get_all_parts read_only_service 5 7 "t" []).2)
      (take n [3; 4]) whole ∧
    (((dedup_main read_only_service 5 7 "t" []).1 = Returned tt
      ∧ n = length [3; 4] ∧ rest = []) ∨
     (∃ h part_id,
        (dedup_main read_only_service 5 7 "t" []).1 = Halted h
        ∧ [3; 4] !! n = Some part_id ∧ dedup_stop 7 "t" part_id h rest)).
Proof.
  apply (dedup_main_log read_only_service 5 7 "t" [3; 4]);
    vm_compute; reflexivity.
Defined.

Lemma reassign_main_log_witness :
  ∃ (n : nat) (whole rest : list request),
    requests (reassign_main read_only_service 5 7 "t" []).2
    = requests (get_all_parts read_only_service 5 7 "t" []).2
      ++ whole ++ rest ∧
    turns (reassign_turn read_only_service 7 "t")
      (requests (get_all_parts read_only_service 5 7 "t" []).2)
      (take n [3; 4]) whole ∧
    (((reassign_main read_only_service 5 7 "t" []).1 = Returned tt
      ∧ n = length [3; 4] ∧ rest = []) ∨
     (∃ h part_id,
        (reassign_main read_only_service 5 7 "t" []).1 = Halted h
        ∧ [3; 4] !! n = Some part_id
        ∧ reassign_stop 7 "t" part_id h rest)).
Proof.
  apply (reassign_main_log read_only_service 5 7 "t" [3; 4]);
    vm_compute; reflexivity.
Defined.

Lemma http_error_only_from_read_witness :
  ∃ rs0 r resp,
    requests (dedup_main listing_service 5 7 "t" []).2 = rs0 ++ [r] ∧
    method r = GET ∧
    listing_service rs0 r = Response resp ∧ status_code resp = 404.
Proof.
  apply (http_error_only_from_read listing_service
           (dedup_main listing_service 5 7 "t") 5 7 "t" 404).
  - left. reflexivity.
  - vm_compute. reflexivity.
Defined.

Lemma recalculate_all_parts_log_witness :
  ∃ n : nat,
    requests (recalculate_all_parts read_only_service 5 7 "t" []).2
    = requests (get_all_parts read_only_service 5 7 "t" []).2
      ++ ((fun part_id => recalculate_request 7 part_id "t")
          <$> take n [3; 4]) ∧
    (((recalculate_all_parts read_only_service 5 7 "t" []).1 = Returned tt
      ∧ n = length [3; 4]) ∨
     ((recalculate_all_parts read_only_service 5 7 "t" []).1
      = Halted (Raised ConnectionError) ∧ (0 < n ≤ length [3; 4])%nat)).
Proof.
  apply (recalculate_all_parts_log read_only_service 5 7 "t");
    vm_compute; reflexivity.
Defined.

(** What the runs on the sample service send. *)
Example dedup_run_requests :
  requests (dedup_main read_only_service 5 7 "t" []).2
  = [ page_request [authorization "t"] (parts_url 7);
      page_request [authorization "t"] second_page;
      part_request 7 3 "t"; delete_request 7 3 [2; 1] "t";
      recalculate_request 7 3 "t";
      part_request 7 4 "t" ].
Proof. vm_compute. reflexivity. Qed.

Example reassign_run_requests :
  requests (reassign_main read_only_service 5 7 "t" []).2
  = [ page_request [authorization "t"] (parts_url 7);
      page_request [authorization "t"] second_page;
      part_request 7 3 "t";
      update_request 7 3 "t"
        [ mk_line 1 (Some (rect 0 0 10 10)) (Some 10);
          mk_line 2 (Some (rect 1 0 11 10)) (Some 10);
          mk_line 3 (Some (rect 2 0 12 10)) (Some 10) ];
      recalculate_request 7 3 "t";
      part_request 7 4 "t";
      update_request 7 4 "t" [mk_line 1 (Some (rect 1 1 5 5)) (Some 10)];
      recalculate_request 7 4 "t" ].
Proof. vm_compute. reflexivity. Qed.

End SampleRuns.
